(** * auto-templater: a shallow embedding of [src/templater.js]

    The development follows the three classes of the source file:
    [Parser] (template text to a [ResolverContext]), [Resolver] (the
    registry of providers and [buildResolver], which computes the levels of
    the execution plan) and [ResolverExecutor] ([execute] and [_resolve]).

    Conventions of the embedding.
    - A JS string is a [string] whose characters are the code units below
      256; the white space of [String.prototype.trim] and of the regular
      expression class [\s] is then 9..13, 32 and 160.
    - A JS [Map] that the code iterates over is an insertion-ordered
      association list ([ordmap]); a [Map], [Set] or object that is only
      looked up is a [gmap] or [gset].
    - A plain object is the map of its own properties; a read under a key
      that it does not hold finds the members of [Object.prototype]
      ([Proto.inherited], see [read] and [scanVariable]).  The names that
      are written as keys of plain objects (variables, arguments, views) and
      the provider names by which [groupByField] groups come from the
      identifiers of a parsed template, which cannot spell [__proto__] nor
      a member of [Object.prototype] in the place of a provider name.
    - A service object is identified by its [key]: [registService] is the
      only writer of the service table and stores each object under its own
      key.
    - A thrown error is a value of [JsError]; messages are not modelled.
    - A provider callback is a function from the batch of argument records
      to what the awaited call produces: a list of output records, or a
      thrown error.
    - The promises of a level are modelled by what they settle to.  Every
      call of [_resolve] runs up to its [await] inside the loop over the
      groups, so the callbacks of a level are called in the order of the
      groups and read the record as it is when the level starts; the
      handlers then run in some order, which is immaterial in a built plan
      ([built_settle_order]).
    - A loop of the source that need not end takes a [fuel] argument. *)

From Stdlib Require Import String Ascii List Bool Arith Lia Sorted.
From stdpp Require Import gmap strings list.

Import ListNotations.

#[local] Set Warnings "-clear-no-such-hyp".

(** ** Errors and results *)

Inductive JsError : Type :=
  | TemplaterError   (* class TemplaterError extends Error *)
  | SystemError      (* class SystemError extends Error *)
  | TypingError      (* class TypingError extends Error *)
  | TypeError        (* the built-in TypeError of a failed property access *)
  | OtherError.      (* anything else a callback may throw *)

Inductive result (A : Type) : Type :=
  | Ok (a : A)
  | Throw (e : JsError).
Arguments Ok {A} a.
Arguments Throw {A} e.

#[global] Instance result_ret : MRet result := fun A a => Ok a.
#[global] Instance result_bind : MBind result := fun A B k r =>
  match r with
  | Ok a => k a
  | Throw e => Throw e
  end.

(** ** Insertion-ordered maps (JS [Map] and plain objects that are iterated) *)

Section OrdMap.
Context {A : Type}.

Definition ordmap_get (k : string) (m : list (string * A)) : option A :=
  snd <$> find (fun kv => String.eqb (fst kv) k) m.

(** [Map.prototype.set]: an existing key keeps its position. *)
Fixpoint ordmap_set (k : string) (v : A) (m : list (string * A)) : list (string * A) :=
  match m with
  | [] => [(k, v)]
  | (k', v') :: m' =>
      if String.eqb k' k then (k, v) :: m' else (k', v') :: ordmap_set k v m'
  end.

Definition ordmap_has (k : string) (m : list (string * A)) : bool :=
  match ordmap_get k m with Some _ => true | None => false end.

Definition ordmap_keys (m : list (string * A)) : list string := map fst m.
Definition ordmap_values (m : list (string * A)) : list A := map snd m.
End OrdMap.

Abbreviation ordmap A := (list (string * A)).

(** ** JS string primitives *)

Module Js.

Definition code (c : ascii) : nat := nat_of_ascii c.

Definition in_range (lo hi c : ascii) : bool :=
  ((code lo <=? code c) && (code c <=? code hi))%nat.

(** White space of [trim] and of [\s], below 256. *)
Definition is_ws (c : ascii) : bool :=
  (((9 <=? code c) && (code c <=? 13)) || (code c =? 32) || (code c =? 160))%nat.

Fixpoint trimStart (s : string) : string :=
  match s with
  | EmptyString => EmptyString
  | String c s' => if is_ws c then trimStart s' else s
  end.

Fixpoint trimEnd (s : string) : string :=
  match s with
  | EmptyString => EmptyString
  | String c s' =>
      match trimEnd s' with
      | EmptyString => if is_ws c then EmptyString else String c EmptyString
      | t => String c t
      end
  end.

Definition trim (s : string) : string := trimEnd (trimStart s).

Definition startsWith (s tag : string) : bool := String.prefix tag s.

(** [s.slice(1)] *)
Definition slice1 (s : string) : string :=
  match s with
  | EmptyString => EmptyString
  | String _ s' => s'
  end.

Fixpoint dropLast (s : string) : string :=
  match s with
  | EmptyString => EmptyString
  | String c EmptyString => EmptyString
  | String c s' => String c (dropLast s')
  end.

(** [s.slice(1, -1)] *)
Definition slice1m1 (s : string) : string := dropLast (slice1 s).

(** [s.split(sep)] for a one-character separator. *)
Fixpoint split (sep : ascii) (s : string) : list string :=
  match s with
  | EmptyString => [EmptyString]
  | String c s' =>
      if Ascii.eqb c sep then EmptyString :: split sep s'
      else match split sep s' with
           | h :: t => String c h :: t
           | [] => [String c EmptyString]
           end
  end.

(** [parts.join(sep)] *)
Fixpoint join (sep : string) (parts : list string) : string :=
  match parts with
  | [] => EmptyString
  | [p] => p
  | p :: ps => p +:+ sep +:+ join sep ps
  end.

Definition LF : ascii := ascii_of_nat 10.
Definition CR : ascii := ascii_of_nat 13.

(** [s.split(/\r?\n/)]: a carriage return directly before a line feed
    belongs to the separator. *)
Fixpoint splitLines (s : string) : list string :=
  match s with
  | EmptyString => [EmptyString]
  | String c s' =>
      if Ascii.eqb c LF then EmptyString :: splitLines s'
      else if Ascii.eqb c CR && startsWith s' (String LF EmptyString)
      then splitLines s'
      else match splitLines s' with
           | h :: t => String c h :: t
           | [] => [String c EmptyString]
           end
  end.

Fixpoint takeWhile (p : ascii -> bool) (s : string) : string :=
  match s with
  | EmptyString => EmptyString
  | String c s' => if p c then String c (takeWhile p s') else EmptyString
  end.

Fixpoint dropWhile (p : ascii -> bool) (s : string) : string :=
  match s with
  | EmptyString => EmptyString
  | String c s' => if p c then dropWhile p s' else s
  end.

(** Every character of the string satisfies [p]. *)
Fixpoint every (p : ascii -> bool) (s : string) : bool :=
  match s with
  | EmptyString => true
  | String c s' => p c && every p s'
  end.

(** The head of a string, if any, does not satisfy [p]. *)
Definition stops (p : ascii -> bool) (s : string) : Prop :=
  match s with
  | EmptyString => True
  | String c _ => p c = false
  end.

Fixpoint dropN (n : nat) (s : string) : string :=
  match n, s with
  | S n', String _ s' => dropN n' s'
  | _, _ => s
  end.

End Js.

(** ** Regular expressions, matched by derivatives *)

Module Re.

Inductive regexp : Type :=
  | Void
  | Eps
  | Class (p : ascii -> bool)
  | Seq (r1 r2 : regexp)
  | Alt (r1 r2 : regexp)
  | Star (r : regexp).

Fixpoint nullable (r : regexp) : bool :=
  match r with
  | Void => false
  | Eps => true
  | Class _ => false
  | Seq r1 r2 => nullable r1 && nullable r2
  | Alt r1 r2 => nullable r1 || nullable r2
  | Star _ => true
  end.

Fixpoint deriv (c : ascii) (r : regexp) : regexp :=
  match r with
  | Void => Void
  | Eps => Void
  | Class p => if p c then Eps else Void
  | Seq r1 r2 =>
      if nullable r1 then Alt (Seq (deriv c r1) r2) (deriv c r2)
      else Seq (deriv c r1) r2
  | Alt r1 r2 => Alt (deriv c r1) (deriv c r2)
  | Star r1 => Seq (deriv c r1) (Star r1)
  end.

(** The whole string is in the language of [r]. *)
Fixpoint matches (r : regexp) (s : string) : bool :=
  match s with
  | EmptyString => nullable r
  | String c s' => matches (deriv c r) s'
  end.

Definition chr (c : ascii) : regexp := Class (Ascii.eqb c).
Definition plus (r : regexp) : regexp := Seq r (Star r).
Definition opt (r : regexp) : regexp := Alt r Eps.
Definition cat (rs : list regexp) : regexp := fold_right Seq Eps rs.
Fixpoint lit (s : string) : regexp :=
  match s with
  | EmptyString => Eps
  | String c s' => Seq (chr c) (lit s')
  end.

(** Character classes of the source's expressions. *)
Definition lower : ascii -> bool := Js.in_range "a" "z".
Definition upper : ascii -> bool := Js.in_range "A" "Z".
Definition lower_us (c : ascii) : bool := lower c || Ascii.eqb c "_".
Definition letter (c : ascii) : bool := lower c || upper c.
Definition sigil (c : ascii) : bool := Ascii.eqb c "@" || Ascii.eqb c "$".
Definition blank (c : ascii) : bool := Ascii.eqb c " " || Ascii.eqb c (ascii_of_nat 9).
(** [.] excludes the line terminators. *)
Definition dot (c : ascii) : bool := negb (Ascii.eqb c Js.LF || Ascii.eqb c Js.CR).
Definition any (_ : ascii) : bool := true.

(** An expression that is surely empty: it has [Void] in head position. *)
Fixpoint void (r : regexp) : bool :=
  match r with
  | Void => true
  | Seq r1 _ => void r1
  | Alt r1 r2 => void r1 && void r2
  | _ => false
  end.

(** An expression without [$] matches a prefix; one without [^] a suffix. *)
Definition open_end (r : regexp) : regexp := Seq r (Star (Class any)).
Definition open_start (r : regexp) : regexp := Seq (Star (Class any)) r.

(** [s.replace(/r$/, empty)]: the leftmost position from which the rest of
    the string is in the language of [r] is where the string is cut. *)
Fixpoint cut_suffix (r : regexp) (s : string) : string :=
  if matches r s then EmptyString
  else match s with
       | EmptyString => EmptyString
       | String c s' => String c (cut_suffix r s')
       end.

End Re.

(** ** Data model ([types.d.ts] and [ResolverContext]) *)

(** [VariableRef | VariableConst] *)
Inductive Descriptor : Type :=
  | VariableConst (constant : string)           (* type: "const" *)
  | VariableRef (fieldKey : string) (service : string).   (* type: "ref" *)

Record Dependency : Type := mkDependency {
  dep_key : string;
  dep_name : string;
  variableName : string;
}.

Record Service : Type := mkService {
  key : string;
  name : string;                  (* the provider name *)
  dependencies : list Dependency;
}.

Record ResolverContext : Type := mkContext {
  variables : ordmap Descriptor;
  services : ordmap Service;
}.

Definition isRef (v : option Descriptor) : bool :=
  match v with
  | Some (VariableRef _ _) => true
  | _ => false
  end.

Module Context.

Definition empty : ResolverContext := mkContext [] [].

Definition registVariable (k : string) (v : Descriptor) (ctx : ResolverContext)
  : ResolverContext :=
  mkContext (ordmap_set k v (variables ctx)) (services ctx).

Definition registService (k providerName : string) (deps : list Dependency)
    (ctx : ResolverContext) : ResolverContext :=
  mkContext (variables ctx)
            (ordmap_set k (mkService k providerName deps) (services ctx)).

End Context.

(** ** The parser *)

Module Parser.
Import Re.

Definition TAG_DATA : string := "#data".
Definition TAG_VIEW : string := "#view".
Definition SERVICE_CHAR : string := "@".

Definition sp : regexp := chr " ".
Definition ws : regexp := Class Js.is_ws.
Definition ident : list regexp := [Class lower; Star (Class lower_us)].

(** [/^[ \t]*\/\//] *)
Definition REGEXP_LINE_COMMENT : regexp :=
  open_end (cat [Star (Class blank); chr "/"; chr "/"]).
(** [/^[ \t]*$/] *)
Definition REGEXP_LINE_EMPTY : regexp := Star (Class blank).
(** [/^'.*'$/] *)
Definition REGEXP_STRING_LITERAL : regexp :=
  cat [chr "'"; Star (Class dot); chr "'"].
(** [/\\\s*$/], from the backslash on *)
Definition LINE_CARRY : regexp := cat [chr "\"; Star ws].
Definition REGEXP_LINE_CARRY : regexp := open_start LINE_CARRY.
(** [/^#data\s*$/] *)
Definition REGEXP_HEAD_DATA : regexp := cat [lit "#data"; Star ws].
(** [/^#view\(([a-z][a-z_]+)\)(\[([a-z][a-z_]+)\])?\s*$/] *)
Definition REGEXP_HEAD_VIEW : regexp :=
  cat [lit "#view("; Class lower; plus (Class lower_us); chr ")";
       opt (cat [chr "["; Class lower; plus (Class lower_us); chr "]"]);
       Star ws].
(** [/^[@$][a-z][a-z_]*$/] *)
Definition REGEXP_IDENTIFIER : regexp := cat (Class sigil :: ident).
(** [/^[@$]internal_/] *)
Definition REGEXP_INTERNAL_IDENTIFIER : regexp :=
  open_end (cat [Class sigil; lit "internal_"]).
(** [/^(ID) *<- *(@ID)*$/], where ID abbreviates [[a-z][a-z_]*] *)
Definition REGEXP_VARIABLE : regexp :=
  cat [cat ident; Star sp; lit "<-"; Star sp; Star (cat (chr "@" :: ident))].
(** [/^([A-Z][a-zA-Z]+) *({ *(ENTRY)+ *})?$/], where ENTRY abbreviates
    [ID *= *\$ID; *] *)
Definition REGEXP_SERVICE : regexp :=
  cat [cat [Class upper; plus (Class letter)]; Star sp;
       opt (cat [chr "{"; Star sp;
                 plus (cat [cat ident; Star sp; chr "="; Star sp;
                            chr "$"; cat ident; chr ";"; Star sp]);
                 Star sp; chr "}"])].

Definition test (r : regexp) (s : string) : bool := matches r s.

Definition is_space (c : ascii) : bool := Ascii.eqb c " ".

(** [REGEXP_SERVICE.exec(line)]: the groups 1 (provider name) and 2 (the
    braces with their content, [None] when the group takes no part). *)
Definition exec_SERVICE (line : string) : option (string * option string) :=
  if test REGEXP_SERVICE line then
    let rest := Js.dropWhile is_space (Js.dropWhile letter line) in
    Some (Js.takeWhile letter line,
          match rest with EmptyString => None | _ => Some rest end)
  else None.

(** [REGEXP_VARIABLE.exec(line)]: the groups 1 (field key) and 2 (the last
    repetition of [@name], [None] when there is none). *)
Definition exec_VARIABLE (line : string) : option (string * option string) :=
  if test REGEXP_VARIABLE line then
    let rest :=
      Js.dropWhile is_space
        (Js.dropN 2 (Js.dropWhile is_space (Js.dropWhile lower_us line))) in
    Some (Js.takeWhile lower_us line,
          match rest with
          | EmptyString => None
          | _ => Some ("@" +:+ List.last (Js.split "@" rest) EmptyString)
          end)
  else None.

(** [REGEXP_HEAD_VIEW.exec(head)]: the groups 1 (view name) and 3 (render
    mode). *)
Definition exec_HEAD_VIEW (head : string) : option (string * option string) :=
  if test REGEXP_HEAD_VIEW head then
    let body := Js.dropN 6 head in
    let after := Js.slice1 (Js.dropWhile lower_us body) in
    Some (Js.takeWhile lower_us body,
          if Js.startsWith after "[" then
            Some (Js.takeWhile lower_us (Js.slice1 after))
          else None)
  else None.

Record View : Type := mkView {
  view_name : string;
  render : string;
  text : string;
}.

(** [findIndexTag]: [None] stands for -1. *)
Fixpoint findIndexTag (lines : list string) (tag : string) (fromIndex : nat)
  : option nat :=
  match lines with
  | [] => None
  | line :: rest =>
      match fromIndex with
      | 0 => if Js.startsWith line tag then Some 0
             else S <$> findIndexTag rest tag 0
      | S n => S <$> findIndexTag rest tag n
      end
  end.

Definition findIndexDataTag (lines : list string) : result nat :=
  match findIndexTag lines TAG_DATA 0 with
  | None => Throw TemplaterError
  | Some regionDataIndex =>
      match findIndexTag lines TAG_DATA (regionDataIndex + 1) with
      | Some _ => Throw TemplaterError
      | None => Ok regionDataIndex
      end
  end.

(** The [while (true)] loop of [findIndexesViewTag] collects, in
    increasing order, every index whose line starts with the tag; [i] is
    the index of the head of [lines]. *)
Fixpoint viewIndexesFrom (i : nat) (lines : list string) : list nat :=
  match lines with
  | [] => []
  | line :: rest =>
      if Js.startsWith line TAG_VIEW then i :: viewIndexesFrom (S i) rest
      else viewIndexesFrom (S i) rest
  end.

Definition findIndexesViewTag (lines : list string) : result (list nat) :=
  match viewIndexesFrom 0 lines with
  | [] => Throw TemplaterError
  | indexes => Ok indexes
  end.

(** [lines.slice(a, b)] *)
Definition slice {A : Type} (a b : nat) (l : list A) : list A :=
  firstn (b - a) (skipn a l).

Fixpoint splitesViewsRegions (lines : list string) (indexesWithEnd : list nat)
  : list (list string) :=
  match indexesWithEnd with
  | a :: ((b :: _) as rest) => slice a b lines :: splitesViewsRegions lines rest
  | _ => []
  end.

Definition splitRegions (text : string)
  : result (list string * list (list string)) :=
  let lines := Js.splitLines text in
  regionDataIndex ← findIndexDataTag lines;
  regionViewIndexes ← findIndexesViewTag lines;
  let first := List.hd 0 regionViewIndexes in
  if Nat.ltb first regionDataIndex then Throw TemplaterError
  else Ok (slice regionDataIndex first lines,
           splitesViewsRegions lines (regionViewIndexes ++ [length lines])).

Definition parseViewRegion (texts : list string) : result View :=
  match texts with
  | [] => Throw TemplaterError       (* the head is undefined: no match *)
  | head :: lines =>
      match exec_HEAD_VIEW head with
      | None => Throw TemplaterError
      | Some (nm, mode) =>
          Ok (mkView nm (default "default" mode)
                     (Js.join (String Js.LF EmptyString) lines))
      end
  end.

Fixpoint parseViewRegions_map (regions : list (list string)) : result (list View) :=
  match regions with
  | [] => Ok []
  | r :: rs =>
      v ← parseViewRegion r;
      vs ← parseViewRegions_map rs;
      Ok (v :: vs)
  end.

Definition parseViewRegions (regions : list (list string)) : result (ordmap View) :=
  parsed ← parseViewRegions_map regions;
  Ok (fold_left (fun records v => ordmap_set (view_name v) v records) parsed []).

Definition validateDataHead (head : string) : result unit :=
  if test REGEXP_HEAD_DATA head then Ok tt else Throw TemplaterError.

(** [parseDataServiceDependencies] *)
Definition parseDependency (assign : string) : result Dependency :=
  match map Js.trim (Js.split "=" assign) with
  | k :: value :: _ => Ok (mkDependency k k (Js.slice1 value))
  | _ => Throw TypeError
  end.

Fixpoint parseDependencies (assigns : list string) : result (list Dependency) :=
  match assigns with
  | [] => Ok []
  | a :: rest =>
      d ← parseDependency a;
      ds ← parseDependencies rest;
      Ok (d :: ds)
  end.

Definition parseDataServiceDependencies (txt : string) : result (list Dependency) :=
  parseDependencies (removelast (Js.split ";" (Js.slice1m1 txt))).

(** [parseDataSeviceLine]: when the expression does not match, the
    function falls off its end and the context is left as it was. *)
Definition parseDataSeviceLine (nm line : string) (ctx : ResolverContext)
  : result ResolverContext :=
  match exec_SERVICE line with
  | Some (providerName, args) =>
      deps ← match args with
             | Some a => parseDataServiceDependencies a
             | None => Ok []
             end;
      Ok (Context.registService nm providerName deps ctx)
  | None => Ok ctx
  end.

Definition parseDataVariableLine (nm line : string) (ctx : ResolverContext)
  : result ResolverContext :=
  if test REGEXP_STRING_LITERAL line then
    Ok (Context.registVariable nm (VariableConst (Js.slice1m1 line)) ctx)
  else
    match exec_VARIABLE line with
    | Some (fk, Some svc) =>
        Ok (Context.registVariable nm (VariableRef fk (Js.slice1 svc)) ctx)
    | Some (fk, None) => Throw TypeError       (* [service.slice] of undefined *)
    | None =>
        match ordmap_get (Js.slice1 (Js.trim line)) (variables ctx) with
        | Some aliasVariable => Ok (Context.registVariable nm aliasVariable ctx)
        | None => Throw TemplaterError
        end
    end.

Definition parseDataLine (line : string) (ctx : ResolverContext)
  : result ResolverContext :=
  match Js.split "=" line with
  | [] => Throw TypeError
  | k :: assigns =>
      let id := Js.trim k in
      let assign := Js.trim (Js.join "=" assigns) in
      if negb (test REGEXP_IDENTIFIER id) then Throw TemplaterError
      else if test REGEXP_INTERNAL_IDENTIFIER id then Throw TemplaterError
      else
        let nm := Js.slice1 id in
        if Js.startsWith id SERVICE_CHAR then parseDataSeviceLine nm assign ctx
        else parseDataVariableLine nm assign ctx
  end.

(** The first loop of [parseDataRegion]: comment and blank lines are
    dropped and continued lines are joined. *)
Fixpoint prepareLines (lines : list string) (lineBuild : string) : list string :=
  match lines with
  | [] => match lineBuild with EmptyString => [] | _ => [lineBuild] end
  | line :: rest =>
      if test REGEXP_LINE_COMMENT line || test REGEXP_LINE_EMPTY line
      then prepareLines rest lineBuild
      else
        let lineBuild := lineBuild +:+ Js.trim line in
        if negb (test REGEXP_LINE_CARRY line)
        then lineBuild :: prepareLines rest EmptyString
        else prepareLines rest (cut_suffix LINE_CARRY lineBuild)
  end.

Fixpoint parseDataLines (prepared : list string) (ctx : ResolverContext)
  : result ResolverContext :=
  match prepared with
  | [] => Ok ctx
  | line :: rest =>
      ctx' ← parseDataLine (Js.trim line) ctx;
      parseDataLines rest ctx'
  end.

Definition parseDataRegion (texts : list string) (ctx : ResolverContext)
  : result ResolverContext :=
  match texts with
  | [] => Throw TemplaterError
  | head :: lines =>
      _ ← validateDataHead head;
      parseDataLines (prepareLines lines EmptyString) ctx
  end.

Record Parsed : Type := mkParsed {
  regions : ordmap View;
  resolverContext : ResolverContext;
}.

Definition parse (txt : string) : result Parsed :=
  '(data, views) ← splitRegions txt;
  regions ← parseViewRegions views;
  ctx ← parseDataRegion data Context.empty;
  Ok (mkParsed regions ctx).

End Parser.

(** ** Plain objects and [Object.prototype] *)

(** The records of the executor and the tables of the renderer are plain
    objects: a key that the object does not hold is still found when it is
    the name of a member of [Object.prototype]. *)
Module Proto.

Definition names : list string :=
  ["constructor"; "__defineGetter__"; "__defineSetter__"; "hasOwnProperty";
   "__lookupGetter__"; "__lookupSetter__"; "isPrototypeOf";
   "propertyIsEnumerable"; "toString"; "valueOf"; "__proto__"; "toLocaleString"].

Definition inherited (k : string) : bool := existsb (String.eqb k) names.

End Proto.

(** ** Runtime values and records *)

(** [ResolverAvailableTypes] is [string | string[] | undefined]; a caller
    may still pass any other value as an override. *)
Inductive Item : Type :=
  | IString (s : string)
  | INotString.

Inductive Value : Type :=
  | VUndefined
  | VString (s : string)
  | VArray (items : list Item)
  | VOther.

(** A plain object used as a record is a [gmap string Value] of its own
    properties.  A property that the object does not hold reads as
    [undefined], unless its name is that of a member of [Object.prototype]:
    then the read yields that member, a function or an object. *)

Definition read (record : gmap string Value) (k : string) : Value :=
  match record !! k with
  | Some value => value
  | None => if Proto.inherited k then VOther else VUndefined
  end.

(** [Object.assign(target, source)] *)
Definition assign (target source : gmap string Value) : gmap string Value :=
  source ∪ target.

Inductive Kind : Type :=
  | KString           (* 'string' *)
  | KStringArray.     (* 'string[]' *)

Definition Kind_eqb (a b : Kind) : bool :=
  match a, b with
  | KString, KString | KStringArray, KStringArray => true
  | _, _ => false
  end.

Record ResolverValue : Type := mkResolverValue {
  argsModel : ordmap (list Kind);
  callback : list (gmap string Value) -> result (list (gmap string Value));
}.

Record QueueResolving : Type := mkQueueResolving {
  queue : list Service;
  queueGrouped : ordmap (list Service);
}.

(** ** The executor *)

Record ResolverExecutor : Type := mkExecutor {
  _resolvers : ordmap ResolverValue;
  _context : ResolverContext;
  _variableBase : gmap string Value;
  _serviceModels : gmap string (ordmap (list string));
  _queueResolving : list QueueResolving;
  _childrenServices : gmap string (ordmap Service);
}.

Module Executor.

Definition isString (value : Value) : bool :=
  match value with VString _ => true | _ => false end.

Definition isStringItem (item : Item) : bool :=
  match item with IString _ => true | INotString => false end.

(** [Array.isArray(value) && value.every(isString)] *)
Definition isArrayStrings (value : Value) : bool :=
  match value with VArray items => forallb isStringItem items | _ => false end.

Definition has (k : Kind) (types : list Kind) : bool := existsb (Kind_eqb k) types.

(** The body of the validator's loop for one key of the model: [result]
    starts as [false] and is updated in one branch of an
    [if ... else if ...]. *)
Definition check (types : list Kind) (value : Value) : bool :=
  let result := false in
  if has KString types then result || isString value
  else if has KStringArray types then result || isArrayStrings value
  else result.

Fixpoint validator (model : ordmap (list Kind)) (record : gmap string Value)
  : result unit :=
  match model with
  | [] => Ok tt
  | (k, types) :: rest =>
      if check types (read record k) then validator rest record
      else Throw TypingError
  end.

(** The argument record of one service instance. *)
Definition buildArgs (variable : gmap string Value) (context : Service)
  : gmap string Value :=
  fold_left
    (fun args dependency =>
       <[dep_name dependency := read variable (variableName dependency)]> args)
    (dependencies context) ∅.

(** [services.map(...)]: the records are built and validated in order. *)
Fixpoint buildBatch (model : ordmap (list Kind)) (variable : gmap string Value)
    (services : list Service) : result (list (gmap string Value)) :=
  match services with
  | [] => Ok []
  | context :: rest =>
      let args := buildArgs variable context in
      _ ← validator model args;
      batch ← buildBatch model variable rest;
      Ok (args :: batch)
  end.

(** The inner loops over one service's model: every variable listed under
    a field receives that field of the output record. *)
Definition copyFields (model : ordmap (list string)) (record : gmap string Value)
    (updateVarialbes : gmap string Value) : gmap string Value :=
  fold_left
    (fun upd '(from, tos) =>
       fold_left (fun upd to => <[to := read record from]> upd) tos upd)
    model updateVarialbes.

(** Whether the loops read a property of the output record at all. *)
Definition readsRecord (model : ordmap (list string)) : bool :=
  existsb (fun '(_, tos) => negb (Nat.eqb (length tos) 0)) model.

Fixpoint collect (models : gmap string (ordmap (list string)))
    (services : list Service) (i : nat) (res : list (gmap string Value))
    (updateVarialbes : gmap string Value) : result (gmap string Value) :=
  match services with
  | [] => Ok updateVarialbes
  | service :: rest =>
      match models !! key service with
      | None => Throw TypeError                 (* [Object.keys(undefined)] *)
      | Some model =>
          match res !! i with
          | Some record =>
              collect models rest (S i) res (copyFields model record updateVarialbes)
          | None =>
              if readsRecord model then Throw TypeError   (* [undefined[from]] *)
              else collect models rest (S i) res updateVarialbes
          end
      end
  end.

(** What one call of [_resolve] does: the batch handed to the callback
    ([None] when the callback is not reached) and what the promise
    settles to. *)
Record Resolution : Type := mkResolution {
  invoked : option (list (gmap string Value));
  outcome : result (gmap string Value);
}.

Definition _resolve (ex : ResolverExecutor) (resolver : option ResolverValue)
    (services : list Service) (variable : gmap string Value) : Resolution :=
  match resolver with
  | None => mkResolution None (Throw TypeError)
  | Some rv =>
      match buildBatch (argsModel rv) variable services with
      | Throw e => mkResolution None (Throw e)
      | Ok batch =>
          mkResolution (Some batch)
            (res ← callback rv batch;
             collect (_serviceModels ex) services 0 res ∅)
      end
  end.

(** One provider group of a level. *)
Record GroupRun : Type := mkGroupRun {
  serviceName : string;
  group_services : list Service;      (* the group after the filter *)
  resolution : Resolution;
}.

(** The [for] loop over [Object.keys(queueGrouped)]: every call of
    [_resolve] runs up to its [await] before any handler does, so all the
    groups of a level read the record as it is when the level starts. *)
Definition runLevel (ex : ResolverExecutor) (lvl : QueueResolving)
    (currentQueue : gset string) (variable : gmap string Value)
  : list GroupRun :=
  map (fun '(nm, grp) =>
         let services := filter (fun s => key s ∈ currentQueue) grp in
         mkGroupRun nm services
           (_resolve ex (ordmap_get nm (_resolvers ex)) services variable))
      (queueGrouped lvl).

(** The body of the [catch] handler for an error that is neither a
    [TypingError] nor a [SystemError]. *)
Definition prune (ex : ResolverExecutor) (services : list Service)
    (nextQueue : gset string) : gset string :=
  fold_left
    (fun nq service =>
       match _childrenServices ex !! key service with
       | Some childServices =>
           fold_left (fun nq child => nq ∖ {[key child]})
                     (ordmap_values childServices) nq
       | None => nq
       end)
    services nextQueue.

(** The [then] and [catch] handlers of the groups of one level, and
    [Promise.all]: a [TypingError] rejects the level.  The handlers are
    taken in the order of the groups; [built_settle_order] below shows that
    in the plan of a parsed template another order of settlement gives the
    same result, because the groups write different variables. *)
Fixpoint settle (ex : ResolverExecutor) (runs : list GroupRun)
    (variable : gmap string Value) (nextQueue : gset string)
  : result (gmap string Value * gset string) :=
  match runs with
  | [] => Ok (variable, nextQueue)
  | r :: rest =>
      match outcome (resolution r) with
      | Ok updates => settle ex rest (assign variable updates) nextQueue
      | Throw TypingError => Throw TypingError
      | Throw SystemError => settle ex rest variable nextQueue
      | Throw _ => settle ex rest variable (prune ex (group_services r) nextQueue)
      end
  end.

Definition toSet (q : list Service) : gset string := list_to_set (map key q).

(** The loop of [execute] from iteration [i] on, where [levels] is
    [_queueResolving] from index [i - 1]. It returns the groups run at
    each level it went through, and what [execute] settles to. *)
Fixpoint loop (ex : ResolverExecutor) (levels : list QueueResolving)
    (currentQueue : gset string) (variable : gmap string Value)
  : list (list GroupRun) * result (gmap string Value) :=
  match levels with
  | [] => ([], Ok variable)
  | lvl :: rest =>
      let nextQueue := toSet (match rest with [] => [] | nxt :: _ => queue nxt end) in
      let runs := runLevel ex lvl currentQueue variable in
      match settle ex runs variable nextQueue with
      | Throw e => ([runs], Throw e)
      | Ok (variable', nextQueue') =>
          if bool_decide (size nextQueue' = 0) then ([runs], Ok variable')
          else
            let '(later, res) := loop ex rest nextQueue' variable' in
            (runs :: later, res)
      end
  end.

Definition initial (ex : ResolverExecutor) (args : gmap string Value)
  : gmap string Value :=
  assign (_variableBase ex) args.

Definition run (ex : ResolverExecutor) (args : gmap string Value)
  : list (list GroupRun) * result (gmap string Value) :=
  match _queueResolving ex with
  | [] => ([], Ok (initial ex args))
  | first :: _ =>
      loop ex (_queueResolving ex) (toSet (queue first)) (initial ex args)
  end.

Definition execute (ex : ResolverExecutor) (args : gmap string Value)
  : result (gmap string Value) :=
  snd (run ex args).

(** The groups run by [execute], level by level. *)
Definition trace (ex : ResolverExecutor) (args : gmap string Value)
  : list (list GroupRun) :=
  fst (run ex args).

End Executor.

(** ** The registry of providers and the graph builder *)

Module Resolver.

Definition SYSTEM_SERVICE : list string := ["Arguments"].

(** The callback of a system provider: [() => { throw new SystemError() }] *)
Definition systemCallback (_ : list (gmap string Value))
  : result (list (gmap string Value)) :=
  Throw SystemError.

(** [Resolver.create()]: the registry holds the system providers. *)
Definition create : ordmap ResolverValue :=
  fold_left (fun m nm => ordmap_set nm (mkResolverValue [] systemCallback) m)
            SYSTEM_SERVICE [].

Definition _isSystemResolverName (nm : string) : bool :=
  existsb (fun sys => String.eqb sys nm) SYSTEM_SERVICE.

Definition _validateSystemResolver (nm : string) : result unit :=
  if _isSystemResolverName nm then Throw TemplaterError else Ok tt.

Definition registService (nm : string)
    (resolver : list (gmap string Value) -> result (list (gmap string Value)))
    (model : ordmap (list Kind)) (resolvers : ordmap ResolverValue)
  : result (ordmap ResolverValue) :=
  _ ← _validateSystemResolver nm;
  Ok (ordmap_set nm (mkResolverValue model resolver) resolvers).

Fixpoint _validateAvailabilityServices (resolvers : ordmap ResolverValue)
    (services : list Service) : result unit :=
  match services with
  | [] => Ok tt
  | s :: rest =>
      if negb (ordmap_has (name s) resolvers) && negb (_isSystemResolverName (name s))
      then Throw TemplaterError
      else _validateAvailabilityServices resolvers rest
  end.

Definition uuid (k arg : string) : string := k +:+ "." +:+ arg.

(** The set of [provider.argument] pairs that some service supplies. *)
Definition suppliedNames (services : list Service) : gset string :=
  fold_left
    (fun set s =>
       fold_left (fun set d => set ∪ {[uuid (name s) (dep_name d)]})
                 (dependencies s) set)
    services ∅.

Fixpoint checkModel (set : gset string) (k : string) (args : list string)
  : result unit :=
  match args with
  | [] => Ok tt
  | arg :: rest =>
      if bool_decide (uuid k arg ∈ set) then checkModel set k rest
      else Throw TemplaterError
  end.

Fixpoint checkResolvers (set : gset string) (resolvers : ordmap ResolverValue)
  : result unit :=
  match resolvers with
  | [] => Ok tt
  | (k, rv) :: rest =>
      _ ← checkModel set k (ordmap_keys (argsModel rv));
      checkResolvers set rest
  end.

Definition _validateServiceProvideNames (resolvers : ordmap ResolverValue)
    (services : list Service) : result unit :=
  checkResolvers (suppliedNames services) resolvers.

(** The number of dependencies of a service whose variable is a
    reference. *)
Definition dependenciesCount (vars : ordmap Descriptor) (s : Service) : nat :=
  length (filter (fun d => isRef (ordmap_get (variableName d) vars) = true)
                 (dependencies s)).

Definition _calculateRootServices (ctx : ResolverContext) : ordmap Service :=
  filter (fun kv => dependenciesCount (variables ctx) (snd kv) = 0) (services ctx).

(** One pass of the inner loop of [_calculateChildrenServices].  The
    maps are objects: when the map found under the child is the one found
    under the parent, the edge added to the latter shows in the former;
    when none is found under the child a new, empty map is stored. *)
Definition addEdge (parentServiceName childServiceName : string)
    (childService : Service) (childrenServices : gmap string (ordmap Service))
  : gmap string (ordmap Service) :=
  let parentMap := default [] (childrenServices !! parentServiceName) in
  let withParent :=
    <[parentServiceName := ordmap_set childServiceName childService parentMap]>
      childrenServices in
  let childMap :=
    match childrenServices !! childServiceName with
    | Some _ => default [] (withParent !! childServiceName)
    | None => []
    end in
  <[childServiceName := childMap]> withParent.

Definition addChild (vars : ordmap Descriptor) (childServiceName : string)
    (childService : Service) (childrenServices : gmap string (ordmap Service))
  : gmap string (ordmap Service) :=
  fold_left
    (fun ch d =>
       match ordmap_get (variableName d) vars with
       | Some (VariableRef _ parentServiceName) =>
           addEdge parentServiceName childServiceName childService ch
       | _ => ch
       end)
    (dependencies childService) childrenServices.

Fixpoint childrenFrom (ctx : ResolverContext) (vars : ordmap Descriptor)
    (childrenServices : gmap string (ordmap Service))
  : result (gmap string (ordmap Service)) :=
  match vars with
  | [] => Ok childrenServices
  | (_, VariableConst _) :: rest => childrenFrom ctx rest childrenServices
  | (_, VariableRef _ childServiceName) :: rest =>
      match ordmap_get childServiceName (services ctx) with
      | None => Throw TypeError        (* [childService.dependencies] of undefined *)
      | Some childService =>
          childrenFrom ctx rest
            (addChild (variables ctx) childServiceName childService childrenServices)
      end
  end.

Definition _calculateChildrenServices (ctx : ResolverContext)
  : result (gmap string (ordmap Service)) :=
  childrenFrom ctx (variables ctx) ∅.

Definition nextServices (childrenServices : gmap string (ordmap Service))
    (services : ordmap Service) : ordmap Service :=
  fold_left
    (fun next serviceName =>
       match childrenServices !! serviceName with
       | None => next
       | Some childs => fold_left (fun next '(k, s) => ordmap_set k s next) childs next
       end)
    (ordmap_keys services) [].

(** The loop of [_calculateQueueResolving] runs while the frontier is not
    empty; it need not end on a cyclic graph, so the model counts its
    iterations down from [fuel] and yields [None] when they run out. *)
Fixpoint _calculateQueueResolving (fuel : nat)
    (childrenServices : gmap string (ordmap Service)) (services : ordmap Service)
  : option (list (list Service)) :=
  match services with
  | [] => Some []
  | _ =>
      match fuel with
      | 0 => None
      | S fuel' =>
          cons (ordmap_values services) <$>
            _calculateQueueResolving fuel' childrenServices
              (nextServices childrenServices services)
      end
  end.

(** [groupByField(arr, "name")] *)
Definition groupByField (arr : list Service) : ordmap (list Service) :=
  fold_left
    (fun res item =>
       match ordmap_get (name item) res with
       | Some grp => ordmap_set (name item) (grp ++ [item]) res
       | None => ordmap_set (name item) [item] res
       end)
    arr [].

(** The body of the loop of [buildResolver] over the variables: a constant
    goes to [variableBase]; a reference is listed under its field in the
    model of its service.  The model is a plain object: under a field key
    that it does not hold yet and that names a member of [Object.prototype],
    [model[fieldKey] ??= []] finds that member and assigns nothing, and the
    call of [push] on it throws a [TypeError]. *)
Definition scanVariable
    (acc : gmap string Value * gmap string (ordmap (list string)))
    (kv : string * Descriptor)
  : result (gmap string Value * gmap string (ordmap (list string))) :=
  let '(variableBase, serviceModels) := acc in
  match snd kv with
  | VariableRef fieldKey service =>
      let model := default [] (serviceModels !! service) in
      match ordmap_get fieldKey model with
      | Some tos =>
          Ok (variableBase,
              <[service := ordmap_set fieldKey (tos ++ [fst kv]) model]> serviceModels)
      | None =>
          if Proto.inherited fieldKey then Throw TypeError
          else Ok (variableBase,
                   <[service := ordmap_set fieldKey [fst kv] model]> serviceModels)
      end
  | VariableConst constant =>
      Ok (<[fst kv := VString constant]> variableBase, serviceModels)
  end.

Fixpoint scanFrom (vars : ordmap Descriptor)
    (acc : gmap string Value * gmap string (ordmap (list string)))
  : result (gmap string Value * gmap string (ordmap (list string))) :=
  match vars with
  | [] => Ok acc
  | kv :: rest =>
      acc' ← scanVariable acc kv;
      scanFrom rest acc'
  end.

Definition scanVariables (vars : ordmap Descriptor)
  : result (gmap string Value * gmap string (ordmap (list string))) :=
  scanFrom vars (∅, ∅).

Definition group (q : list Service) : QueueResolving :=
  mkQueueResolving q (groupByField q).

(** [buildResolver(context)]: [None] when the level loop does not end
    within [fuel] iterations. *)
Definition buildResolver (fuel : nat) (resolvers : ordmap ResolverValue)
    (ctx : ResolverContext) : option (result ResolverExecutor) :=
  let checked :=
    _ ← _validateAvailabilityServices resolvers (ordmap_values (services ctx));
    _ ← _validateServiceProvideNames resolvers (ordmap_values (services ctx));
    _calculateChildrenServices ctx in
  match checked with
  | Throw e => Some (Throw e)
  | Ok childrenServices =>
      queueResolving ←
        _calculateQueueResolving fuel childrenServices (_calculateRootServices ctx);
      Some ('(variableBase, serviceModels) ← scanVariables (variables ctx);
            Ok (mkExecutor resolvers ctx variableBase serviceModels
                           (map group queueResolving) childrenServices))
  end.

End Resolver.

(** ** The loop of [findIndexesViewTag], as written *)

Module ViewTags.
Import Parser.

(** The [while (true)] loop: the next index is searched from the one after
    the last index found; [fuel] bounds the number of iterations. *)
Fixpoint loop (fuel : nat) (lines : list string) (last : nat) : option (list nat) :=
  match findIndexTag lines TAG_VIEW (last + 1) with
  | None => Some []
  | Some index =>
      match fuel with
      | 0 => None
      | S fuel' => cons index <$> loop fuel' lines index
      end
  end.

Definition findIndexesViewTag (fuel : nat) (lines : list string)
  : option (result (list nat)) :=
  match findIndexTag lines TAG_VIEW 0 with
  | None => Some (Throw TemplaterError)
  | Some regionViewIndex =>
      (fun rest => Ok (regionViewIndex :: rest)) <$> loop fuel lines regionViewIndex
  end.

End ViewTags.

(** ** The renderer ([buildRenderer]) *)

Module Renderer.

(** [String(value)], to which [replace] converts what its callback returns.
    The conversion of a value that is neither [undefined], a string nor an
    array of strings is left to [other]. *)
Definition itemString (item : Item) : string :=
  match item with IString s => s | INotString => EmptyString end.

Definition jsString (other : Value -> string) (value : Value) : string :=
  match value with
  | VUndefined => "undefined"
  | VString s => s
  | VArray items =>
      if forallb Executor.isStringItem items
      then Js.join "," (map itemString items)
      else other value
  | VOther => other value
  end.

(** [String(record[key])]: the text of a property found on
    [Object.prototype] is left to [proto]. *)
Definition replacement (other : Value -> string) (proto : string -> string)
    (record : gmap string Value) (k : string) : string :=
  match record !! k with
  | Some value => jsString other value
  | None => if Proto.inherited k then proto k else "undefined"
  end.

(** A match of the expression of a token, two opening braces, one or more
    of [a-z_] and two closing braces, at the start of the text: the key. *)
Definition tokenAt (txt : string) : option string :=
  if Js.startsWith txt "{{" then
    let k := Js.takeWhile Re.lower_us (Js.dropN 2 txt) in
    match k with
    | EmptyString => None
    | _ =>
        if Js.startsWith (Js.dropWhile Re.lower_us (Js.dropN 2 txt)) "}}"
        then Some k else None
    end
  else None.

(** [text.replace(TOKEN, (_, key) => record[key])] with the global flag: the
    text is scanned from the left; [skip] counts the characters of a token
    that are still to be passed over. *)
Fixpoint replaceTokens (other : Value -> string) (proto : string -> string)
    (record : gmap string Value) (skip : nat) (txt : string) : string :=
  match txt with
  | EmptyString => EmptyString
  | String c rest =>
      match skip with
      | S n => replaceTokens other proto record n rest
      | 0 =>
          match tokenAt txt with
          | Some k =>
              replacement other proto record k
                +:+ replaceTokens other proto record (String.length k + 3) rest
          | None => String c (replaceTokens other proto record 0 rest)
          end
      end
  end.

(** The render function: it is given the render mode and the text of the
    view, [None] when the property is [undefined], and the record. *)
Definition Render : Type :=
  option string -> option string -> gmap string Value -> result string.

Definition defaultRender (other : Value -> string) (proto : string -> string)
  : Render :=
  fun _ txt record =>
    match txt with
    | Some t => Ok (replaceTokens other proto record 0 t)
    | None => Throw TypeError                 (* [undefined.replace] *)
    end.

(** [rendered[view] = text]: an assignment of a string to [__proto__] does
    not make a property. *)
Definition store (view out : string) (rendered : ordmap string) : ordmap string :=
  if String.eqb view "__proto__" then rendered else ordmap_set view out rendered.

(** The loop over the requested views.  A name that is not a view of the
    template but a property of [Object.prototype] yields an object without
    a render mode and a text. *)
Fixpoint renderViews (render : Render) (regions : ordmap Parser.View)
    (record : gmap string Value) (views : list string) (rendered : ordmap string)
  : result (ordmap string) :=
  match views with
  | [] => Ok rendered
  | view :: rest =>
      match ordmap_get view regions with
      | Some template =>
          out ← render (Some (Parser.render template)) (Some (Parser.text template))
                       record;
          renderViews render regions record rest (store view out rendered)
      | None =>
          if Proto.inherited view then
            out ← render None None record;
            renderViews render regions record rest (store view out rendered)
          else Throw TemplaterError
      end
  end.

(** The function that [buildRenderer] returns, applied to a template, the
    names of the views and the [args] of the context that it hands on to
    [execute]; [None] when the level loop of [buildResolver] does not end
    within [fuel] iterations. *)
Definition renderer (fuel : nat) (resolvers : ordmap ResolverValue)
    (other : Value -> string) (proto : string -> string)
    (customRender : option Render)
    (template : string) (views : list string) (args : gmap string Value)
  : option (result (ordmap string)) :=
  let render := default (defaultRender other proto) customRender in
  match Parser.parse template with
  | Throw e => Some (Throw e)
  | Ok parsedData =>
      built ← Resolver.buildResolver fuel resolvers (Parser.resolverContext parsedData);
      Some (ex ← built;
            record ← Executor.execute ex args;
            renderViews render (Parser.regions parsedData) record views [])
  end.

End Renderer.

(** ** Vocabulary of the statements *)

Module Spec.
Import Executor.

(** The promise of the group rejects with a [TypingError], which the
    [catch] handler throws again. *)
Definition fatal (r : GroupRun) : bool :=
  match outcome (resolution r) with
  | Throw TypingError => true
  | _ => false
  end.

(** The group failed with an error that the [catch] handler isolates. *)
Definition isolated (r : GroupRun) : bool :=
  match outcome (resolution r) with
  | Ok _ | Throw TypingError | Throw SystemError => false
  | Throw _ => true
  end.

(** The keys of the direct children of the given services. *)
Definition directChildren (ex : ResolverExecutor) (services : list Service)
  : gset string :=
  list_to_set
    (services ≫= fun s =>
       match _childrenServices ex !! key s with
       | Some childServices => map key (ordmap_values childServices)
       | None => []
       end).

(** The direct children of the services of the isolated groups. *)
Definition pruned (ex : ResolverExecutor) (runs : list GroupRun) : gset string :=
  directChildren ex
    (filter (fun r => isolated r = true) runs ≫= group_services).

(** The updates of the groups that resolved, in the order of the groups. *)
Definition updates (runs : list GroupRun) : list (gmap string Value) :=
  omap (fun r => match outcome (resolution r) with
                 | Ok u => Some u
                 | Throw _ => None
                 end) runs.

(** The record after the given updates have been assigned in order. *)
Definition written (upds : list (gmap string Value)) (variable : gmap string Value)
  : gmap string Value :=
  fold_left assign upds variable.

(** No two of the updates write the same variable. *)
Fixpoint pairwiseDisjoint (upds : list (gmap string Value)) : Prop :=
  match upds with
  | [] => True
  | u :: rest => Forall (fun u' => u ##ₘ u') rest /\ pairwiseDisjoint rest
  end.

(** Every key is stored once, and every service under its own key. *)
Definition keyed (m : ordmap Service) : Prop :=
  NoDup (ordmap_keys m) /\ Forall (fun kv => key (snd kv) = fst kv) m.

(** What [registVariable] and [registService] maintain. *)
Definition wfContext (ctx : ResolverContext) : Prop :=
  NoDup (ordmap_keys (variables ctx)) /\ keyed (services ctx).

Definition childrenKeyed (ch : gmap string (ordmap Service)) : Prop :=
  forall p m, ch !! p = Some m -> keyed m.

(** The model of the service [k] lists the variable [v]. *)
Definition listed (models : gmap string (ordmap (list string))) (k v : string) : Prop :=
  exists f tos, (f, tos) ∈ default [] (models !! k) /\ v ∈ tos.

(** A level of the trace holds a group that rejected with a
    [TypingError]. *)
Definition fatalAt (tr : list (list GroupRun)) (k : nat) : bool :=
  match tr !! k with
  | Some runs => existsb fatal runs
  | None => false
  end.

(** The providers registered one after the other on a fresh registry. *)
Definition Registration : Type :=
  string * (list (gmap string Value) -> result (list (gmap string Value)))
  * ordmap (list Kind).

Fixpoint registerAll (regs : list Registration) (resolvers : ordmap ResolverValue)
  : result (ordmap ResolverValue) :=
  match regs with
  | [] => Ok resolvers
  | (nm, cb, model) :: rest =>
      resolvers' ← Resolver.registService nm cb model resolvers;
      registerAll rest resolvers'
  end.

(** Every service has a model, that is, some reference variable names it. *)
Definition modelled (models : gmap string (ordmap (list string)))
    (services : list Service) : bool :=
  forallb (fun s => match models !! key s with Some _ => true | None => false end)
          services.

(** The services of a provider in the order of their declarations. *)
Definition declarationOrder (ctx : ResolverContext) (nm : string) : list Service :=
  filter (fun s => name s = nm) (ordmap_values (services ctx)).

(** A context without reference variables. *)
Definition noReferences (ctx : ResolverContext) : bool :=
  forallb (fun kv => negb (isRef (Some (snd kv)))) (variables ctx).

(** The provider of the group was called and returned its list of records,
    with [record] at the position [i] of the batch. *)
Definition answered (ex : ResolverExecutor) (r : GroupRun) (i : nat)
    (record : gmap string Value) : Prop :=
  exists rv batch res,
    ordmap_get (serviceName r) (_resolvers ex) = Some rv /\
    invoked (resolution r) = Some batch /\
    length batch = length (group_services r) /\
    callback rv batch = Ok res /\
    res !! i = Some record.

(** At the level [k] of the trace the service [svc] was in a group that
    resolved. *)
Definition resolvedAt (tr : list (list GroupRun)) (svc : string) (k : nat) : Prop :=
  exists runs r s u,
    tr !! k = Some runs /\ r ∈ runs /\ s ∈ group_services r /\ key s = svc /\
    outcome (resolution r) = Ok u.

(** The keys that a [Map] holds after they were set in the given order:
    every key once, at the place of its first occurrence. *)
Definition firstOccurrences (keys : list string) : list string :=
  fold_left (fun acc k => if bool_decide (k ∈ acc) then acc else acc ++ [k]) keys [].

(** The keys of the child map of a service, in the order of the map. *)
Definition childKeys (ex : ResolverExecutor) (parent : string) : list string :=
  ordmap_keys (default [] (_childrenServices ex !! parent)).

End Spec.

(** ** The text of well-formed declarations *)

Module Syntax.

(** A view name or a render mode: a lower-case letter followed by at least
    one lower-case letter or underscore. *)
Definition viewName (s : string) : bool :=
  match s with
  | String c (String c' rest) =>
      Re.lower c && Re.lower_us c' && Js.every Re.lower_us rest
  | _ => false
  end.

(** The head line of a view region. *)
Definition viewHead (nm : string) (mode : option string) (spaces : string) : string :=
  "#view(" +:+ nm +:+ ")" +:+
  match mode with
  | Some m => "[" +:+ m +:+ "]" +:+ spaces
  | None => spaces
  end.

(** An entry [key = $variable; ] of the dependencies of a service. *)
Definition entry (d : string * string) : string :=
  fst d +:+ " = $" +:+ snd d +:+ "; ".

Definition entries (ds : list (string * string)) : string :=
  fold_right (fun d s => entry d +:+ s) EmptyString ds.

(** The expression of a service: [Provider { key = $variable; ... }]. *)
Definition service (providerName : string) (ds : list (string * string)) : string :=
  providerName +:+ " { " +:+ entries ds +:+ "}".

Definition dependency (d : string * string) : Dependency :=
  mkDependency (fst d) (fst d) (snd d).

(** A line that the first loop of [parseDataRegion] passes over: blanks
    only, or blanks followed by two slashes. *)
Definition skipped (line : string) : bool :=
  Parser.test Parser.REGEXP_LINE_COMMENT line || Parser.test Parser.REGEXP_LINE_EMPTY line.

End Syntax.

(** ** Templates and providers used in the examples *)

Module Examples.

(** A provider that answers every argument record with the same record. *)
Definition constant (record : gmap string Value)
    (batch : list (gmap string Value)) : result (list (gmap string Value)) :=
  Ok (map (fun _ => record) batch).

(** A provider that returns its argument [a] in the field [o]. *)
Definition echo (batch : list (gmap string Value))
  : result (list (gmap string Value)) :=
  Ok (map (fun args => {[ "o" := read args "a" ]}) batch).

(** A provider whose call throws a plain [Error]. *)
Definition failing (_ : list (gmap string Value))
  : result (list (gmap string Value)) :=
  Throw OtherError.

Definition register (regs : list Spec.Registration) : ordmap ResolverValue :=
  match Spec.registerAll regs Resolver.create with
  | Ok resolvers => resolvers
  | Throw _ => []
  end.

Definition plain : list Spec.Registration :=
  [("Greeter", constant {[ "world" := VString "Al" ]}, []);
   ("Root", constant {[ "f" := VString "1"; "g" := VString "2" ]}, []);
   ("Good", constant {[ "f" := VString "ok" ]}, []);
   ("Echo", echo, []);
   ("Fail", failing, [])].

(** The registry of providers without an argument model. *)
Definition registry : ordmap ResolverValue := register plain.

(** The same with a provider that asks for an array of strings. *)
Definition registryStrict : ordmap ResolverValue :=
  register (plain ++ [("Strict", constant {[ "f" := VString "ok" ]},
                       [("x", [KStringArray])])]).

(** The same with a provider that admits both kinds. *)
Definition registryMulti : ordmap ResolverValue :=
  register (plain ++ [("Multi", constant {[ "f" := VString "ok" ]},
                       [("a", [KString; KStringArray])])]).

(** [Parser.parse] followed by [buildResolver]. *)
Definition build (fuel : nat) (resolvers : ordmap ResolverValue) (txt : string)
  : option ResolverExecutor :=
  match Parser.parse txt with
  | Ok p =>
      match Resolver.buildResolver fuel resolvers (Parser.resolverContext p) with
      | Some (Ok ex) => Some ex
      | _ => None
      end
  | Throw _ => None
  end.

(** The executor of a template, or an empty one when the build fails. *)
Definition executor (fuel : nat) (resolvers : ordmap ResolverValue) (txt : string)
  : ResolverExecutor :=
  default (mkExecutor [] Context.empty ∅ ∅ [] ∅) (build fuel resolvers txt).

(** A provider and a system provider, each with a dependent. *)
Definition greeter : string := "#data
$hello = 'hi'
@g = Greeter { d = $hello; }
$s = world <- @g
@args = Arguments { d = $hello; }
$u = value <- @args
@h = Echo { a = $u; }
$z = o <- @h
#view(ab)".

(** Constants only. *)
Definition constants : string := "#data
$a = 'x'
$b = $a
#view(ab)".

(** Services and constants, but no reference. *)
Definition unread : string := "#data
$v = 'one'
@x = Echo { a = $v; }
@y = Good { x = $v; }
#view(ab)".

(** The context of a template, or the empty one when the parse fails. *)
Definition context (txt : string) : ResolverContext :=
  match Parser.parse txt with
  | Ok p => Parser.resolverContext p
  | Throw _ => Context.empty
  end.

(** Two root instances of one provider. *)
Definition twins : string := "#data
$v = 'one'
@x = Echo { a = $v; }
@y = Echo { a = $v; }
$px = o <- @x
$py = o <- @y
#view(ab)".

(** Two instances of one provider below a root. *)
Definition fanout : string := "#data
$k = 'k'
@r = Root { x = $k; }
$v = f <- @r
$w = g <- @r
@x = Echo { a = $v; }
@y = Echo { a = $w; }
$py = o <- @y
$px = o <- @x
#view(ab)".

(** A failing root with a child. *)
Definition chain : string := "#data
$k = 'k'
@a = Fail { x = $k; }
$va = f <- @a
@b = Good { x = $va; }
$vb = f <- @b
#view(ab)".

(** A failing root with a child and a grandchild, next to a branch that
    succeeds. *)
Definition branches : string := "#data
$k = 'k'
@a = Fail { x = $k; }
@c = Good { x = $k; }
$va = f <- @a
$vc = f <- @c
@b = Good { x = $va; }
@e = Good { x = $vc; }
$vb = f <- @b
$ve = f <- @e
@d = Good { x = $vb; }
$vd = f <- @d
#view(ab)".

(** A failing root whose only child is alone in its group, next to a branch
    that succeeds. *)
Definition orphan : string := "#data
$k = 'k'
@a = Fail { x = $k; }
@c = Good { x = $k; }
$va = f <- @a
$vc = f <- @c
@b = Echo { a = $va; }
@e = Good { x = $vc; }
$vb = o <- @b
$ve = f <- @e
#view(ab)".

(** A root whose argument model asks for an array, with a child. *)
Definition strict : string := "#data
$k = 'k'
@a = Strict { x = $k; }
$va = f <- @a
@b = Good { x = $va; }
$vb = f <- @b
#view(ab)".

(** A provider whose argument may be a string or an array of strings. *)
Definition multi : string := "#data
$v = 'c'
@m = Multi { a = $v; }
$out = f <- @m
#view(ab)".

(** The template [branches] with a grandchild whose provider has an
    argument model. *)
Definition hidden : string := "#data
$k = 'k'
@a = Fail { x = $k; }
@c = Good { x = $k; }
$va = f <- @a
$vc = f <- @c
@b = Good { x = $va; }
@e = Good { x = $vc; }
$vb = f <- @b
$ve = f <- @e
@d = Strict { x = $vb; }
$vd = f <- @d
#view(ab)".

(** A child [b] of the failing root [a] that is also a child of [e], one
    level further down. *)
Definition rejoined : string := "#data
$k = 'k'
@a = Fail { x = $k; }
@c = Good { x = $k; }
$va = f <- @a
$vc = f <- @c
@e = Good { x = $vc; }
$ve = f <- @e
@b = Echo { a = $ve; y = $va; }
$vb = o <- @b
#view(ab)".

(** Two parents whose edges are found in the order opposite to theirs. *)
Definition crossed : string := "#data
$k = 'k'
@p = Root { x = $k; }
@q = Root { x = $k; }
$vp = f <- @p
$vq = f <- @q
@cq = Echo { a = $vq; }
@cp = Echo { a = $vp; }
$oq = o <- @cq
$op = o <- @cp
#view(ab)".

End Examples.

(** * Properties *)

(** ** Strings *)

Section StringFacts.
Import Js.

Lemma append_cons (c : ascii) (s t : string) :
  String c s +:+ t = String c (s +:+ t).
Proof. reflexivity. Qed.

Lemma append_nil (t : string) : EmptyString +:+ t = t.
Proof. reflexivity. Qed.

Lemma append_empty_r (s : string) : s +:+ EmptyString = s.
Proof.
  induction s as [|c s IH]; [reflexivity |]. now rewrite append_cons, IH.
Qed.

Lemma append_assoc (s1 s2 s3 : string) : (s1 +:+ s2) +:+ s3 = s1 +:+ (s2 +:+ s3).
Proof.
  induction s1 as [|c s1 IH]; [reflexivity |]. now rewrite !append_cons, IH.
Qed.

Lemma every_app (p : ascii -> bool) (s1 s2 : string) :
  every p (s1 +:+ s2) = every p s1 && every p s2.
Proof.
  induction s1 as [|c s1 IH]; [reflexivity |].
  rewrite append_cons. simpl. now rewrite IH, andb_assoc.
Qed.

Lemma every_impl (p q : ascii -> bool) (s : string) :
  (forall c, p c = true -> q c = true) -> every p s = true -> every q s = true.
Proof.
  intros Hpq. induction s as [|c s IH]; simpl; [reflexivity |].
  intros [Hc Hs]%andb_true_iff. apply andb_true_iff. split; auto.
Qed.

Lemma trimStart_ws (sp s : string) :
  every is_ws sp = true -> trimStart (sp +:+ s) = trimStart s.
Proof.
  induction sp as [|c sp IH]; [reflexivity |].
  rewrite append_cons. simpl.
  intros [Hc Hsp]%andb_true_iff. rewrite Hc. auto.
Qed.

Lemma trimStart_head (c : ascii) (s : string) :
  is_ws c = false -> trimStart (String c s) = String c s.
Proof. intros H. simpl. now rewrite H. Qed.

Lemma trimEnd_ws (sp : string) : every is_ws sp = true -> trimEnd sp = EmptyString.
Proof.
  induction sp as [|c sp IH]; simpl; [reflexivity |].
  intros [Hc Hsp]%andb_true_iff. now rewrite (IH Hsp), Hc.
Qed.

Lemma trimEnd_id (s : string) :
  every (fun c => negb (is_ws c)) s = true -> trimEnd s = s.
Proof.
  induction s as [|c s IH]; simpl; [reflexivity |].
  intros [Hc Hs]%andb_true_iff. rewrite (IH Hs).
  apply negb_true_iff in Hc. rewrite Hc. now destruct s.
Qed.

Lemma trimEnd_app_ws (s sp : string) :
  every (fun c => negb (is_ws c)) s = true -> every is_ws sp = true ->
  trimEnd (s +:+ sp) = s.
Proof.
  intros Hs Hsp. induction s as [|c s IH].
  - now apply trimEnd_ws.
  - rewrite append_cons. simpl in *. apply andb_true_iff in Hs as [Hc Hs].
    rewrite (IH Hs). apply negb_true_iff in Hc. rewrite Hc. now destruct s.
Qed.

Lemma split_none (sep : ascii) (s : string) :
  every (fun c => negb (Ascii.eqb c sep)) s = true -> split sep s = [s].
Proof.
  induction s as [|c s IH]; simpl; [reflexivity |].
  intros [Hc Hs]%andb_true_iff. apply negb_true_iff in Hc.
  now rewrite Hc, (IH Hs).
Qed.

Lemma split_first (sep : ascii) (s1 s2 : string) :
  every (fun c => negb (Ascii.eqb c sep)) s1 = true ->
  split sep (s1 +:+ String sep s2) = s1 :: split sep s2.
Proof.
  induction s1 as [|c s1 IH].
  - intros _. rewrite append_nil. simpl. now rewrite Ascii.eqb_refl.
  - rewrite append_cons. simpl. intros [Hc Hs]%andb_true_iff.
    apply negb_true_iff in Hc. now rewrite Hc, (IH Hs).
Qed.

End StringFacts.

(** ** The derivative matcher *)

Section RegexpFacts.
Import Re.

Lemma void_not_nullable (r : regexp) : void r = true -> nullable r = false.
Proof.
  induction r; simpl; try discriminate; auto.
  - intros H. now rewrite (IHr1 H).
  - intros [H1 H2]%andb_true_iff. now rewrite (IHr1 H1), (IHr2 H2).
Qed.

Lemma void_deriv (c : ascii) (r : regexp) : void r = true -> void (deriv c r) = true.
Proof.
  induction r; simpl; try discriminate; auto.
  - intros H. rewrite (void_not_nullable _ H). simpl. auto.
  - intros [H1 H2]%andb_true_iff. now rewrite (IHr1 H1), (IHr2 H2).
Qed.

Lemma matches_void (r : regexp) (s : string) : void r = true -> matches r s = false.
Proof.
  revert r. induction s as [|c s IH]; intros r H; simpl.
  - now apply void_not_nullable.
  - apply IH. now apply void_deriv.
Qed.

Lemma matches_Alt (r1 r2 : regexp) (s : string) :
  matches (Alt r1 r2) s = matches r1 s || matches r2 s.
Proof.
  revert r1 r2. induction s as [|c s IH]; intros r1 r2; simpl; [reflexivity |].
  apply IH.
Qed.

Lemma matches_Seq (r1 r2 : regexp) (s : string) :
  matches (Seq r1 r2) s = true <->
  exists s1 s2, s = s1 +:+ s2 /\ matches r1 s1 = true /\ matches r2 s2 = true.
Proof.
  revert r1. induction s as [|c s IH]; intros r1.
  - simpl. rewrite andb_true_iff. split.
    + intros [H1 H2]. now exists EmptyString, EmptyString.
    + intros (s1 & s2 & Hs & H1 & H2).
      destruct s1; [| discriminate]. destruct s2; [| discriminate]. auto.
  - simpl. split.
    + intros H. destruct (nullable r1) eqn:Hn.
      * rewrite matches_Alt in H. apply orb_true_iff in H as [H | H].
        -- apply IH in H as (s1 & s2 & -> & H1 & H2).
           now exists (String c s1), s2.
        -- now exists EmptyString, (String c s).
      * apply IH in H as (s1 & s2 & -> & H1 & H2).
        now exists (String c s1), s2.
    + intros (s1 & s2 & Hs & H1 & H2). destruct s1 as [|c1 s1].
      * rewrite append_nil in Hs. simpl in H1. subst s2.
        rewrite H1, matches_Alt. apply orb_true_iff. now right.
      * rewrite append_cons in Hs. injection Hs as -> ->. simpl in H1.
        assert (matches (Seq (deriv c1 r1) r2) (s1 +:+ s2) = true) as H
          by (apply IH; now exists s1, s2).
        destruct (nullable r1); [| exact H].
        rewrite matches_Alt, H. reflexivity.
Qed.

Lemma matches_Eps (s : string) : matches Eps s = true <-> s = EmptyString.
Proof.
  destruct s as [|c s]; simpl; [tauto |].
  rewrite matches_void by reflexivity. split; discriminate.
Qed.

Lemma matches_Class (p : ascii -> bool) (s : string) :
  matches (Class p) s = true <-> exists c, s = String c EmptyString /\ p c = true.
Proof.
  destruct s as [|c s]; simpl.
  - split; [discriminate | intros (c & H & _); discriminate].
  - destruct (p c) eqn:Hp.
    + rewrite matches_Eps. split.
      * intros ->. now exists c.
      * now intros (c' & [= -> ->] & _).
    + rewrite matches_void by reflexivity. split; [discriminate |].
      intros (c' & [= -> ->] & H). congruence.
Qed.

Lemma matches_Class_Seq (p : ascii -> bool) (r : regexp) (s : string) :
  matches (Seq (Class p) r) s = true <->
  exists c s', s = String c s' /\ p c = true /\ matches r s' = true.
Proof.
  rewrite matches_Seq. split.
  - intros (s1 & s2 & -> & (c & -> & Hc)%matches_Class & H2). now exists c, s2.
  - intros (c & s' & -> & Hc & H). exists (String c EmptyString), s'.
    repeat split; auto. apply matches_Class. now exists c.
Qed.

Lemma matches_Star_Class (p : ascii -> bool) (s : string) :
  matches (Star (Class p)) s = true <-> Js.every p s = true.
Proof.
  induction s as [|c s IH]; simpl; [tauto |].
  rewrite andb_true_iff, <- IH. destruct (p c).
  - rewrite matches_Seq. split.
    + intros (s1 & s2 & -> & ->%matches_Eps & H). auto.
    + intros [_ H]. now exists EmptyString, s.
  - rewrite matches_void by reflexivity. split; [discriminate | now intros []].
Qed.

(** [[a-z][a-z_]*] *)
Lemma matches_ident (s : string) :
  matches (cat Parser.ident) s = true <->
  exists c s', s = String c s' /\ lower c = true /\ Js.every lower_us s' = true.
Proof.
  unfold Parser.ident, cat. simpl fold_right. rewrite matches_Class_Seq.
  split; intros (c & s' & -> & Hc & H); exists c, s'; repeat split; auto.
  - apply matches_Seq in H as (s1 & s2 & -> & H1 & ->%matches_Eps).
    rewrite append_empty_r. now apply matches_Star_Class.
  - apply matches_Seq. exists s', EmptyString.
    rewrite append_empty_r. repeat split; auto. now apply matches_Star_Class.
Qed.

End RegexpFacts.

(** ** The parser *)

Section ParserFacts.
Import Js Re Parser.

Lemma lower_us_not_ws (c : ascii) : lower_us c = true -> is_ws c = false.
Proof. destruct c as [[] [] [] [] [] [] [] []]; vm_compute; congruence. Qed.

Lemma lower_us_not_eq (c : ascii) :
  lower_us c = true -> negb (Ascii.eqb c "=") = true.
Proof. destruct c as [[] [] [] [] [] [] [] []]; vm_compute; congruence. Qed.

Lemma ws_not_eq (c : ascii) : is_ws c = true -> negb (Ascii.eqb c "=") = true.
Proof. destruct c as [[] [] [] [] [] [] [] []]; vm_compute; congruence. Qed.

Lemma lower_lower_us (c : ascii) : lower c = true -> lower_us c = true.
Proof. unfold lower_us. now intros ->. Qed.

(** A string that starts with [$] is neither a quoted literal nor a
    reference. *)
Lemma test_literal_dollar (b : string) :
  test REGEXP_STRING_LITERAL (String "$" b) = false.
Proof.
  unfold test.
  change (matches (deriv "$" REGEXP_STRING_LITERAL) b = false).
  apply matches_void. vm_compute. reflexivity.
Qed.

Lemma test_variable_dollar (b : string) :
  test REGEXP_VARIABLE (String "$" b) = false.
Proof.
  unfold test.
  change (matches (deriv "$" REGEXP_VARIABLE) b = false).
  apply matches_void. vm_compute. reflexivity.
Qed.

(** What [REGEXP_IDENTIFIER] accepts after the sigil [$]. *)
Lemma test_identifier_dollar (s : string) :
  test REGEXP_IDENTIFIER (String "$" s) = true ->
  every lower_us s = true.
Proof.
  unfold test, REGEXP_IDENTIFIER. simpl cat.
  change (fold_right Seq Eps ident) with (cat ident).
  intros (c & s' & [= <- <-] & _ & H)%matches_Class_Seq.
  apply matches_ident in H as (c' & s'' & -> & Hc & Hs).
  simpl. now rewrite (lower_lower_us _ Hc), Hs.
Qed.

Lemma parseDataVariableLine_alias (nm b : string) (ctx : ResolverContext) :
  every lower_us b = true ->
  parseDataVariableLine nm (String "$" b) ctx =
    match ordmap_get b (variables ctx) with
    | Some d => Ok (Context.registVariable nm d ctx)
    | None => Throw TemplaterError
    end.
Proof.
  intros Hb. unfold parseDataVariableLine, exec_VARIABLE.
  rewrite test_literal_dollar, test_variable_dollar.
  unfold trim. rewrite trimStart_head by reflexivity.
  rewrite trimEnd_id; [reflexivity |].
  simpl. apply (every_impl lower_us); [| exact Hb].
  intros c Hc. now rewrite (lower_us_not_ws _ Hc).
Qed.

Lemma ordmap_get_set_eq {A : Type} (k : string) (v : A) (m : ordmap A) :
  ordmap_get k (ordmap_set k v m) = Some v.
Proof.
  unfold ordmap_get. induction m as [|[k' v'] m IH]; simpl.
  - now rewrite String.eqb_refl.
  - destruct (String.eqb k' k) eqn:E; simpl.
    + now rewrite String.eqb_refl.
    + now rewrite E.
Qed.

Lemma ordmap_get_set_ne {A : Type} (k k' : string) (v : A) (m : ordmap A) :
  k <> k' -> ordmap_get k' (ordmap_set k v m) = ordmap_get k' m.
Proof.
  intros Hne. unfold ordmap_get. induction m as [|[k0 v0] m IH]; simpl.
  - destruct (String.eqb k k') eqn:E; [| reflexivity].
    apply String.eqb_eq in E. contradiction.
  - destruct (String.eqb k0 k) eqn:E; simpl.
    + apply String.eqb_eq in E. subst k0.
      destruct (String.eqb k k') eqn:E'; [| reflexivity].
      apply String.eqb_eq in E'. contradiction.
    + destruct (String.eqb k0 k'); [reflexivity | exact IH].
Qed.

End ParserFacts.

(** ** The groups of the expressions *)

Section CaptureFacts.
Import Js Re Parser.

Lemma matches_Star (r : regexp) (s : string) :
  matches (Star r) s = true <->
  s = EmptyString \/
  exists c s1 s2,
    s = String c s1 +:+ s2 /\ matches r (String c s1) = true /\
    matches (Star r) s2 = true.
Proof.
  destruct s as [|c s]; simpl.
  - split; [now left | reflexivity].
  - rewrite matches_Seq. split.
    + intros (s1 & s2 & -> & H1 & H2). right. now exists c, s1, s2.
    + intros [H | (c' & s1 & s2 & Hs & H1 & H2)]; [discriminate |].
      rewrite append_cons in Hs. injection Hs as -> ->. now exists s1, s2.
Qed.

Lemma matches_plus_Class (p : ascii -> bool) (s : string) :
  matches (plus (Class p)) s = true <->
  exists c s', s = String c s' /\ p c = true /\ every p s' = true.
Proof.
  unfold plus. rewrite matches_Class_Seq. split.
  - intros (c & s' & -> & Hc & H). exists c, s'. repeat split; auto.
    now apply matches_Star_Class.
  - intros (c & s' & -> & Hc & H). exists c, s'. repeat split; auto.
    now apply matches_Star_Class.
Qed.

Lemma matches_opt (r : regexp) (s : string) :
  matches (opt r) s = true <-> matches r s = true \/ s = EmptyString.
Proof.
  unfold opt. rewrite matches_Alt, orb_true_iff, matches_Eps. reflexivity.
Qed.

Lemma takeWhile_app (p : ascii -> bool) (s1 s2 : string) :
  every p s1 = true -> stops p s2 -> takeWhile p (s1 +:+ s2) = s1.
Proof.
  intros H1 H2. induction s1 as [|c s1 IH].
  - rewrite append_nil. destruct s2 as [|c s2]; [reflexivity |].
    simpl in *. now rewrite H2.
  - rewrite append_cons. simpl in *. apply andb_true_iff in H1 as [Hc H1].
    now rewrite Hc, IH.
Qed.

Lemma dropWhile_app (p : ascii -> bool) (s1 s2 : string) :
  every p s1 = true -> stops p s2 -> dropWhile p (s1 +:+ s2) = s2.
Proof.
  intros H1 H2. induction s1 as [|c s1 IH].
  - rewrite append_nil. destruct s2 as [|c s2]; [reflexivity |].
    simpl in *. now rewrite H2.
  - rewrite append_cons. simpl in *. apply andb_true_iff in H1 as [Hc H1].
    now rewrite Hc, IH.
Qed.

Lemma stops_app (p q : ascii -> bool) (s1 s2 : string) :
  every q s1 = true -> (forall c, q c = true -> p c = false) ->
  stops p s2 -> stops p (s1 +:+ s2).
Proof.
  intros H1 Hq H2. destruct s1 as [|c s1]; [exact H2 |].
  rewrite append_cons. simpl in *. apply andb_true_iff in H1 as [Hc _]. auto.
Qed.

Lemma matches_Star_chr (c : ascii) (s : string) :
  matches (Star (chr c)) s = true <-> every (Ascii.eqb c) s = true.
Proof. apply matches_Star_Class. Qed.

Lemma every_space (s : string) :
  every (Ascii.eqb " ") s = true -> every is_space s = true.
Proof.
  apply every_impl. intros c H. unfold is_space. now rewrite Ascii.eqb_sym.
Qed.

(** The groups of [REGEXP_SERVICE]: a line that matches is a provider
    name, spaces and the braces, and these are what [exec_SERVICE]
    yields. *)
Lemma exec_SERVICE_groups (line : string) :
  test REGEXP_SERVICE line = true ->
  exists providerName spaces args,
    line = providerName +:+ spaces +:+ args /\
    matches (cat [Class upper; plus (Class letter)]) providerName = true /\
    every is_space spaces = true /\
    (args = EmptyString \/ exists rest, args = String "{" rest) /\
    exec_SERVICE line =
      Some (providerName,
            match args with EmptyString => None | _ => Some args end).
Proof.
  intros Hm. unfold exec_SERVICE. rewrite Hm. unfold test, REGEXP_SERVICE in Hm.
  apply matches_Seq in Hm as (nm & s1 & -> & Hnm & Hm).
  apply matches_Seq in Hm as (sps & s2 & -> & Hsps & Hm).
  apply matches_Seq in Hm as (args & s3 & -> & Hargs & ->%matches_Eps).
  rewrite append_empty_r.
  apply matches_Star_chr, every_space in Hsps.
  assert (args = EmptyString \/ exists rest, args = String "{" rest) as Hshape.
  { apply matches_opt in Hargs as [Hargs | ->]; [| now left]. right.
    apply matches_Class_Seq in Hargs as (c & rest & -> & Hc & _).
    apply Ascii.eqb_eq in Hc as <-. now exists rest. }
  assert (stops is_space args) as Hstop1.
  { destruct Hshape as [-> | [rest ->]]; reflexivity. }
  assert (every letter nm = true /\ exists c nm', nm = String c nm') as [Hletters Hne].
  { apply matches_Class_Seq in Hnm as (c & nm' & -> & Hc & Hnm').
    apply matches_Seq in Hnm' as (t & t' & -> & Ht & ->%matches_Eps).
    rewrite append_empty_r.
    apply matches_plus_Class in Ht as (c' & t'' & -> & Hc' & Ht'').
    split; [| eauto]. simpl. unfold letter at 1. rewrite Hc, orb_true_r.
    now rewrite Hc', Ht''. }
  assert (stops letter (sps +:+ args)) as Hstop2.
  { apply stops_app with (q := is_space); auto.
    - intros c Hc. unfold is_space in Hc. apply Ascii.eqb_eq in Hc. now subst.
    - destruct Hshape as [-> | [rest ->]]; reflexivity. }
  exists nm, sps, args. repeat split; auto.
  rewrite (takeWhile_app letter nm _ Hletters Hstop2).
  rewrite (dropWhile_app letter nm _ Hletters Hstop2).
  now rewrite (dropWhile_app is_space sps _ Hsps Hstop1).
Qed.


Lemma length_append (s1 s2 : string) :
  String.length (s1 +:+ s2) = String.length s1 + String.length s2.
Proof.
  induction s1 as [|c s1 IH]; [reflexivity |].
  rewrite append_cons. simpl. now rewrite IH.
Qed.

Lemma lower_us_not_at (c : ascii) : lower_us c = true -> negb (Ascii.eqb c "@") = true.
Proof. destruct c as [[] [] [] [] [] [] [] []]; vm_compute; congruence. Qed.

Lemma ident_every (s : string) :
  matches (cat ident) s = true -> every lower_us s = true.
Proof.
  intros (c & s' & -> & Hc & Hs)%matches_ident. simpl.
  now rewrite (lower_lower_us _ Hc), Hs.
Qed.

Lemma split_nonempty (sep : ascii) (s : string) : split sep s <> [].
Proof.
  destruct s as [|c s]; simpl; [discriminate |].
  destruct (Ascii.eqb c sep); [discriminate |].
  destruct (split sep s); discriminate.
Qed.

Lemma last_cons_nonempty {A : Type} (x d : A) (l : list A) :
  l <> [] -> List.last (x :: l) d = List.last l d.
Proof. destruct l; [congruence | reflexivity]. Qed.

(** In a repetition of [@name] the last name is what follows the last
    [@]. *)
Lemma refs_last (n : nat) :
  forall refs : string,
    String.length refs <= n ->
    matches (Star (cat (chr "@" :: ident))) refs = true ->
    refs <> EmptyString ->
    exists pre nm,
      refs = pre +:+ String "@" nm /\
      matches (Star (cat (chr "@" :: ident))) pre = true /\
      matches (cat ident) nm = true /\
      List.last (split "@" refs) EmptyString = nm.
Proof.
  induction n as [|n IH]; intros refs Hlen Hm Hne.
  - destruct refs; [congruence | simpl in Hlen; lia].
  - apply matches_Star in Hm as [-> | (c & s1 & s2 & -> & H1 & H2)]; [congruence |].
    change (cat (chr "@" :: ident)) with (Seq (chr "@") (cat ident)) in H1.
    apply matches_Class_Seq in H1 as (c' & nm1 & [= -> ->] & Hc & Hnm1).
    apply Ascii.eqb_eq in Hc as <-.
    pose proof (ident_every _ Hnm1) as Hev.
    assert (every (fun c => negb (Ascii.eqb c "@")) nm1 = true) as Hno
      by (apply (every_impl lower_us); [apply lower_us_not_at | exact Hev]).
    destruct s2 as [|c2 s2'] eqn:Es2.
    + exists EmptyString, nm1. rewrite append_empty_r. repeat split; auto.
      simpl. rewrite (split_none "@" nm1 Hno). reflexivity.
    + rewrite <- Es2 in *. destruct (IH s2) as (pre & nm & Hs2 & Hpre & Hnm & Hlast).
      * rewrite append_cons in Hlen. simpl in Hlen.
        rewrite length_append in Hlen. lia.
      * exact H2.
      * rewrite Es2. discriminate.
      * exists (String "@" nm1 +:+ pre), nm. repeat split; auto.
        -- rewrite Hs2. now rewrite append_assoc.
        -- apply matches_Star. right. exists "@"%char, nm1, pre.
           repeat split; auto.
           change (cat (chr "@" :: ident)) with (Seq (chr "@") (cat ident)).
           apply matches_Class_Seq. exists "@"%char, nm1. repeat split; auto.
        -- assert (exists s2'', s2 = String "@" s2'') as [s2'' Hat].
           { apply matches_Star in H2 as [-> | (c3 & t1 & t2 & -> & Ht & _)];
               [discriminate |].
             change (cat (chr "@" :: ident)) with (Seq (chr "@") (cat ident)) in Ht.
             apply matches_Class_Seq in Ht as (c4 & t & [= <- <-] & Hc4 & _).
             apply Ascii.eqb_eq in Hc4 as <-. rewrite append_cons. eauto. }
           rewrite Hat in *. rewrite append_cons.
           change (split "@" (String "@" (nm1 +:+ String "@" s2'')))
             with (EmptyString :: split "@" (nm1 +:+ String "@" s2'')).
           rewrite (split_first "@" nm1 s2'' Hno).
           change (split "@" (String "@" s2''))
             with (EmptyString :: split "@" s2'') in Hlast.
           rewrite last_cons_nonempty in Hlast by apply split_nonempty.
           rewrite last_cons_nonempty by discriminate.
           rewrite last_cons_nonempty by apply split_nonempty. exact Hlast.
Qed.

(** The groups of [REGEXP_VARIABLE]: a line that matches is a field key,
    the arrow between spaces, and a repetition of [@name]; [exec_VARIABLE]
    yields the field key and the last [@name], if there is one. *)
Lemma exec_VARIABLE_groups (line : string) :
  test REGEXP_VARIABLE line = true ->
  exists fk sp1 sp2 refs,
    line = fk +:+ sp1 +:+ "<-" +:+ sp2 +:+ refs /\
    matches (cat ident) fk = true /\
    every is_space sp1 = true /\ every is_space sp2 = true /\
    matches (Star (cat (chr "@" :: ident))) refs = true /\
    (refs = EmptyString -> exec_VARIABLE line = Some (fk, None)) /\
    (refs <> EmptyString ->
     exists pre nm,
       refs = pre +:+ String "@" nm /\
       matches (Star (cat (chr "@" :: ident))) pre = true /\
       matches (cat ident) nm = true /\
       exec_VARIABLE line = Some (fk, Some (String "@" nm))).
Proof.
  intros Hm. unfold exec_VARIABLE. rewrite Hm. unfold test, REGEXP_VARIABLE in Hm.
  apply matches_Seq in Hm as (fk & s1 & -> & Hfk & Hm).
  apply matches_Seq in Hm as (sp1 & s2 & -> & Hsp1 & Hm).
  apply matches_Seq in Hm as (arrow & s3 & -> & Harrow & Hm).
  apply matches_Seq in Hm as (sp2 & s4 & -> & Hsp2 & Hm).
  apply matches_Seq in Hm as (refs & s5 & -> & Hrefs & ->%matches_Eps).
  rewrite append_empty_r.
  apply matches_Star_chr, every_space in Hsp1.
  apply matches_Star_chr, every_space in Hsp2.
  assert (arrow = "<-") as ->.
  { simpl in Harrow.
    apply matches_Class_Seq in Harrow as (c1 & t1 & -> & ->%Ascii.eqb_eq & Harrow).
    apply matches_Class_Seq in Harrow as (c2 & t2 & -> & ->%Ascii.eqb_eq & Harrow).
    now apply matches_Eps in Harrow as ->. }
  pose proof (ident_every _ Hfk) as Hev.
  assert (stops is_space refs) as Hstop4.
  { apply matches_Star in Hrefs as [-> | (c & t1 & t2 & -> & Ht & _)];
      [reflexivity |].
    change (cat (chr "@" :: ident)) with (Seq (chr "@") (cat ident)) in Ht.
    apply matches_Class_Seq in Ht as (c' & t & [= <- <-] & Hc & _).
    apply Ascii.eqb_eq in Hc as <-. reflexivity. }
  assert (stops is_space ("<-" +:+ sp2 +:+ refs)) as Hstop2 by reflexivity.
  assert (stops lower_us (sp1 +:+ "<-" +:+ sp2 +:+ refs)) as Hstop1.
  { apply stops_app with (q := is_space); auto.
    intros c Hc. unfold is_space in Hc. apply Ascii.eqb_eq in Hc. now subst. }
  rewrite (takeWhile_app lower_us fk _ Hev Hstop1).
  rewrite (dropWhile_app lower_us fk _ Hev Hstop1).
  rewrite (dropWhile_app is_space sp1 _ Hsp1 Hstop2).
  change (dropN 2 ("<-" +:+ sp2 +:+ refs)) with (sp2 +:+ refs).
  rewrite (dropWhile_app is_space sp2 _ Hsp2 Hstop4).
  exists fk, sp1, sp2, refs. repeat split; auto.
  - now intros ->.
  - intros Hne.
    destruct (refs_last (String.length refs) refs (le_n _) Hrefs Hne)
      as (pre & nm & Heq & Hpre & Hnm & Hlast).
    exists pre, nm. repeat split; auto. rewrite Hlast.
    destruct refs; [congruence | reflexivity].
Qed.

End CaptureFacts.

(** C9. An alias declaration [$a = $b], written with any white space around
    the equals sign, copies the descriptor that [b] has at that point of the
    parse into [a], and fails with a [TemplaterError] when [b] is not
    defined; the descriptor is then what a lookup of [a] yields.  In
    particular the text [$a = 'x'] followed by [$b = $a] parses, builds and
    executes to a record in which [b] is the string [x]. *)
Theorem C9_alias_copies_descriptor :
  (forall (ctx : ResolverContext) (a b sp1 sp2 : string),
      Parser.test Parser.REGEXP_IDENTIFIER (String "$" a) = true ->
      Parser.test Parser.REGEXP_INTERNAL_IDENTIFIER (String "$" a) = false ->
      Parser.test Parser.REGEXP_IDENTIFIER (String "$" b) = true ->
      Js.every Js.is_ws sp1 = true ->
      Js.every Js.is_ws sp2 = true ->
      Parser.parseDataLine
        (String "$" a +:+ sp1 +:+ String "=" (sp2 +:+ String "$" b)) ctx =
        match ordmap_get b (variables ctx) with
        | Some d => Ok (Context.registVariable a d ctx)
        | None => Throw TemplaterError
        end) /\
  (forall (ctx : ResolverContext) (a : string) (d : Descriptor),
      ordmap_get a (variables (Context.registVariable a d ctx)) = Some d) /\
  (exists p ex rec,
      Parser.parse "#data
$a = 'x'
$b = $a
#view(ab)" = Ok p /\
      Resolver.buildResolver 1 Resolver.create (Parser.resolverContext p) = Some (Ok ex) /\
      Executor.execute ex ∅ = Ok rec /\
      rec !! "b" = Some (VString "x")).
Proof.
  split; [| split].
  - intros ctx a b sp1 sp2 Ha Hint Hb Hsp1 Hsp2.
    pose proof (test_identifier_dollar _ Ha) as Ha'.
    pose proof (test_identifier_dollar _ Hb) as Hb'.
    unfold Parser.parseDataLine.
    rewrite <- append_assoc.
    rewrite split_first.
    2:{ rewrite append_cons. simpl. rewrite every_app.
        rewrite (every_impl _ _ _ lower_us_not_eq Ha').
        now rewrite (every_impl _ _ _ ws_not_eq Hsp1). }
    rewrite split_none.
    2:{ rewrite every_app. simpl.
        rewrite (every_impl _ _ _ ws_not_eq Hsp2).
        now rewrite (every_impl _ _ _ lower_us_not_eq Hb'). }
    assert (Js.trim (String "$" a +:+ sp1) = String "$" a) as ->.
    { unfold Js.trim. rewrite append_cons, trimStart_head by reflexivity.
      rewrite <- append_cons. apply trimEnd_app_ws; [| exact Hsp1].
      simpl. apply (every_impl Re.lower_us); [| exact Ha'].
      intros c Hc. now rewrite (lower_us_not_ws _ Hc). }
    assert (Js.trim (Js.join "=" [sp2 +:+ String "$" b]) = String "$" b) as ->.
    { simpl Js.join. unfold Js.trim.
      rewrite trimStart_ws, trimStart_head by (reflexivity || exact Hsp2).
      apply trimEnd_id. simpl. apply (every_impl Re.lower_us); [| exact Hb'].
      intros c Hc. now rewrite (lower_us_not_ws _ Hc). }
    rewrite Ha, Hint. simpl negb. cbv iota.
    change (Js.startsWith (String "$" a) Parser.SERVICE_CHAR) with false.
    cbv iota. simpl Js.slice1.
    now apply parseDataVariableLine_alias.
  - intros ctx a d. apply ordmap_get_set_eq.
  - eexists _, _, _. repeat split; vm_compute; reflexivity.
Qed.

(** The alias line [$b = $a] of C9 on a context in which [a] is the
    constant [x]. *)
Lemma C9_alias_witness :
  Parser.parseDataLine "$b = $a"
    (Context.registVariable "a" (VariableConst "x") Context.empty) =
  Ok (Context.registVariable "b" (VariableConst "x")
        (Context.registVariable "a" (VariableConst "x") Context.empty)).
Proof.
  exact (proj1 C9_alias_copies_descriptor
           (Context.registVariable "a" (VariableConst "x") Context.empty)
           "b" "a" " " " " eq_refl eq_refl eq_refl eq_refl eq_refl).
Defined.

(** ** The executor *)

Section ExecutorFacts.
Import Executor Spec.

Lemma delete_all (l : list Service) (nq : gset string) :
  fold_left (fun nq child => nq ∖ {[key child]}) l nq = nq ∖ list_to_set (map key l).
Proof.
  revert nq. induction l as [|c l IH]; intros nq; simpl.
  - set_solver.
  - rewrite IH. set_solver.
Qed.

Lemma directChildren_app (ex : ResolverExecutor) (l1 l2 : list Service) :
  directChildren ex (l1 ++ l2) = directChildren ex l1 ∪ directChildren ex l2.
Proof.
  unfold directChildren. rewrite bind_app. apply list_to_set_app_L.
Qed.

Lemma directChildren_cons (ex : ResolverExecutor) (s : Service) (l : list Service) :
  directChildren ex (s :: l) =
    match _childrenServices ex !! key s with
    | Some childServices => list_to_set (map key (ordmap_values childServices))
    | None => ∅
    end ∪ directChildren ex l.
Proof.
  unfold directChildren. rewrite bind_cons, list_to_set_app_L.
  now destruct (_childrenServices ex !! key s).
Qed.

Lemma prune_children (ex : ResolverExecutor) (services : list Service)
    (nq : gset string) :
  prune ex services nq = nq ∖ directChildren ex services.
Proof.
  unfold prune. revert nq.
  induction services as [|s services IH]; intros nq.
  - unfold directChildren. simpl. set_solver.
  - rewrite directChildren_cons. simpl. rewrite IH.
    destruct (_childrenServices ex !! key s) as [ch|].
    + rewrite delete_all. set_solver.
    + set_solver.
Qed.

Lemma settle_spec (ex : ResolverExecutor) (runs : list GroupRun) (variable : gmap string Value)
    (nq : gset string) :
  settle ex runs variable nq =
    if forallb (fun r => negb (fatal r)) runs
    then Ok (written (updates runs) variable, nq ∖ pruned ex runs)
    else Throw TypingError.
Proof.
  revert variable nq. induction runs as [|r runs IH]; intros variable nq.
  - simpl. f_equal. f_equal. unfold pruned, directChildren. simpl. set_solver.
  - simpl. unfold fatal at 1, updates, pruned. simpl. unfold isolated at 1.
    destruct (outcome (resolution r)) as [u|e] eqn:E.
    + rewrite filter_cons_False by (unfold isolated; rewrite E; discriminate).
      simpl. apply IH.
    + destruct e; simpl; try reflexivity.
      all: try (rewrite filter_cons_False by (unfold isolated; rewrite E; discriminate);
                apply IH).
      all: rewrite filter_cons_True by (unfold isolated; rewrite E; reflexivity);
           rewrite IH, prune_children; simpl;
           destruct (forallb _ runs); [| reflexivity];
           f_equal; f_equal; fold (pruned ex runs); unfold pruned;
           rewrite directChildren_app; set_solver.
Qed.


Lemma loop_cons (ex : ResolverExecutor) (lvl : QueueResolving)
    (rest : list QueueResolving) (cq : gset string) (variable : gmap string Value) :
  let runs := runLevel ex lvl cq variable in
  let candidates := toSet (match rest with [] => [] | nxt :: _ => queue nxt end) in
  let variable' := written (updates runs) variable in
  let nextQueue := candidates ∖ pruned ex runs in
  loop ex (lvl :: rest) cq variable =
    if forallb (fun r => negb (fatal r)) runs then
      if bool_decide (size nextQueue = 0) then ([runs], Ok variable')
      else (runs :: fst (loop ex rest nextQueue variable'),
            snd (loop ex rest nextQueue variable'))
    else ([runs], Throw TypingError).
Proof.
  intros runs candidates variable' nextQueue. simpl.
  fold runs candidates. rewrite settle_spec. fold variable' nextQueue.
  destruct (forallb _ runs); [| reflexivity].
  destruct (bool_decide _); [reflexivity |].
  now destruct (loop ex rest nextQueue variable').
Qed.

Lemma forallb_negb_existsb {A : Type} (p : A -> bool) (l : list A) :
  forallb (fun x => negb (p x)) l = negb (existsb p l).
Proof.
  induction l as [|x l IH]; simpl; [reflexivity |].
  rewrite IH. now destruct (p x).
Qed.

Lemma loop_fatal (ex : ResolverExecutor) (levels : list QueueResolving) :
  forall (cq : gset string) (variable : gmap string Value) (k : nat),
    fatalAt (fst (loop ex levels cq variable)) k = true ->
    snd (loop ex levels cq variable) = Throw TypingError /\
    length (fst (loop ex levels cq variable)) = S k.
Proof.
  induction levels as [|lvl rest IH]; intros cq variable k.
  - simpl. unfold fatalAt. now rewrite lookup_nil.
  - rewrite loop_cons. cbv zeta. rewrite forallb_negb_existsb.
    destruct (existsb fatal (runLevel ex lvl cq variable)) eqn:E; simpl.
    + destruct k as [|k]; [auto |]. unfold fatalAt. simpl. discriminate.
    + destruct (bool_decide _); simpl.
      * destruct k as [|k]; unfold fatalAt; simpl.
        -- now rewrite E.
        -- discriminate.
      * destruct k as [|k]; unfold fatalAt; simpl.
        -- now rewrite E.
        -- intros H. apply IH in H as [H1 H2]. now rewrite H2.
Qed.

Lemma loop_throws (ex : ResolverExecutor) (levels : list QueueResolving) :
  forall (cq : gset string) (variable : gmap string Value) (e : JsError),
    snd (loop ex levels cq variable) = Throw e ->
    e = TypingError /\
    exists k, fatalAt (fst (loop ex levels cq variable)) k = true.
Proof.
  induction levels as [|lvl rest IH]; intros cq variable e.
  - simpl. discriminate.
  - rewrite loop_cons. cbv zeta. rewrite forallb_negb_existsb.
    destruct (existsb fatal (runLevel ex lvl cq variable)) eqn:E; simpl.
    + intros [= <-]. split; [reflexivity |]. exists 0. unfold fatalAt. simpl.
      exact E.
    + destruct (bool_decide _); simpl; [discriminate |].
      intros H. apply IH in H as [-> [k Hk]]. split; [reflexivity |].
      now exists (S k).
Qed.

Lemma loop_record (ex : ResolverExecutor) (levels : list QueueResolving) :
  forall (cq : gset string) (variable rec : gmap string Value),
    snd (loop ex levels cq variable) = Ok rec ->
    rec = written (concat (map updates (fst (loop ex levels cq variable)))) variable.
Proof.
  induction levels as [|lvl rest IH]; intros cq variable rec.
  - simpl. now intros [= <-].
  - rewrite loop_cons. cbv zeta.
    destruct (forallb _ _); simpl; [| discriminate].
    destruct (bool_decide _); simpl.
    + intros [= <-]. now rewrite app_nil_r.
    + intros H. apply IH in H. unfold written in *.
      now rewrite fold_left_app.
Qed.

Lemma settle_skip (ex : ResolverExecutor) (runs1 runs2 : list GroupRun)
    (r : GroupRun) :
  outcome (resolution r) = Throw SystemError ->
  forall (variable : gmap string Value) (nq : gset string),
    settle ex (runs1 ++ r :: runs2) variable nq = settle ex (runs1 ++ runs2) variable nq.
Proof.
  intros Hr. induction runs1 as [|r1 runs1 IH]; intros variable nq; simpl.
  - now rewrite Hr.
  - destruct (outcome (resolution r1)) as [u|[]]; auto.
Qed.

Lemma buildBatch_no_model (variable : gmap string Value) (services : list Service) :
  buildBatch [] variable services = Ok (map (buildArgs variable) services).
Proof.
  induction services as [|s services IH]; simpl; [reflexivity |].
  now rewrite IH.
Qed.

Lemma buildBatch_ok (model : ordmap (list Kind)) (variable : gmap string Value)
    (services : list Service) (batch : list (gmap string Value)) :
  buildBatch model variable services = Ok batch ->
  batch = map (buildArgs variable) services.
Proof.
  revert batch. induction services as [|s services IH]; intros batch; simpl.
  - now intros [= <-].
  - destruct (validator model (buildArgs variable s)); simpl; [| discriminate].
    destruct (buildBatch model variable services) as [b|]; simpl; [| discriminate].
    intros [= <-]. now rewrite (IH b eq_refl).
Qed.

Lemma run_fatal (ex : ResolverExecutor) (args : gmap string Value) (k : nat) :
  fatalAt (trace ex args) k = true ->
  execute ex args = Throw TypingError /\ length (trace ex args) = S k.
Proof.
  unfold execute, trace, run. destruct (_queueResolving ex) as [|first rest].
  - simpl. unfold fatalAt. now rewrite lookup_nil.
  - apply loop_fatal.
Qed.

Lemma run_throws (ex : ResolverExecutor) (args : gmap string Value) (e : JsError) :
  execute ex args = Throw e ->
  e = TypingError /\ exists k, fatalAt (trace ex args) k = true.
Proof.
  unfold execute, trace, run. destruct (_queueResolving ex) as [|first rest].
  - simpl. discriminate.
  - apply loop_throws.
Qed.

Lemma run_record (ex : ResolverExecutor) (args rec : gmap string Value) :
  execute ex args = Ok rec ->
  rec = written (concat (map updates (trace ex args))) (initial ex args).
Proof.
  unfold execute, trace, run. destruct (_queueResolving ex) as [|first rest].
  - simpl. now intros [= <-].
  - apply loop_record.
Qed.

Lemma written_none (upds : list (gmap string Value)) (variable : gmap string Value)
    (k : string) :
  Forall (fun u => u !! k = None) upds ->
  written upds variable !! k = variable !! k.
Proof.
  unfold written. revert variable.
  induction upds as [|u upds IH]; intros variable H; simpl; [reflexivity |].
  inversion H as [|? ? Hu Hrest]; subst. rewrite (IH _ Hrest).
  unfold assign. now rewrite lookup_union_r.
Qed.

Lemma written_last (l1 l2 : list (gmap string Value)) (u variable : gmap string Value)
    (k : string) (x : Value) :
  u !! k = Some x ->
  Forall (fun u' => u' !! k = None) l2 ->
  written (l1 ++ u :: l2) variable !! k = Some x.
Proof.
  intros Hu Hl2. unfold written. rewrite fold_left_app. simpl.
  fold (written l2 (assign (fold_left assign l1 variable) u)).
  rewrite (written_none _ _ _ Hl2). unfold assign.
  now apply lookup_union_Some_l.
Qed.

End ExecutorFacts.

(** C4. When some provider group of some level rejects with a
    [TypingError], [execute] itself fails with that error, and the level of
    that group is the last one that was run: no group of a later level is
    resolved, so nothing of a later level is written. *)
Theorem C4_typing_error_is_fatal
    (ex : ResolverExecutor) (args : gmap string Value) (k : nat) :
  Spec.fatalAt (Executor.trace ex args) k = true ->
  Executor.execute ex args = Throw TypingError /\
  length (Executor.trace ex args) = S k /\
  forall k', k < k' -> Executor.trace ex args !! k' = None.
Proof.
  intros H. destruct (run_fatal ex args k H) as [H1 H2].
  repeat split; auto.
  intros k' Hk. apply lookup_ge_None. lia.
Qed.

(** On the template [Examples.strict] the root group fails the argument
    check: the execution stops after its first level. *)
Lemma C4_typing_error_witness :
  Executor.execute
    (Examples.executor 5 Examples.registryStrict Examples.strict) ∅
  = Throw TypingError /\
  length (Executor.trace
            (Examples.executor 5 Examples.registryStrict Examples.strict) ∅) = 1.
Proof.
  destruct (C4_typing_error_is_fatal
              (Examples.executor 5 Examples.registryStrict Examples.strict) ∅ 0)
    as (H1 & H2 & _).
  - vm_compute. reflexivity.
  - split; assumption.
Defined.

Section IsolationFacts.
Import Executor Spec.

Lemma elem_of_directChildren (ex : ResolverExecutor) (services : list Service)
    (c : string) :
  c ∈ directChildren ex services <->
  exists s childServices child,
    s ∈ services /\ _childrenServices ex !! key s = Some childServices /\
    child ∈ ordmap_values childServices /\ key child = c.
Proof.
  unfold directChildren. rewrite elem_of_list_to_set, list_elem_of_bind. split.
  - intros (s & Hc & Hs).
    destruct (_childrenServices ex !! key s) as [childServices|] eqn:E.
    + apply list_elem_of_In, in_map_iff in Hc as (child & Hk & Hin).
      exists s, childServices, child. repeat split; auto.
      now apply list_elem_of_In.
    + now apply not_elem_of_nil in Hc.
  - intros (s & childServices & child & Hs & E & Hin & Hk).
    exists s. split; [| exact Hs]. rewrite E.
    apply list_elem_of_In, in_map_iff. exists child. split; [exact Hk |].
    now apply list_elem_of_In.
Qed.

Lemma elem_of_pruned (ex : ResolverExecutor) (runs : list GroupRun) (c : string) :
  c ∈ pruned ex runs <->
  exists r s childServices child,
    r ∈ runs /\ isolated r = true /\ s ∈ group_services r /\
    _childrenServices ex !! key s = Some childServices /\
    child ∈ ordmap_values childServices /\ key child = c.
Proof.
  unfold pruned. rewrite elem_of_directChildren. split.
  - intros (s & childServices & child & Hs & E & Hin & Hk).
    apply list_elem_of_bind in Hs as (r & Hs & Hr).
    apply list_elem_of_filter in Hr as [Hiso Hr].
    exists r, s, childServices, child. repeat split; auto.
  - intros (r & s & childServices & child & Hr & Hiso & Hs & E & Hin & Hk).
    exists s, childServices, child. repeat split; auto.
    apply list_elem_of_bind. exists r. split; [exact Hs |].
    now apply list_elem_of_filter.
Qed.

Lemma runLevel_services (ex : ResolverExecutor) (lvl : QueueResolving)
    (cq : gset string) (variable : gmap string Value) (r : GroupRun) (s : Service) :
  r ∈ runLevel ex lvl cq variable -> s ∈ group_services r -> key s ∈ cq.
Proof.
  unfold runLevel. intros Hr Hs.
  apply list_elem_of_In, in_map_iff in Hr as ([nm grp] & <- & _).
  simpl in Hs. now apply list_elem_of_filter in Hs as [Hs _].
Qed.

End IsolationFacts.

Section OrderFacts.
Import Executor Spec.

Lemma written_lookup (upds : list (gmap string Value)) :
  forall (variable : gmap string Value) (k : string) (x : Value),
    pairwiseDisjoint upds ->
    written upds variable !! k = Some x <->
    (exists u, u ∈ upds /\ u !! k = Some x) \/
    (Forall (fun u => u !! k = None) upds /\ variable !! k = Some x).
Proof.
  induction upds as [|u upds IH]; intros variable k x Hdis.
  - simpl. split.
    + intros H. right. split; [constructor | exact H].
    + intros [(u & Hu & _) | [_ H]]; [now apply not_elem_of_nil in Hu | exact H].
  - destruct Hdis as [Hu Hdis]. change (written (u :: upds) variable)
      with (written upds (assign variable u)).
    rewrite (IH _ _ _ Hdis). unfold assign. rewrite lookup_union_Some_raw.
    split.
    + intros [(u' & Hin & Hk) | [Hnone [Hk | [Hk Hv]]]].
      * left. exists u'. split; [now apply list_elem_of_further | exact Hk].
      * left. exists u. split; [apply list_elem_of_here | exact Hk].
      * right. split; [now constructor | exact Hv].
    + intros [(u' & Hin & Hk) | [Hnone Hv]].
      * apply elem_of_cons in Hin as [-> | Hin].
        -- right. split; [| now left].
           apply Forall_forall. intros u'' Hin.
           rewrite Forall_forall in Hu. specialize (Hu u'' Hin).
           now apply (map_disjoint_Some_l u u'' k x).
        -- left. now exists u'.
      * inversion Hnone as [|? ? Hk Hrest]; subst. right. split; [exact Hrest |].
        right. now split.
Qed.

Lemma pairwiseDisjoint_perm (l l' : list (gmap string Value)) :
  l ≡ₚ l' -> pairwiseDisjoint l -> pairwiseDisjoint l'.
Proof.
  induction 1 as [|u l l' Hperm IH|u1 u2 l|l1 l2 l3 _ IH1 _ IH2]; simpl.
  - auto.
  - intros [Hu Hl]. split; [now rewrite <- Hperm | auto].
  - intros [[H12 H1]%Forall_cons [H2 Hl]].
    split; [constructor; [now symmetry | exact H2] | split; assumption].
  - auto.
Qed.

Lemma written_perm (l l' : list (gmap string Value)) (variable : gmap string Value) :
  l ≡ₚ l' -> pairwiseDisjoint l -> written l variable = written l' variable.
Proof.
  intros Hperm Hdis. apply map_eq. intros k. apply option_eq. intros x.
  rewrite (written_lookup l _ _ _ Hdis).
  rewrite (written_lookup l' _ _ _ (pairwiseDisjoint_perm _ _ Hperm Hdis)).
  split; intros [(u & Hin & Hk) | [Hnone Hv]].
  - left. exists u. now rewrite <- Hperm.
  - right. now rewrite <- Hperm.
  - left. exists u. now rewrite Hperm.
  - right. now rewrite Hperm.
Qed.

Lemma updates_perm (runs runs' : list GroupRun) :
  runs ≡ₚ runs' -> updates runs ≡ₚ updates runs'.
Proof. intros H. unfold updates. now rewrite H. Qed.

Lemma pruned_perm (ex : ResolverExecutor) (runs runs' : list GroupRun) :
  runs ≡ₚ runs' -> pruned ex runs = pruned ex runs'.
Proof.
  intros H. apply set_eq. intros c. rewrite !elem_of_pruned.
  split; intros (r & s & childServices & child & Hr & Hrest);
    exists r, s, childServices, child; (split; [| exact Hrest]).
  - now rewrite <- H.
  - now rewrite H.
Qed.

Lemma forallb_perm {A : Type} (p : A -> bool) (l l' : list A) :
  l ≡ₚ l' -> forallb p l = forallb p l'.
Proof.
  induction 1 as [|x l l' _ IH|x y l|l1 l2 l3 _ IH1 _ IH2]; simpl.
  - reflexivity.
  - now rewrite IH.
  - now destruct (p x), (p y).
  - congruence.
Qed.

(** The handlers of a level run in the order in which the promises settle.
    When the groups write different variables that order does not show in
    what the level settles to. *)
Lemma settle_order (ex : ResolverExecutor) (runs runs' : list GroupRun)
    (variable : gmap string Value) (nq : gset string) :
  runs ≡ₚ runs' ->
  pairwiseDisjoint (updates runs) ->
  settle ex runs variable nq = settle ex runs' variable nq.
Proof.
  intros Hperm Hdis. rewrite !settle_spec.
  rewrite (forallb_perm _ _ _ Hperm), (pruned_perm ex _ _ Hperm).
  now rewrite (written_perm _ _ variable (updates_perm _ _ Hperm) Hdis).
Qed.

End OrderFacts.

(** ** The registry *)

Section RegistryFacts.
Import Resolver Spec.

Lemma create_system (sys : string) :
  _isSystemResolverName sys = true ->
  ordmap_get sys create = Some (mkResolverValue [] systemCallback).
Proof.
  unfold _isSystemResolverName, SYSTEM_SERVICE, existsb.
  rewrite orb_false_r. intros <-%String.eqb_eq. reflexivity.
Qed.

Lemma registService_keeps_system (nm sys : string)
    (cb : list (gmap string Value) -> result (list (gmap string Value)))
    (model : ordmap (list Kind)) (resolvers resolvers' : ordmap ResolverValue) :
  registService nm cb model resolvers = Ok resolvers' ->
  _isSystemResolverName sys = true ->
  ordmap_get sys resolvers' = ordmap_get sys resolvers.
Proof.
  unfold registService, _validateSystemResolver.
  destruct (_isSystemResolverName nm) eqn:E; simpl; [discriminate |].
  intros [= <-] Hsys. apply ordmap_get_set_ne. congruence.
Qed.

Lemma registerAll_keeps_system (regs : list Registration) (sys : string) :
  _isSystemResolverName sys = true ->
  forall resolvers resolvers' : ordmap ResolverValue,
    registerAll regs resolvers = Ok resolvers' ->
    ordmap_get sys resolvers' = ordmap_get sys resolvers.
Proof.
  intros Hsys. induction regs as [|[[nm cb] model] regs IH]; intros rs rs'; simpl.
  - now intros [= <-].
  - destruct (registService nm cb model rs) as [rs1|] eqn:E; simpl; [| discriminate].
    intros H. rewrite (IH _ _ H).
    now apply (registService_keeps_system nm sys cb model).
Qed.

End RegistryFacts.

(** C6. In a registry obtained from [Resolver.create] by registrations, a
    system provider keeps the callback that throws a [SystemError].  A group
    of such a provider calls it with its batch and rejects with that error;
    the level then settles exactly as if the group were not there: nothing
    is thrown, nothing is assigned, and no child leaves the candidates of
    the next level. *)
Theorem C6_system_placeholder
    (regs : list Spec.Registration) (ex : ResolverExecutor) (sys : string)
    (services : list Service) (variable : gmap string Value) :
  Spec.registerAll regs Resolver.create = Ok (_resolvers ex) ->
  Resolver._isSystemResolverName sys = true ->
  let res :=
    Executor._resolve ex (ordmap_get sys (_resolvers ex)) services variable in
  Executor.invoked res = Some (map (Executor.buildArgs variable) services) /\
  Executor.outcome res = Throw SystemError /\
  forall (runs1 runs2 : list Executor.GroupRun) (v : gmap string Value)
         (nq : gset string),
    Executor.settle ex (runs1 ++ Executor.mkGroupRun sys services res :: runs2) v nq =
    Executor.settle ex (runs1 ++ runs2) v nq.
Proof.
  intros Hregs Hsys res.
  assert (res = Executor.mkResolution
                  (Some (map (Executor.buildArgs variable) services))
                  (Throw SystemError)) as Hres.
  { unfold res. rewrite (registerAll_keeps_system regs sys Hsys _ _ Hregs).
    rewrite (create_system sys Hsys). unfold Executor._resolve. simpl argsModel.
    now rewrite buildBatch_no_model. }
  rewrite Hres. repeat split.
  intros runs1 runs2 v nq. now apply settle_skip.
Qed.

(** On the template [Examples.greeter] the group of [Arguments] throws its
    [SystemError]: the override of [u] stays in the record and the child
    [h] of the system service is resolved at the next level with it. *)
Lemma C6_system_placeholder_witness :
  let ex := Examples.executor 5 Examples.registry Examples.greeter in
  let args : gmap string Value := {["u" := VString "kept"]} in
  Executor.outcome
    (Executor._resolve ex (ordmap_get "Arguments" (_resolvers ex))
       (default [] (ordmap_get "Arguments"
                      (queueGrouped (default (Resolver.group [])
                                       (_queueResolving ex !! 0)))))
       (Executor.initial ex args)) = Throw SystemError /\
  map (map (fun r => map key (Executor.group_services r))) (Executor.trace ex args) =
    [[["g"]; ["args"]]; [["h"]]] /\
  Executor.execute ex args =
    Ok {["hello" := VString "hi"; "s" := VString "Al"; "u" := VString "kept";
         "z" := VString "kept"]}.
Proof.
  intros ex args. split.
  - refine (proj1 (proj2 (C6_system_placeholder Examples.plain ex "Arguments"
                            _ _ _ _))); vm_compute; reflexivity.
  - split; vm_compute; reflexivity.
Defined.

(** ** Grouping and batching *)

Section GroupingFacts.
Import Executor Resolver Spec.

Lemma ordmap_has_keys {A : Type} (k : string) (m : ordmap A) :
  ordmap_has k m = true <-> k ∈ ordmap_keys m.
Proof.
  unfold ordmap_has, ordmap_get, ordmap_keys.
  induction m as [|[k' v'] m IH]; simpl.
  - split; [discriminate | intros H; now apply not_elem_of_nil in H].
  - destruct (String.eqb k' k) eqn:E; simpl.
    + apply String.eqb_eq in E. subst. split; [intros _; apply list_elem_of_here | auto].
    + rewrite IH. rewrite elem_of_cons. split; [auto |].
      intros [-> | H]; [| exact H]. rewrite String.eqb_refl in E. discriminate.
Qed.

Lemma ordmap_set_keys {A : Type} (k : string) (v : A) (m : ordmap A) :
  ordmap_keys (ordmap_set k v m) =
    if ordmap_has k m then ordmap_keys m else ordmap_keys m ++ [k].
Proof.
  unfold ordmap_has, ordmap_get, ordmap_keys.
  induction m as [|[k' v'] m IH]; simpl; [reflexivity |].
  destruct (String.eqb k' k) eqn:E; simpl.
  - apply String.eqb_eq in E. now subst.
  - rewrite IH. now destruct (find _ m).
Qed.

Lemma ordmap_set_NoDup {A : Type} (k : string) (v : A) (m : ordmap A) :
  NoDup (ordmap_keys m) -> NoDup (ordmap_keys (ordmap_set k v m)).
Proof.
  intros H. rewrite ordmap_set_keys. destruct (ordmap_has k m) eqn:E; [exact H |].
  apply NoDup_app. repeat split; auto.
  - intros x Hx ->%list_elem_of_singleton.
    apply ordmap_has_keys in Hx. congruence.
  - apply NoDup_singleton.
Qed.

Lemma groupByField_snoc (q : list Service) (x : Service) :
  groupByField (q ++ [x]) =
    match ordmap_get (name x) (groupByField q) with
    | Some grp => ordmap_set (name x) (grp ++ [x]) (groupByField q)
    | None => ordmap_set (name x) [x] (groupByField q)
    end.
Proof. unfold groupByField. now rewrite fold_left_app. Qed.

Lemma groupByField_NoDup (q : list Service) : NoDup (ordmap_keys (groupByField q)).
Proof.
  induction q as [|x q IH] using rev_ind.
  - apply NoDup_nil_2.
  - rewrite groupByField_snoc.
    destruct (ordmap_get (name x) (groupByField q)); now apply ordmap_set_NoDup.
Qed.

Lemma groupByField_get (q : list Service) (nm : string) :
  ordmap_get nm (groupByField q) =
    match filter (fun s => name s = nm) q with
    | [] => None
    | grp => Some grp
    end.
Proof.
  induction q as [|x q IH] using rev_ind; [reflexivity |].
  rewrite groupByField_snoc, filter_app.
  destruct (decide (name x = nm)) as [<- | Hne].
  - rewrite filter_cons_True, filter_nil by reflexivity.
    rewrite IH. destruct (filter _ q) as [|y grp].
    + now rewrite ordmap_get_set_eq.
    + now rewrite ordmap_get_set_eq.
  - rewrite filter_cons_False, filter_nil, app_nil_r by exact Hne.
    rewrite <- IH.
    destruct (ordmap_get (name x) (groupByField q)); now apply ordmap_get_set_ne.
Qed.

Lemma filter_key_absent {A : Type} (m : ordmap A) (k : string) :
  k ∉ ordmap_keys m -> filter (fun kv => fst kv = k) m = [].
Proof.
  unfold ordmap_keys. induction m as [|[k' v'] m IH]; simpl; [reflexivity |].
  intros [Hne Hm]%not_elem_of_cons.
  rewrite filter_cons_False by (simpl; congruence). auto.
Qed.

Lemma ordmap_filter_key {A : Type} (m : ordmap A) (k : string) (v : A) :
  NoDup (ordmap_keys m) -> ordmap_get k m = Some v ->
  filter (fun kv => fst kv = k) m = [(k, v)].
Proof.
  unfold ordmap_get.
  induction m as [|[k' v'] m IH]; simpl; [discriminate |].
  intros [Hk' Hm]%NoDup_cons.
  destruct (String.eqb k' k) eqn:E; simpl.
  - apply String.eqb_eq in E. subst k'. intros [= ->].
    rewrite filter_cons_True by reflexivity. f_equal.
    now apply filter_key_absent.
  - intros H. rewrite filter_cons_False.
    + now apply IH.
    + simpl. intros ->. rewrite String.eqb_refl in E. discriminate.
Qed.

Lemma filter_map_key {A B : Type} (f : string * A -> B) (g : B -> string)
    (m : ordmap A) (k : string) :
  (forall kv, g (f kv) = fst kv) ->
  filter (fun b => g b = k) (map f m) = map f (filter (fun kv => fst kv = k) m).
Proof.
  intros Hg. induction m as [|kv m IH]; simpl; [reflexivity |].
  destruct (decide (fst kv = k)) as [E | E].
  - rewrite !filter_cons_True by (rewrite ?Hg; exact E). simpl. now rewrite IH.
  - rewrite !filter_cons_False by (rewrite ?Hg; exact E). exact IH.
Qed.

Lemma filter_all {A : Type} (P : A -> Prop) `{forall x, Decision (P x)} (l : list A) :
  Forall P l -> filter P l = l.
Proof.
  induction 1 as [|x l Hx Hl IH]; [reflexivity |].
  rewrite filter_cons_True by exact Hx. now rewrite IH.
Qed.

Lemma filter_in_toSet (q grp : list Service) :
  grp ⊆ q -> filter (fun s => key s ∈ toSet q) grp = grp.
Proof.
  intros Hsub. apply filter_all. apply Forall_forall. intros s Hs.
  unfold toSet. apply elem_of_list_to_set, list_elem_of_In, in_map.
  apply list_elem_of_In. auto.
Qed.

Lemma collect_zip (models : gmap string (ordmap (list string))) :
  forall (svcs : list Service) (i : nat) (res : list (gmap string Value))
         (upd : gmap string Value),
    modelled models svcs = true ->
    i + length svcs <= length res ->
    collect models svcs i res upd =
      Ok (fold_left
            (fun upd '(s, record) =>
               copyFields (default [] (models !! key s)) record upd)
            (zip svcs (drop i res)) upd).
Proof.
  induction svcs as [|s svcs IH]; intros i res upd Hm Hlen; simpl.
  - reflexivity.
  - simpl in Hm, Hlen. apply andb_true_iff in Hm as [Hs Hm].
    destruct (models !! key s) as [model|] eqn:Em; [| discriminate].
    destruct (res !! i) as [record|] eqn:E.
    + rewrite (drop_S _ _ _ E). simpl. rewrite IH by (auto || lia).
      now rewrite Em.
    + apply lookup_ge_None in E. lia.
Qed.

Lemma filter_comm {A : Type} (P Q : A -> Prop)
    `{forall x, Decision (P x)} `{forall x, Decision (Q x)} (l : list A) :
  filter P (filter Q l) = filter Q (filter P l).
Proof.
  induction l as [|x l IH]; [reflexivity |].
  destruct (decide (P x)) as [HP | HP], (decide (Q x)) as [HQ | HQ].
  - rewrite (filter_cons_True Q), (filter_cons_True P), (filter_cons_True P),
      (filter_cons_True Q) by assumption. now rewrite IH.
  - rewrite (filter_cons_False Q), (filter_cons_True P), (filter_cons_False Q)
      by assumption. exact IH.
  - rewrite (filter_cons_True Q), (filter_cons_False P), (filter_cons_False P)
      by assumption. exact IH.
  - rewrite (filter_cons_False Q), (filter_cons_False P) by assumption. exact IH.
Qed.

Lemma roots_values (ctx : ResolverContext) :
  ordmap_values (_calculateRootServices ctx) =
    filter (fun s => dependenciesCount (variables ctx) s = 0)
           (ordmap_values (services ctx)).
Proof.
  unfold _calculateRootServices, ordmap_values.
  induction (services ctx) as [|[k s] m IH]; [reflexivity |]. simpl.
  destruct (decide (dependenciesCount (variables ctx) s = 0)) as [E | E].
  - rewrite !filter_cons_True by exact E. simpl. now rewrite IH.
  - rewrite !filter_cons_False by exact E. exact IH.
Qed.

Lemma queue_head (fuel : nat) (ch : gmap string (ordmap Service))
    (roots : ordmap Service) (qr : list (list Service)) (l : list Service) :
  _calculateQueueResolving fuel ch roots = Some qr ->
  qr !! 0 = Some l -> l = ordmap_values roots.
Proof.
  destruct roots as [|kv roots]; simpl.
  - destruct fuel; intros [= <-]; discriminate.
  - destruct fuel as [|fuel]; [discriminate |].
    change (_calculateQueueResolving (S fuel) ch (kv :: roots))
      with (cons (ordmap_values (kv :: roots)) <$>
              _calculateQueueResolving fuel ch (nextServices ch (kv :: roots))).
    match goal with
    | |- context [_calculateQueueResolving fuel ch ?next] =>
        destruct (_calculateQueueResolving fuel ch next) as [rest|]
    end; simpl; [| discriminate].
    intros [= <-]. simpl. now intros [= <-].
Qed.

Lemma buildResolver_plan (fuel : nat) (resolvers : ordmap ResolverValue)
    (ctx : ResolverContext) (ex : ResolverExecutor) :
  buildResolver fuel resolvers ctx = Some (Ok ex) ->
  exists ch qr,
    _calculateChildrenServices ctx = Ok ch /\
    _calculateQueueResolving fuel ch (_calculateRootServices ctx) = Some qr /\
    _queueResolving ex = map group qr /\
    _childrenServices ex = ch /\
    _resolvers ex = resolvers.
Proof.
  unfold buildResolver.
  destruct (_validateAvailabilityServices _ _); simpl; [| discriminate].
  destruct (_validateServiceProvideNames _ _); simpl; [| discriminate].
  destruct (_calculateChildrenServices ctx) as [ch|]; [| discriminate].
  destruct (_calculateQueueResolving fuel ch _) as [qr|] eqn:Eqr; simpl;
    [| discriminate].
  destruct (scanVariables (variables ctx)) as [[vb sm]|]; simpl; [| discriminate].
  intros [= <-]. exists ch, qr. simpl. repeat split; auto.
Qed.

Lemma buildResolver_tables (fuel : nat) (resolvers : ordmap ResolverValue)
    (ctx : ResolverContext) (ex : ResolverExecutor) :
  buildResolver fuel resolvers ctx = Some (Ok ex) ->
  scanVariables (variables ctx) = Ok (_variableBase ex, _serviceModels ex) /\
  _context ex = ctx.
Proof.
  unfold buildResolver.
  destruct (_ ← _; _) as [ch|]; [| now intros [= <-]].
  destruct (_calculateQueueResolving fuel ch _) as [qr|]; simpl; [| discriminate].
  destruct (scanVariables (variables ctx)) as [[vb sm]|]; simpl; [| discriminate].
  now intros [= <-].
Qed.

End GroupingFacts.

Lemma filter_none {A : Type} (P : A -> Prop) `{forall x, Decision (P x)} (l : list A) :
  Forall (fun x => ~ P x) l -> filter P l = [].
Proof.
  induction 1 as [|x l Hx Hl IH]; [reflexivity |].
  now rewrite filter_cons_False.
Qed.

Lemma pruned_no_services (ex : ResolverExecutor) (r : Executor.GroupRun) :
  Executor.group_services r = [] -> Spec.pruned ex [r] = ∅.
Proof.
  intros Hr. unfold Spec.pruned.
  destruct (decide (Spec.isolated r = true)) as [Hiso | Hiso].
  - rewrite filter_cons_True by exact Hiso. simpl. now rewrite Hr.
  - now rewrite filter_cons_False by exact Hiso.
Qed.

(** C10, as the code has it.  When a level is run and every instance of one
    of its groups is outside the candidate set, the callback of the group
    is still called, once and with the empty batch; whatever it does, the
    group assigns nothing to the record and prunes nothing.  But a level
    whose whole candidate set is empty is not run at all: the loop stops
    before it (see the counterexample). *)
Theorem C10_empty_batch :
  (forall (ex : ResolverExecutor) (q : list Service) (cq : gset string)
          (variable : gmap string Value) (nm : string) (grp : list Service)
          (rv : ResolverValue),
      let runs := Executor.runLevel ex (Resolver.group q) cq variable in
      ordmap_get nm (Resolver.groupByField q) = Some grp ->
      forallb (fun s => bool_decide (key s ∉ cq)) grp = true ->
      ordmap_get nm (_resolvers ex) = Some rv ->
      exists r,
        filter (fun r => Executor.serviceName r = nm) runs = [r] /\
        Executor.group_services r = [] /\
        Executor.invoked (Executor.resolution r) = Some [] /\
        Executor.outcome (Executor.resolution r) = (_ ← callback rv []; Ok ∅) /\
        (forall v, Spec.written (Spec.updates [r]) v = v) /\
        Spec.pruned ex [r] = ∅) /\
  (forall (ex : ResolverExecutor) (lvl : QueueResolving)
          (rest : list QueueResolving) (cq : gset string)
          (variable v' : gmap string Value) (nq' : gset string),
      Executor.settle ex (Executor.runLevel ex lvl cq variable) variable
        (Executor.toSet (match rest with [] => [] | nxt :: _ => queue nxt end)) =
        Ok (v', nq') ->
      size nq' = 0 ->
      Executor.loop ex (lvl :: rest) cq variable =
        ([Executor.runLevel ex lvl cq variable], Ok v')).
Proof.
  split.
  - intros ex q cq variable nm grp rv runs Hget Hout Hrv.
    assert (filter (fun s => key s ∈ cq) grp = []) as Hnone.
    { apply filter_none, Forall_forall. intros s Hs.
      rewrite forallb_forall in Hout.
      apply list_elem_of_In, Hout in Hs. now apply bool_decide_eq_true in Hs. }
    eexists. split; [| split; [| split; [| split; [| split]]]].
    + unfold runs, Executor.runLevel. simpl queueGrouped.
      rewrite (filter_map_key _ Executor.serviceName) by (now intros [k g]).
      rewrite (ordmap_filter_key _ nm grp (groupByField_NoDup q) Hget).
      simpl. rewrite Hnone, Hrv. reflexivity.
    + reflexivity.
    + reflexivity.
    + simpl. now destruct (callback rv []).
    + intros v. unfold Spec.updates, Spec.written. simpl.
      destruct (callback rv []); simpl; [| reflexivity].
      unfold assign. apply (left_id_L ∅ (∪)).
    + now apply pruned_no_services.
  - intros ex lvl rest cq variable v' nq' Hsettle Hsize. simpl.
    rewrite Hsettle. now rewrite bool_decide_eq_true_2.
Qed.

(** On the template [Examples.orphan] the root [a] fails; at the next level
    the group of [Echo] has lost its only instance [b], and its callback is
    called with the empty batch while the group of [Good] resolves [e]. *)
Lemma C10_empty_batch_witness :
  let ex := Examples.executor 5 Examples.registry Examples.orphan in
  let q := default [] (queue <$> _queueResolving ex !! 1) in
  (exists r,
      filter (fun r => Executor.serviceName r = "Echo")
        (Executor.runLevel ex (Resolver.group q) {["e"]}
           {["k" := VString "k"; "vc" := VString "ok"]}) = [r] /\
      Executor.invoked (Executor.resolution r) = Some []) /\
  map (map (fun r => (Executor.serviceName r,
                      Executor.invoked (Executor.resolution r))))
      (Executor.trace ex ∅) =
    [[("Fail", Some [{["x" := VString "k"]}]);
      ("Good", Some [{["x" := VString "k"]}])];
     [("Echo", Some []); ("Good", Some [{["x" := VString "ok"]}])]] /\
  Executor.execute ex ∅ =
    Ok {["k" := VString "k"; "vc" := VString "ok"; "ve" := VString "ok"]}.
Proof.
  intros ex q. split; [| split; vm_compute; reflexivity].
  destruct (proj1 C10_empty_batch ex q {["e"]}
              {["k" := VString "k"; "vc" := VString "ok"]} "Echo"
              (default [] (ordmap_get "Echo" (Resolver.groupByField q)))
              (mkResolverValue [] Examples.echo))
    as (r & Hr & _ & Hinv & _).
  - vm_compute. reflexivity.
  - vm_compute. reflexivity.
  - vm_compute. reflexivity.
  - exists r. split; assumption.
Defined.

(** C10 as stated fails when the pruning empties the whole candidate set.
    On the template [Examples.chain] the second level holds the group of
    [Good] with the single instance [b], the direct child of the root [a]
    whose group fails; the loop stops after the first level and the
    callback of [Good] is never called. *)
Lemma C10_counterexample :
  let ex := Examples.executor 5 Examples.registry Examples.chain in
  map (fun lvl => map (fun kv => (fst kv, map key (snd kv))) (queueGrouped lvl))
      (_queueResolving ex) = [[("Fail", ["a"])]; [("Good", ["b"])]] /\
  Spec.pruned ex (default [] (Executor.trace ex ∅ !! 0)) = {["b"]} /\
  map (map (fun r => (Executor.serviceName r,
                      Executor.invoked (Executor.resolution r))))
      (Executor.trace ex ∅) = [[("Fail", Some [{["x" := VString "k"]}])]] /\
  Executor.execute ex ∅ = Ok {["k" := VString "k"]}.
Proof.
  intros ex. repeat split; vm_compute; reflexivity.
Qed.

(** ** Plans without references *)

Section PlanFacts.
Import Resolver Spec.

Lemma noRef_get (vars : ordmap Descriptor) (k : string) :
  forallb (fun kv => negb (isRef (Some (snd kv)))) vars = true ->
  isRef (ordmap_get k vars) = false.
Proof.
  unfold ordmap_get. induction vars as [|[k' d] vars IH]; simpl; [reflexivity |].
  intros [Hd Hvars]%andb_true_iff. destruct (String.eqb k' k); simpl.
  - now apply negb_true_iff in Hd.
  - auto.
Qed.

Lemma noRef_count (vars : ordmap Descriptor) (s : Service) :
  forallb (fun kv => negb (isRef (Some (snd kv)))) vars = true ->
  dependenciesCount vars s = 0.
Proof.
  intros H. unfold dependenciesCount. rewrite filter_none; [reflexivity |].
  apply Forall_forall. intros d _. now rewrite noRef_get.
Qed.

Lemma noRef_roots (ctx : ResolverContext) :
  noReferences ctx = true -> _calculateRootServices ctx = services ctx.
Proof.
  intros H. unfold _calculateRootServices. apply filter_all, Forall_forall.
  intros kv _. now apply noRef_count.
Qed.

Lemma noRef_childrenFrom (ctx : ResolverContext) (vars : ordmap Descriptor)
    (ch : gmap string (ordmap Service)) :
  forallb (fun kv => negb (isRef (Some (snd kv)))) vars = true ->
  childrenFrom ctx vars ch = Ok ch.
Proof.
  induction vars as [|[k d] vars IH]; simpl; [reflexivity |].
  intros [Hd Hvars]%andb_true_iff. destruct d; [auto | discriminate].
Qed.

Lemma nextServices_no_children (svcs : ordmap Service) : nextServices ∅ svcs = [].
Proof.
  unfold nextServices. induction (ordmap_keys svcs) as [|k ks IH]; simpl;
    [reflexivity |].
  now rewrite lookup_empty.
Qed.

Lemma queue_no_children (fuel : nat) (svcs : ordmap Service) :
  0 < fuel ->
  _calculateQueueResolving fuel ∅ svcs =
    Some (match svcs with [] => [] | _ => [ordmap_values svcs] end).
Proof.
  intros Hfuel. destruct fuel as [|fuel]; [lia |].
  destruct svcs as [|kv svcs]; [reflexivity |].
  change (_calculateQueueResolving (S fuel) ∅ (kv :: svcs))
    with (cons (ordmap_values (kv :: svcs)) <$>
            _calculateQueueResolving fuel ∅ (nextServices ∅ (kv :: svcs))).
  rewrite nextServices_no_children. now destruct fuel.
Qed.

Lemma noRef_scan (vars : ordmap Descriptor) :
  forallb (fun kv => negb (isRef (Some (snd kv)))) vars = true ->
  forall acc, exists acc', scanFrom vars acc = Ok acc'.
Proof.
  induction vars as [|[k [c | f s]] vars IH]; simpl; intros Href acc.
  - eauto.
  - destruct acc as [vb sm]. simpl. apply IH, Href.
  - discriminate.
Qed.

End PlanFacts.

(** C8, as the code has it.  For a context without reference variables the
    level loop ends at once, so that [buildResolver] returns; when the two
    validations pass it returns a plan, and the plan has one level, holding
    every service of the context in the order of the declarations, if the
    context has a service, and no level at all if it has none. *)
Theorem C8_levels_without_references
    (fuel : nat) (resolvers : ordmap ResolverValue) (ctx : ResolverContext) :
  Spec.noReferences ctx = true ->
  0 < fuel ->
  (exists r, Resolver.buildResolver fuel resolvers ctx = Some r) /\
  (Resolver._validateAvailabilityServices resolvers (ordmap_values (services ctx))
     = Ok tt ->
   Resolver._validateServiceProvideNames resolvers (ordmap_values (services ctx))
     = Ok tt ->
   exists ex, Resolver.buildResolver fuel resolvers ctx = Some (Ok ex)) /\
  (forall ex,
      Resolver.buildResolver fuel resolvers ctx = Some (Ok ex) ->
      map queue (_queueResolving ex) =
        match services ctx with
        | [] => []
        | _ => [ordmap_values (services ctx)]
        end).
Proof.
  intros Href Hfuel. unfold Resolver.buildResolver.
  unfold Resolver._calculateChildrenServices.
  rewrite (noRef_childrenFrom ctx _ ∅ Href), (noRef_roots ctx Href).
  destruct (Resolver._validateAvailabilityServices _ _) as [[]|e1]; simpl.
  - destruct (Resolver._validateServiceProvideNames _ _) as [[]|e2]; simpl.
    + rewrite (queue_no_children fuel _ Hfuel). simpl.
      destruct (noRef_scan _ Href (∅, ∅)) as [[vb sm] Hscan].
      unfold Resolver.scanVariables. rewrite Hscan. simpl.
      split; [eauto |]. split; [eauto |].
      intros ex [= <-]. simpl. now destruct (services ctx).
    + split; [eauto |]. split; [discriminate | discriminate].
  - split; [eauto |]. split; [discriminate | discriminate].
Qed.

(** The template [Examples.unread] has two services and no reference: its
    plan is the single level of both. *)
Lemma C8_levels_witness :
  exists ex,
    Resolver.buildResolver 1 Examples.registry (Examples.context Examples.unread)
      = Some (Ok ex) /\
    map (map key) (map queue (_queueResolving ex)) = [["x"; "y"]].
Proof.
  destruct (C8_levels_without_references 1 Examples.registry
              (Examples.context Examples.unread)) as (_ & Hex & Hlevels).
  - vm_compute. reflexivity.
  - lia.
  - destruct Hex as [ex Hex]; [vm_compute; reflexivity .. |].
    exists ex. split; [exact Hex |].
    rewrite (Hlevels ex Hex). vm_compute. reflexivity.
Defined.

(** C8 as stated fails for a context without services.  The template
    [Examples.constants] declares constants only: its context has no
    reference, the plan is built, and it has no level. *)
Lemma C8_counterexample :
  Spec.noReferences (Examples.context Examples.constants) = true /\
  variables (Examples.context Examples.constants) =
    [("a", VariableConst "x"); ("b", VariableConst "x")] /\
  exists ex,
    Resolver.buildResolver 1 Resolver.create (Examples.context Examples.constants)
      = Some (Ok ex) /\
    length (_queueResolving ex) = 0.
Proof.
  split; [vm_compute; reflexivity |]. split; [vm_compute; reflexivity |].
  eexists. split; vm_compute; reflexivity.
Qed.

(** ** Validation of argument records *)

(** What the validator accepts for one key: a string when the kinds include
    ['string'], and an array of strings only when they include ['string[]']
    and not ['string']. *)
Lemma check_spec (types : list Kind) (value : Value) :
  Executor.check types value =
    (Executor.has KString types && Executor.isString value)
    || (negb (Executor.has KString types)
        && Executor.has KStringArray types && Executor.isArrayStrings value).
Proof.
  unfold Executor.check.
  destruct (Executor.has KString types), (Executor.has KStringArray types);
    simpl; now rewrite ?orb_false_r.
Qed.

(** A service line whose right-hand side does not match [REGEXP_SERVICE]
    leaves the context as it is and raises nothing. *)
Lemma parseDataSeviceLine_no_match (nm line : string) (ctx : ResolverContext) :
  Parser.test Parser.REGEXP_SERVICE line = false ->
  Parser.parseDataSeviceLine nm line ctx = Ok ctx.
Proof.
  intros H. unfold Parser.parseDataSeviceLine, Parser.exec_SERVICE.
  now rewrite H.
Qed.

(** C2 at the failing input.  The provider [Multi] declares for its
    argument [a] the kinds ['string'] and ['string[]'].  An array of
    strings is of the second kind, but the validator looks at the first
    kind only: the argument record is rejected and [execute] fails with a
    [TypingError], while a string passes. *)
Theorem C2_array_rejected_under_both_kinds :
  Executor.isArrayStrings (VArray [IString "x"]) = true /\
  Executor.check [KString; KStringArray] (VArray [IString "x"]) = false /\
  Executor.validator [("a", [KString; KStringArray])]
    {["a" := VArray [IString "x"]]} = Throw TypingError /\
  Executor.execute
    (Examples.executor 5 Examples.registryMulti Examples.multi)
    {["v" := VArray [IString "x"]]} = Throw TypingError /\
  Executor.execute
    (Examples.executor 5 Examples.registryMulti Examples.multi) ∅ =
    Ok {["out" := VString "ok"; "v" := VString "c"]}.
Proof. repeat split; vm_compute; reflexivity. Qed.

(** C3 at the failing input.  The right-hand side [lowercase] of the
    service line is not a provider name, yet the parse succeeds and the
    resulting context has no service: the declaration is dropped.  The same
    mistake on a variable line is a [TemplaterError]. *)
Theorem C3_malformed_service_line_is_dropped :
  Parser.parse "#data
@g = lowercase
#view(ab)" =
    Ok (Parser.mkParsed [("ab", Parser.mkView "ab" "default" EmptyString)]
          Context.empty) /\
  Parser.parseDataLine "@g = lowercase" Context.empty = Ok Context.empty /\
  Parser.parseDataLine "@g = Greeter { a = $b }" Context.empty = Ok Context.empty /\
  Parser.parseDataLine "$g = lowercase" Context.empty = Throw TemplaterError.
Proof. repeat split; vm_compute; reflexivity. Qed.

(** ** The order of settlement in a built plan *)

Section WellFormed.
Import Parser Spec.

Lemma ordmap_set_in {A : Type} (k : string) (v : A) (m : ordmap A) (x : string * A) :
  x ∈ ordmap_set k v m -> x ∈ m \/ x = (k, v).
Proof.
  induction m as [|[k' v'] m IH]; simpl.
  - intros ->%list_elem_of_singleton. now right.
  - destruct (String.eqb k' k).
    + intros [-> | H]%elem_of_cons; [now right | left; now apply list_elem_of_further].
    + intros [-> | H]%elem_of_cons; [left; apply list_elem_of_here |].
      destruct (IH H) as [H' | H']; [left; now apply list_elem_of_further | now right].
Qed.

Lemma ordmap_get_in {A : Type} (k : string) (v : A) (m : ordmap A) :
  ordmap_get k m = Some v -> (k, v) ∈ m.
Proof.
  unfold ordmap_get. induction m as [|[k' v'] m IH]; simpl; [discriminate |].
  destruct (String.eqb k' k) eqn:E; simpl.
  - apply String.eqb_eq in E. subst. intros [= ->]. apply list_elem_of_here.
  - intros H. apply list_elem_of_further. auto.
Qed.

Lemma keyed_set (k nm : string) (deps : list Dependency) (m : ordmap Service) :
  keyed m -> keyed (ordmap_set k (mkService k nm deps) m).
Proof.
  intros [Hnd Hk]. split; [now apply ordmap_set_NoDup |].
  apply Forall_forall. intros x [Hx | ->]%ordmap_set_in; [| reflexivity].
  rewrite Forall_forall in Hk. auto.
Qed.

Lemma keyed_set_entry (k : string) (s : Service) (m : ordmap Service) :
  key s = k -> keyed m -> keyed (ordmap_set k s m).
Proof.
  intros Hs [Hnd Hk]. split; [now apply ordmap_set_NoDup |].
  apply Forall_forall. intros x [Hx | ->]%ordmap_set_in; [| exact Hs].
  rewrite Forall_forall in Hk. auto.
Qed.

Lemma parseDataLine_wf (line : string) (ctx ctx' : ResolverContext) :
  wfContext ctx -> parseDataLine line ctx = Ok ctx' -> wfContext ctx'.
Proof.
  intros [Hv Hs]. unfold parseDataLine.
  destruct (Js.split "=" line) as [|k assigns]; [discriminate |].
  destruct (negb _); [discriminate |]. destruct (test _ _); [discriminate |].
  destruct (Js.startsWith _ _).
  - unfold parseDataSeviceLine. destruct (exec_SERVICE _) as [[nm args]|].
    + destruct (match args with Some a => _ | None => _ end) as [deps|];
        simpl; [| discriminate].
      intros [= <-]. split; [exact Hv | now apply keyed_set].
    + now intros [= <-].
  - unfold parseDataVariableLine. destruct (test _ _).
    + intros [= <-]. split; [now apply ordmap_set_NoDup | exact Hs].
    + destruct (exec_VARIABLE _) as [[fk [svc|]]|]; try discriminate.
      * intros [= <-]. split; [now apply ordmap_set_NoDup | exact Hs].
      * destruct (ordmap_get _ _); [| discriminate].
        intros [= <-]. split; [now apply ordmap_set_NoDup | exact Hs].
Qed.

Lemma parseDataLines_wf (prepared : list string) :
  forall ctx ctx' : ResolverContext,
    wfContext ctx -> parseDataLines prepared ctx = Ok ctx' -> wfContext ctx'.
Proof.
  induction prepared as [|line rest IH]; intros ctx ctx' Hwf; simpl.
  - now intros [= <-].
  - destruct (parseDataLine _ ctx) as [ctx1|] eqn:E; simpl; [| discriminate].
    apply IH. exact (parseDataLine_wf _ ctx ctx1 Hwf E).
Qed.

(** The context of a parsed template is well formed. *)
Lemma parse_wf (txt : string) (p : Parsed) :
  parse txt = Ok p -> wfContext (resolverContext p).
Proof.
  unfold parse. destruct (splitRegions txt) as [[data views]|]; simpl; [| discriminate].
  destruct (parseViewRegions views) as [regions|]; simpl; [| discriminate].
  destruct (parseDataRegion data Context.empty) as [ctx|] eqn:E; simpl; [| discriminate].
  intros [= <-]. simpl. unfold parseDataRegion in E.
  destruct data as [|head lines]; [discriminate |].
  destruct (validateDataHead head); simpl in E; [| discriminate].
  refine (parseDataLines_wf _ _ _ _ E).
  repeat split; constructor.
Qed.

End WellFormed.

Section PlanShape.
Import Resolver Spec.

Lemma keyed_nil : keyed [].
Proof. split; constructor. Qed.

Lemma keyed_default (ch : gmap string (ordmap Service)) (k : string) :
  childrenKeyed ch -> keyed (default [] (ch !! k)).
Proof.
  intros H. destruct (ch !! k) as [m|] eqn:E; simpl; [eauto | apply keyed_nil].
Qed.

Lemma childrenKeyed_insert (ch : gmap string (ordmap Service)) (k : string)
    (m : ordmap Service) :
  childrenKeyed ch -> keyed m -> childrenKeyed (<[k := m]> ch).
Proof.
  intros Hch Hm p m'. rewrite lookup_insert. destruct (decide (k = p)).
  - now intros [= <-].
  - apply Hch.
Qed.

Lemma addEdge_keyed (p c : string) (s : Service) (ch : gmap string (ordmap Service)) :
  key s = c -> childrenKeyed ch -> childrenKeyed (addEdge p c s ch).
Proof.
  intros Hs Hch. unfold addEdge.
  assert (childrenKeyed (<[p := ordmap_set c s (default [] (ch !! p))]> ch)) as H1.
  { apply childrenKeyed_insert; [exact Hch |].
    apply keyed_set_entry; [exact Hs | now apply keyed_default]. }
  apply childrenKeyed_insert; [exact H1 |].
  destruct (ch !! c); [now apply keyed_default | apply keyed_nil].
Qed.

Lemma addChild_keyed (vars : ordmap Descriptor) (c : string) (s : Service)
    (ch : gmap string (ordmap Service)) :
  key s = c -> childrenKeyed ch -> childrenKeyed (addChild vars c s ch).
Proof.
  intros Hs. unfold addChild. revert ch.
  induction (dependencies s) as [|d ds IH]; intros ch Hch; simpl; [exact Hch |].
  apply IH. destruct (ordmap_get (variableName d) vars) as [[|fk p]|]; auto.
  now apply addEdge_keyed.
Qed.

Lemma keyed_get (m : ordmap Service) (k : string) (s : Service) :
  keyed m -> ordmap_get k m = Some s -> key s = k.
Proof.
  intros [_ Hk] H%ordmap_get_in. rewrite Forall_forall in Hk.
  exact (Hk _ H).
Qed.

Lemma childrenFrom_keyed (ctx : ResolverContext) (vars : ordmap Descriptor) :
  keyed (services ctx) ->
  forall ch ch' : gmap string (ordmap Service),
    childrenKeyed ch -> childrenFrom ctx vars ch = Ok ch' -> childrenKeyed ch'.
Proof.
  intros Hs. induction vars as [|[k d] vars IH]; intros ch ch' Hch; simpl.
  - now intros [= <-].
  - destruct d as [|fk c]; [now apply IH |].
    destruct (ordmap_get c (services ctx)) as [s|] eqn:E; [| discriminate].
    apply IH. apply addChild_keyed; [| exact Hch]. exact (keyed_get _ _ _ Hs E).
Qed.

Lemma nextServices_keyed (ch : gmap string (ordmap Service)) (svcs : ordmap Service) :
  childrenKeyed ch -> keyed (nextServices ch svcs).
Proof.
  intros Hch. unfold nextServices.
  assert (forall (ks : list string) (acc : ordmap Service),
             keyed acc ->
             keyed (fold_left
                      (fun next serviceName =>
                         match ch !! serviceName with
                         | None => next
                         | Some childs =>
                             fold_left (fun next '(k, s) => ordmap_set k s next)
                                       childs next
                         end) ks acc)) as H.
  { induction ks as [|k ks IH]; intros acc Hacc; simpl; [exact Hacc |].
    apply IH. destruct (ch !! k) as [childs|] eqn:E; [| exact Hacc].
    destruct (Hch _ _ E) as [_ Hk]. clear E. revert acc Hacc.
    induction childs as [|[k' s'] childs IHc]; intros acc Hacc; simpl; [exact Hacc |].
    inversion Hk as [|? ? Hhd Htl]; subst. apply IHc; [exact Htl |].
    now apply keyed_set_entry. }
  apply H, keyed_nil.
Qed.

Lemma keyed_values (m : ordmap Service) : keyed m -> NoDup (map key (ordmap_values m)).
Proof.
  intros [Hnd Hk]. unfold ordmap_values, ordmap_keys in *.
  rewrite map_map. erewrite map_ext_Forall; [exact Hnd |]. exact Hk.
Qed.

Lemma keyed_filter (P : string * Service -> Prop) `{forall x, Decision (P x)}
    (m : ordmap Service) :
  keyed m -> keyed (filter P m).
Proof.
  intros [Hnd Hk]. split.
  - unfold ordmap_keys in *. induction m as [|kv m IH]; [constructor |].
    simpl in Hnd. apply NoDup_cons in Hnd as [Hhd Htl].
    inversion Hk as [|? ? _ Hk']; subst.
    destruct (decide (P kv)).
    + rewrite filter_cons_True by assumption. simpl. apply NoDup_cons. split; auto.
      intros Hin. apply Hhd. apply list_elem_of_In, in_map_iff in Hin as (x & Hx & Hin).
      apply list_elem_of_In, list_elem_of_filter in Hin as [_ Hin].
      apply list_elem_of_In, in_map_iff. exists x. split; [exact Hx |].
      now apply list_elem_of_In.
    + rewrite filter_cons_False by assumption. auto.
  - apply Forall_forall. intros x [_ Hx]%list_elem_of_filter.
    rewrite Forall_forall in Hk. auto.
Qed.

Lemma queue_keyed (ch : gmap string (ordmap Service)) (fuel : nat) :
  childrenKeyed ch ->
  forall (svcs : ordmap Service) (qr : list (list Service)),
    keyed svcs ->
    _calculateQueueResolving fuel ch svcs = Some qr ->
    Forall (fun q => NoDup (map key q)) qr.
Proof.
  intros Hch. induction fuel as [|fuel IH]; intros svcs qr Hs.
  - destruct svcs; simpl; [intros [= <-]; constructor | discriminate].
  - destruct svcs as [|kv svcs]; [simpl; intros [= <-]; constructor |].
    change (_calculateQueueResolving (S fuel) ch (kv :: svcs))
      with (cons (ordmap_values (kv :: svcs)) <$>
              _calculateQueueResolving fuel ch (nextServices ch (kv :: svcs))).
    destruct (_calculateQueueResolving fuel ch _) as [rest|] eqn:E; simpl;
      [| discriminate].
    intros [= <-]. constructor; [exact (keyed_values (kv :: svcs) Hs) |].
    apply (IH _ _ (nextServices_keyed ch _ Hch) E).
Qed.

(** Every level of a plan built from a well-formed context holds every
    service at most once. *)
Lemma built_levels_NoDup (fuel : nat) (resolvers : ordmap ResolverValue)
    (ctx : ResolverContext) (ex : ResolverExecutor) :
  wfContext ctx ->
  buildResolver fuel resolvers ctx = Some (Ok ex) ->
  Forall (fun lvl => lvl = group (queue lvl) /\ NoDup (map key (queue lvl)))
         (_queueResolving ex).
Proof.
  intros [_ Hs] Hbuild.
  apply buildResolver_plan in Hbuild as (ch & qr & Hch & Hqr & -> & _).
  assert (childrenKeyed ch) as Hk.
  { apply (childrenFrom_keyed ctx (variables ctx) Hs ∅ ch); [| exact Hch].
    intros p m. now rewrite lookup_empty. }
  pose proof (queue_keyed ch fuel Hk _ _
                (keyed_filter _ _ Hs) Hqr) as Hall.
  apply Forall_forall. intros lvl Hin.
  apply list_elem_of_In, in_map_iff in Hin as (q & <- & Hq). split; [reflexivity |].
  rewrite Forall_forall in Hall. apply Hall. now apply list_elem_of_In.
Qed.

End PlanShape.

Section Disjointness.
Import Executor Resolver Spec.

Lemma NoDup_keys_inj {A : Type} (m : ordmap A) (k : string) (a b : A) :
  NoDup (ordmap_keys m) -> (k, a) ∈ m -> (k, b) ∈ m -> a = b.
Proof.
  unfold ordmap_keys. induction m as [|[k' v'] m IH]; simpl.
  - intros _ H. now apply not_elem_of_nil in H.
  - intros [Hhd Htl]%NoDup_cons [[= -> ->] | Ha]%elem_of_cons [[= ->] | Hb]%elem_of_cons.
    + reflexivity.
    + exfalso. apply Hhd. apply list_elem_of_In, in_map_iff. exists (k', b).
      split; [reflexivity | now apply list_elem_of_In].
    + subst. exfalso. apply Hhd. apply list_elem_of_In, in_map_iff. exists (k', a).
      split; [reflexivity | now apply list_elem_of_In].
    + auto.
Qed.

Lemma copyFields_dom (model : ordmap (list string)) (record : gmap string Value)
    (v : string) :
  forall upd : gmap string Value,
    v ∈ dom (copyFields model record upd) ->
    v ∈ dom upd \/ exists f tos, (f, tos) ∈ model /\ v ∈ tos.
Proof.
  unfold copyFields. induction model as [|[f tos] model IH]; intros upd; simpl.
  - now left.
  - intros H. apply IH in H as [H | (f' & tos' & Hin & Hv)].
    + assert (v ∈ dom upd \/ v ∈ tos) as [Hd | Ht].
      { clear IH. revert upd H. induction tos as [|t tos IHt]; intros upd H; simpl in H.
        - now left.
        - apply IHt in H as [H | H]; [| right; now apply list_elem_of_further].
          apply elem_of_dom in H. rewrite lookup_insert in H.
          destruct (decide (t = v)) as [-> | Hne]; [right; apply list_elem_of_here |].
          left. now apply elem_of_dom. }
      * now left.
      * right. exists f, tos. split; [apply list_elem_of_here | exact Ht].
    + right. exists f', tos'. split; [now apply list_elem_of_further | exact Hv].
Qed.

Lemma collect_dom (models : gmap string (ordmap (list string))) (v : string) :
  forall (svcs : list Service) (i : nat) (res : list (gmap string Value))
         (upd u : gmap string Value),
    collect models svcs i res upd = Ok u ->
    v ∈ dom u ->
    v ∈ dom upd \/ exists s, s ∈ svcs /\ listed models (key s) v.
Proof.
  induction svcs as [|s svcs IH]; intros i res upd u; simpl.
  - intros [= <-]. now left.
  - destruct (models !! key s) as [model|] eqn:Em; [| discriminate].
    assert (forall upd', collect models svcs (S i) res upd' = Ok u ->
                         v ∈ dom u ->
                         (v ∈ dom upd' -> v ∈ dom upd \/
                            exists s0, s0 ∈ s :: svcs /\ listed models (key s0) v) ->
                         v ∈ dom upd \/
                         exists s0, s0 ∈ s :: svcs /\ listed models (key s0) v) as Hstep.
    { intros upd' Hc Hv Hupd'. destruct (IH _ _ _ _ Hc Hv) as [H | (s0 & Hs0 & Hl)].
      - auto.
      - right. exists s0. split; [now apply list_elem_of_further | exact Hl]. }
    destruct (res !! i) as [record|].
    + intros Hc Hv. apply (Hstep _ Hc Hv). intros Hd.
      apply copyFields_dom in Hd as [Hd | (f & tos & Hin & Ht)]; [now left |].
      right. exists s. split; [apply list_elem_of_here |].
      exists f, tos. rewrite Em. now split.
    + destruct (readsRecord model); [discriminate |].
      intros Hc Hv. apply (Hstep _ Hc Hv). now left.
Qed.

Lemma resolve_dom (ex : ResolverExecutor) (resolver : option ResolverValue)
    (svcs : list Service) (variable u : gmap string Value) (v : string) :
  outcome (_resolve ex resolver svcs variable) = Ok u ->
  v ∈ dom u ->
  exists s, s ∈ svcs /\ listed (_serviceModels ex) (key s) v.
Proof.
  unfold _resolve. destruct resolver as [rv|]; [| discriminate].
  destruct (buildBatch _ _ _) as [batch|]; [| discriminate]. simpl.
  destruct (callback rv batch) as [res|]; simpl; [| discriminate].
  intros Hc Hv. destruct (collect_dom _ v _ _ _ _ _ Hc Hv) as [H | H]; [| exact H].
  rewrite dom_empty in H. now apply not_elem_of_empty in H.
Qed.

Lemma updates_pairwise (runs : list GroupRun) :
  (forall i j r1 r2 u1 u2,
      i < j -> runs !! i = Some r1 -> runs !! j = Some r2 ->
      outcome (resolution r1) = Ok u1 -> outcome (resolution r2) = Ok u2 ->
      u1 ##ₘ u2) ->
  pairwiseDisjoint (updates runs).
Proof.
  induction runs as [|r runs IH]; intros H; [exact I |].
  assert (pairwiseDisjoint (updates runs)) as Hrest.
  { apply IH. intros i j r1 r2 u1 u2 Hij H1 H2.
    apply (H (S i) (S j)); [lia | exact H1 | exact H2]. }
  unfold updates. simpl. destruct (outcome (resolution r)) as [u|] eqn:E;
    [| exact Hrest].
  split; [| exact Hrest]. apply Forall_forall. intros u' Hu'.
  apply list_elem_of_omap in Hu' as (r' & Hr' & Hout).
  apply list_elem_of_lookup in Hr' as [j Hj].
  destruct (outcome (resolution r')) as [u''|] eqn:E'; [| discriminate].
  injection Hout as ->.
  apply (H 0 (S j) r r' u u'); auto. lia.
Qed.

Lemma NoDup_key_inj (q : list Service) (s1 s2 : Service) :
  NoDup (map key q) -> s1 ∈ q -> s2 ∈ q -> key s1 = key s2 -> s1 = s2.
Proof.
  induction q as [|s q IH]; simpl.
  - intros _ H. now apply not_elem_of_nil in H.
  - intros [Hhd Htl]%NoDup_cons [-> | H1]%elem_of_cons [-> | H2]%elem_of_cons Hk.
    + reflexivity.
    + exfalso. apply Hhd. rewrite Hk. apply list_elem_of_In, in_map.
      now apply list_elem_of_In.
    + exfalso. apply Hhd. rewrite <- Hk. apply list_elem_of_In, in_map.
      now apply list_elem_of_In.
    + auto.
Qed.

Lemma ordmap_in_get {A : Type} (m : ordmap A) (k : string) (v : A) :
  NoDup (ordmap_keys m) -> (k, v) ∈ m -> ordmap_get k m = Some v.
Proof.
  unfold ordmap_get, ordmap_keys. induction m as [|[k' v'] m IH]; simpl.
  - intros _ H. now apply not_elem_of_nil in H.
  - intros [Hhd Htl]%NoDup_cons [[= -> ->] | H]%elem_of_cons.
    + now rewrite String.eqb_refl.
    + destruct (String.eqb k' k) eqn:E; simpl; [| auto].
      apply String.eqb_eq in E. subst. exfalso. apply Hhd.
      apply list_elem_of_In, in_map_iff. exists (k, v).
      split; [reflexivity | now apply list_elem_of_In].
Qed.

Lemma group_members (q : list Service) (nm : string) (grp : list Service)
    (s : Service) :
  (nm, grp) ∈ groupByField q -> s ∈ grp -> s ∈ q /\ name s = nm.
Proof.
  intros Hin Hs.
  apply (ordmap_in_get _ _ _ (groupByField_NoDup q)) in Hin.
  rewrite groupByField_get in Hin.
  destruct (filter (fun s0 => name s0 = nm) q) as [|x l] eqn:E; [discriminate |].
  injection Hin as <-. rewrite <- E in Hs.
  apply list_elem_of_filter in Hs as [Hn Hs]. now split.
Qed.

Lemma ordmap_get_app {A : Type} (k : string) (m m' : ordmap A) :
  ordmap_get k (m ++ m') =
    match ordmap_get k m with
    | Some x => Some x
    | None => ordmap_get k m'
    end.
Proof.
  unfold ordmap_get. induction m as [|[k' x] m IH]; simpl; [reflexivity |].
  destruct (String.eqb k' k); [reflexivity | exact IH].
Qed.

Lemma ordmap_get_absent {A : Type} (k : string) (m : ordmap A) :
  k ∉ ordmap_keys m -> ordmap_get k m = None.
Proof.
  intros Hk. destruct (ordmap_get k m) as [x|] eqn:E; [| reflexivity].
  destruct Hk. apply ordmap_get_in in E.
  apply list_elem_of_fmap. now exists (k, x).
Qed.

Lemma ordmap_set_elem {A : Type} (k f : string) (X x : A) (m : ordmap A) :
  NoDup (ordmap_keys m) ->
  (f, x) ∈ ordmap_set k X m <->
  (f = k /\ x = X) \/ (f <> k /\ (f, x) ∈ m).
Proof.
  intros Hnd. induction m as [|[k' x'] m IH]; simpl.
  - rewrite list_elem_of_singleton. split.
    + intros [= -> ->]. now left.
    + intros [[-> ->] | [_ H]]; [reflexivity | inversion H].
  - apply NoDup_cons in Hnd as [Hk' Hnd]. specialize (IH Hnd).
    destruct (String.eqb k' k) eqn:E.
    + apply String.eqb_eq in E as ->. rewrite !elem_of_cons. split.
      * intros [[= -> ->] | Hin]; [now left |].
        right. split; [| now right]. intros ->. apply Hk'.
        apply list_elem_of_fmap. now exists (k, x).
      * intros [[-> ->] | [Hne [[= -> ->] | Hin]]]; [now left | congruence | now right].
    + apply String.eqb_neq in E. rewrite !elem_of_cons, IH. split.
      * intros [[= -> ->] | [[-> ->] | [Hne Hin]]]; [right | now left | right]; auto.
      * intros [[-> ->] | [Hne [[= -> ->] | Hin]]]; [right; now left | now left |].
        right. right. auto.
Qed.

Lemma scanFrom_snoc (vars : ordmap Descriptor) (kv : string * Descriptor) :
  forall acc,
    scanFrom (vars ++ [kv]) acc = (acc' ← scanFrom vars acc; scanVariable acc' kv).
Proof.
  induction vars as [|kv' vars IH]; intros acc; simpl.
  - now destruct (scanVariable acc kv).
  - destruct (scanVariable acc kv'); simpl; [apply IH | reflexivity].
Qed.

Lemma scanVariables_snoc (vars : ordmap Descriptor) (kv : string * Descriptor) :
  scanVariables (vars ++ [kv]) = (acc ← scanVariables vars; scanVariable acc kv).
Proof. apply scanFrom_snoc. Qed.

(** A pass of the loop that does not throw lists the variable last under
    its field. *)
Lemma scanVariable_ref (vb vb' : gmap string Value)
    (sm sm' : gmap string (ordmap (list string))) (nm fk svc : string) :
  scanVariable (vb, sm) (nm, VariableRef fk svc) = Ok (vb', sm') ->
  vb' = vb /\
  sm' = <[svc := ordmap_set fk
                   (default [] (ordmap_get fk (default [] (sm !! svc))) ++ [nm])
                   (default [] (sm !! svc))]> sm.
Proof.
  unfold scanVariable. cbn [fst snd].
  destruct (ordmap_get fk (default [] (sm !! svc))) as [tos|]; simpl.
  - now intros [= <- <-].
  - destruct (Proto.inherited fk); [discriminate |]. now intros [= <- <-].
Qed.

(** What the loop over the variables has built when it ends. *)
Lemma scanVariables_tables (vars : ordmap Descriptor) :
  NoDup (ordmap_keys vars) ->
  forall vb sm,
    scanVariables vars = Ok (vb, sm) ->
    (forall k,
        vb !! k =
          match ordmap_get k vars with
          | Some (VariableConst c) => Some (VString c)
          | _ => None
          end) /\
    (forall svc f v,
        (exists tos, (f, tos) ∈ default [] (sm !! svc) /\ v ∈ tos) <->
        (v, VariableRef f svc) ∈ vars) /\
    (forall svc model,
        sm !! svc = Some model ->
        NoDup (ordmap_keys model) /\
        exists f tos v, (f, tos) ∈ model /\ v ∈ tos).
Proof.
  induction vars as [|[nm d] vars IH] using rev_ind; intros Hnd vb sm.
  - intros [= <- <-]. split; [| split].
    + intros k. simpl. now rewrite lookup_empty.
    + intros svc f v. rewrite lookup_empty. simpl. split.
      * intros (tos & H & _). inversion H.
      * intros H. inversion H.
    + intros svc model. now rewrite lookup_empty.
  - unfold ordmap_keys in Hnd. rewrite map_app in Hnd.
    apply NoDup_app in Hnd as (Hnd & Hfresh & _).
    assert (nm ∉ ordmap_keys vars) as Hnm.
    { intros H. apply (Hfresh nm H). now left. }
    rewrite scanVariables_snoc.
    destruct (scanVariables vars) as [[vb0 sm0]|]; simpl; [| discriminate].
    destruct (IH Hnd vb0 sm0 eq_refl) as (IH1 & IH2 & IH3). clear IH.
    destruct d as [c | fk s0].
    + unfold scanVariable. cbn [fst snd]. intros [= <- <-].
      split; [| split; [| exact IH3]].
      * intros k. rewrite ordmap_get_app, lookup_insert.
        destruct (decide (nm = k)) as [<- | Hne].
        -- rewrite (ordmap_get_absent _ _ Hnm). unfold ordmap_get. simpl.
           now rewrite String.eqb_refl.
        -- rewrite IH1. destruct (ordmap_get k vars) as [[]|]; try reflexivity.
           unfold ordmap_get. simpl.
           destruct (String.eqb nm k) eqn:E; [| reflexivity].
           apply String.eqb_eq in E. contradiction.
      * intros svc f v. rewrite elem_of_app, list_elem_of_singleton, IH2.
        split; [auto |]. intros [H | [=]]. exact H.
    + intros [-> ->]%scanVariable_ref.
      assert (NoDup (ordmap_keys (default [] (sm0 !! s0)))) as Hndm.
      { destruct (sm0 !! s0) as [model|] eqn:E; simpl; [| constructor].
        now destruct (IH3 _ _ E). }
      split; [| split].
      * intros k. rewrite ordmap_get_app, IH1.
        destruct (ordmap_get k vars) as [[]|]; try reflexivity.
        unfold ordmap_get. simpl. now destruct (String.eqb nm k).
      * intros svc f v. rewrite elem_of_app, list_elem_of_singleton.
        rewrite lookup_insert.
        destruct (decide (s0 = svc)) as [-> | Hne]; cbn [default].
        -- split.
           ++ intros (tos & Hin & Hv).
              apply (ordmap_set_elem _ _ _ _ _ Hndm) in Hin as [[-> ->] | [Hne Hin]].
              ** apply elem_of_app in Hv as [Hv | ->%list_elem_of_singleton];
                   [| now right].
                 left. apply IH2.
                 destruct (ordmap_get fk (default [] (sm0 !! svc))) as [tos'|] eqn:E;
                   simpl in Hv; [| inversion Hv].
                 exists tos'. split; [now apply ordmap_get_in | exact Hv].
              ** left. apply IH2. eauto.
           ++ intros [Hin | [= -> -> ]].
              ** apply IH2 in Hin as (tos & Hin & Hv).
                 destruct (decide (f = fk)) as [-> | Hne].
                 --- exists (default [] (ordmap_get fk (default [] (sm0 !! svc))) ++ [nm]).
                     split; [apply ordmap_set_elem; auto |].
                     rewrite (ordmap_in_get _ _ _ Hndm Hin). simpl.
                     apply elem_of_app. now left.
                 --- exists tos. split; [| exact Hv].
                     apply ordmap_set_elem; auto.
              ** eexists. split; [apply ordmap_set_elem; [exact Hndm | left; eauto] |].
                 apply elem_of_app. right. now left.
        -- rewrite IH2. split; [auto |]. intros [H | [= -> -> ->]]; [exact H |].
           contradiction.
      * intros svc model. rewrite lookup_insert.
        destruct (decide (s0 = svc)) as [-> | Hne]; [| apply IH3].
        intros [= <-]. split; [now apply ordmap_set_NoDup |].
        eexists fk, _, nm. split; [apply ordmap_set_elem; [exact Hndm | left; eauto] |].
        apply elem_of_app. right. now left.
Qed.

Lemma scanVariables_listed (vars : ordmap Descriptor) (vb : gmap string Value)
    (sm : gmap string (ordmap (list string))) (k v : string) :
  NoDup (ordmap_keys vars) ->
  scanVariables vars = Ok (vb, sm) ->
  listed sm k v ->
  exists f, (v, VariableRef f k) ∈ vars.
Proof.
  intros Hnd Hscan (f & tos & Hin & Hv).
  destruct (scanVariables_tables _ Hnd _ _ Hscan) as (_ & H2 & _).
  exists f. apply H2. eauto.
Qed.

Lemma listed_unique (vars : ordmap Descriptor) (vb : gmap string Value)
    (sm : gmap string (ordmap (list string))) (k1 k2 v : string) :
  NoDup (ordmap_keys vars) ->
  scanVariables vars = Ok (vb, sm) ->
  listed sm k1 v -> listed sm k2 v -> k1 = k2.
Proof.
  intros Hnd Hscan H1 H2.
  destruct (scanVariables_listed _ _ _ _ _ Hnd Hscan H1) as [f1 F1].
  destruct (scanVariables_listed _ _ _ _ _ Hnd Hscan H2) as [f2 F2].
  pose proof (NoDup_keys_inj _ _ _ _ Hnd F1 F2) as E. congruence.
Qed.

(** In a plan built from a well-formed context the groups of a level write
    different variables: the order in which their promises settle does not
    show in the record. *)
Lemma built_updates_disjoint (fuel : nat) (resolvers : ordmap ResolverValue)
    (ctx : ResolverContext) (ex : ResolverExecutor) (lvl : QueueResolving)
    (cq : gset string) (variable : gmap string Value) :
  wfContext ctx ->
  buildResolver fuel resolvers ctx = Some (Ok ex) ->
  lvl ∈ _queueResolving ex ->
  pairwiseDisjoint (updates (runLevel ex lvl cq variable)).
Proof.
  intros Hwf Hbuild Hlvl.
  pose proof (built_levels_NoDup _ _ _ _ Hwf Hbuild) as Hall.
  rewrite Forall_forall in Hall. destruct (Hall _ Hlvl) as [Hgrp Hnd].
  destruct (buildResolver_tables _ _ _ _ Hbuild) as [Hmodels _].
  destruct Hwf as [Hvars _].
  apply updates_pairwise. intros i j r1 r2 u1 u2 Hij H1 H2 Hu1 Hu2.
  unfold runLevel in H1, H2. rewrite Hgrp in H1, H2. simpl in H1, H2.
  rewrite list_lookup_fmap in H1, H2.
  destruct (groupByField (queue lvl) !! i) as [[nm1 grp1]|] eqn:E1; [| discriminate].
  destruct (groupByField (queue lvl) !! j) as [[nm2 grp2]|] eqn:E2; [| discriminate].
  injection H1 as <-. injection H2 as <-. simpl in Hu1, Hu2.
  assert (nm1 <> nm2) as Hne.
  { intros ->. pose proof (groupByField_NoDup (queue lvl)) as Hk.
    unfold ordmap_keys in Hk.
    assert (i = j); [| lia].
    apply (NoDup_lookup _ i j nm2 Hk); rewrite list_lookup_fmap.
    - change (map fst (groupByField (queue lvl)) !! i)
        with (fst <$> groupByField (queue lvl) !! i). now rewrite E1.
    - change (map fst (groupByField (queue lvl)) !! j)
        with (fst <$> groupByField (queue lvl) !! j). now rewrite E2. }
  apply map_disjoint_dom, elem_of_disjoint. intros v Hv1 Hv2.
  destruct (resolve_dom _ _ _ _ _ _ Hu1 Hv1) as (s1 & Hs1 & Hl1).
  destruct (resolve_dom _ _ _ _ _ _ Hu2 Hv2) as (s2 & Hs2 & Hl2).
  apply list_elem_of_filter in Hs1 as [_ Hs1].
  apply list_elem_of_filter in Hs2 as [_ Hs2].
  apply list_elem_of_lookup_2 in E1, E2.
  destruct (group_members _ _ _ _ E1 Hs1) as [Hq1 Hn1].
  destruct (group_members _ _ _ _ E2 Hs2) as [Hq2 Hn2].
  pose proof (listed_unique _ _ _ _ _ _ Hvars Hmodels Hl1 Hl2) as Hk.
  pose proof (NoDup_key_inj _ _ _ Hnd Hq1 Hq2 Hk) as ->. congruence.
Qed.

(** For such a plan the result of a level is the same for every order in
    which the promises of its groups settle. *)
Lemma built_settle_order (fuel : nat) (resolvers : ordmap ResolverValue)
    (ctx : ResolverContext) (ex : ResolverExecutor) (lvl : QueueResolving)
    (cq : gset string) (variable : gmap string Value) (nq : gset string)
    (runs' : list GroupRun) :
  wfContext ctx ->
  buildResolver fuel resolvers ctx = Some (Ok ex) ->
  lvl ∈ _queueResolving ex ->
  runLevel ex lvl cq variable ≡ₚ runs' ->
  settle ex (runLevel ex lvl cq variable) variable nq = settle ex runs' variable nq.
Proof.
  intros Hwf Hbuild Hlvl Hperm. apply settle_order; [exact Hperm |].
  exact (built_updates_disjoint _ _ _ _ _ _ _ Hwf Hbuild Hlvl).
Qed.

End Disjointness.

(** ** What a resolved group writes *)

Section Answers.
Import Executor Resolver Spec.

Lemma copyFields_inner (record : gmap string Value) (from to : string)
    (tos : list string) :
  forall upd : gmap string Value,
    fold_left (fun upd to' => <[to' := read record from]> upd) tos upd !! to =
      if bool_decide (to ∈ tos) then Some (read record from) else upd !! to.
Proof.
  induction tos as [|t tos IH]; intros upd; simpl; [reflexivity |].
  rewrite IH. destruct (bool_decide (to ∈ tos)) eqn:E.
  - apply bool_decide_eq_true in E. rewrite bool_decide_eq_true_2; [reflexivity |].
    now right.
  - apply bool_decide_eq_false in E. destruct (decide (t = to)) as [-> | Hne].
    + rewrite lookup_insert_eq. rewrite bool_decide_eq_true_2; [reflexivity | now left].
    + rewrite lookup_insert_ne by exact Hne.
      rewrite bool_decide_eq_false_2; [reflexivity |].
      intros [-> | H]%elem_of_cons; contradiction.
Qed.

Lemma copyFields_other (model : ordmap (list string)) (record : gmap string Value)
    (to : string) :
  (forall from tos, (from, tos) ∈ model -> to ∉ tos) ->
  forall upd : gmap string Value, copyFields model record upd !! to = upd !! to.
Proof.
  unfold copyFields. induction model as [|[from tos] model IH]; intros Hno upd;
    simpl; [reflexivity |].
  rewrite IH by (intros f t Hin; apply (Hno f t); now right).
  rewrite copyFields_inner. rewrite bool_decide_eq_false_2; [reflexivity |].
  apply (Hno from). now left.
Qed.

Lemma copyFields_keep (model : ordmap (list string)) (record : gmap string Value)
    (from to : string) :
  (forall from' tos', (from', tos') ∈ model -> to ∈ tos' -> from' = from) ->
  forall upd : gmap string Value,
    upd !! to = Some (read record from) ->
    copyFields model record upd !! to = Some (read record from).
Proof.
  unfold copyFields. induction model as [|[f tos] model IH]; intros Huniq upd Hupd;
    simpl; [exact Hupd |].
  apply IH; [intros f' t' Hin; apply Huniq; now right |].
  rewrite copyFields_inner. destruct (bool_decide (to ∈ tos)) eqn:E; [| exact Hupd].
  apply bool_decide_eq_true in E. now rewrite (Huniq f tos (list_elem_of_here _ _) E).
Qed.

Lemma copyFields_unique (model : ordmap (list string)) (record : gmap string Value)
    (from to : string) (tos : list string) :
  (from, tos) ∈ model -> to ∈ tos ->
  (forall from' tos', (from', tos') ∈ model -> to ∈ tos' -> from' = from) ->
  forall upd : gmap string Value,
    copyFields model record upd !! to = Some (read record from).
Proof.
  intros Hin Hto. induction model as [|[f t] model IH]; intros Huniq upd;
    [inversion Hin |].
  change (copyFields ((f, t) :: model) record upd)
    with (copyFields model record
            (fold_left (fun upd to' => <[to' := read record f]> upd) t upd)).
  apply elem_of_cons in Hin as [[= <- <-] | Hin].
  - apply copyFields_keep; [intros f' t' Hin'; apply Huniq; now right |].
    rewrite copyFields_inner. now rewrite bool_decide_eq_true_2.
  - apply IH; [exact Hin |]. intros f' t' Hin'. apply Huniq. now right.
Qed.

Lemma collect_keeps (models : gmap string (ordmap (list string))) (to : string)
    (svcs : list Service) :
  forall (i : nat) (res : list (gmap string Value)) (upd u : gmap string Value),
    collect models svcs i res upd = Ok u ->
    (forall s, s ∈ svcs -> ~ listed models (key s) to) ->
    u !! to = upd !! to.
Proof.
  induction svcs as [|s svcs IH]; intros i res upd u; simpl.
  - now intros [= <-].
  - destruct (models !! key s) as [model|] eqn:Em; [| discriminate].
    intros Hc Hno.
    assert (forall from tos, (from, tos) ∈ model -> to ∉ tos) as Hmodel.
    { intros from tos Hin Hto. apply (Hno s (list_elem_of_here _ _)).
      exists from, tos. now rewrite Em. }
    assert (forall s', s' ∈ svcs -> ~ listed models (key s') to) as Hrest
      by (intros s' Hs'; apply Hno; now right).
    destruct (res !! i) as [record|].
    + rewrite (IH _ _ _ _ Hc Hrest). now apply copyFields_other.
    + destruct (readsRecord model); [discriminate |]. exact (IH _ _ _ _ Hc Hrest).
Qed.

Lemma readsRecord_listed (model : ordmap (list string)) (f v : string)
    (tos : list string) :
  (f, tos) ∈ model -> v ∈ tos -> readsRecord model = true.
Proof.
  intros Hin Hv. unfold readsRecord.
  apply existsb_exists. exists (f, tos). split; [now apply list_elem_of_In |].
  destruct tos; [inversion Hv | reflexivity].
Qed.

(** The variable [to], listed under the field [from] of the service at the
    position [j] and nowhere else in the group, receives that field of the
    record at that position. *)
Lemma collect_writes (models : gmap string (ordmap (list string)))
    (from to : string) (svcs : list Service) :
  forall (i j : nat) (res : list (gmap string Value)) (upd u : gmap string Value)
         (s : Service) (tos : list string),
    collect models svcs i res upd = Ok u ->
    svcs !! j = Some s ->
    (from, tos) ∈ default [] (models !! key s) -> to ∈ tos ->
    (forall from' tos', (from', tos') ∈ default [] (models !! key s) ->
                        to ∈ tos' -> from' = from) ->
    (forall j' s', svcs !! j' = Some s' -> listed models (key s') to -> j' = j) ->
    exists record, res !! (i + j) = Some record /\ u !! to = Some (read record from).
Proof.
  induction svcs as [|s0 svcs IH]; intros i j res upd u s tos; [discriminate |].
  simpl. destruct (models !! key s0) as [model|] eqn:Em; [| discriminate].
  intros Hc Hj Hin Hto Hfield Hpos. destruct j as [|j].
  - injection Hj as ->. rewrite Em in Hin, Hfield. simpl in Hin, Hfield.
    rewrite Nat.add_0_r.
    assert (forall s', s' ∈ svcs -> ~ listed models (key s') to) as Hrest.
    { intros s' [j' Hj']%list_elem_of_lookup Hl.
      specialize (Hpos (S j') s' Hj' Hl). discriminate. }
    destruct (res !! i) as [record|].
    + exists record. split; [reflexivity |].
      rewrite (collect_keeps _ _ _ _ _ _ _ Hc Hrest).
      now apply (copyFields_unique _ _ _ _ tos).
    + now rewrite (readsRecord_listed _ _ _ _ Hin Hto) in Hc.
  - simpl in Hj.
    assert (forall j' s', svcs !! j' = Some s' -> listed models (key s') to -> j' = j)
      as Hpos'.
    { intros j' s' Hj' Hl. specialize (Hpos (S j') s' Hj' Hl). lia. }
    replace (i + S j) with (S i + j) by lia.
    destruct (res !! i) as [record|].
    + exact (IH _ _ _ _ _ _ _ Hc Hj Hin Hto Hfield Hpos').
    + destruct (readsRecord model); [discriminate |].
      exact (IH _ _ _ _ _ _ _ Hc Hj Hin Hto Hfield Hpos').
Qed.

Lemma buildBatch_length (model : ordmap (list Kind)) (variable : gmap string Value)
    (svcs : list Service) (batch : list (gmap string Value)) :
  buildBatch model variable svcs = Ok batch -> length batch = length svcs.
Proof. intros ->%buildBatch_ok. apply length_map. Qed.

(** In an executor built of a well-formed context, a call of [_resolve]
    that resolves has called the provider, which answered every service of
    the group with a record, and the update holds, for every reference
    variable declared on a service of the group, the field of that
    variable in the record of that service. *)
Lemma built_resolve_writes (fuel : nat) (resolvers : ordmap ResolverValue)
    (ctx : ResolverContext) (ex : ResolverExecutor)
    (resolver : option ResolverValue) (svcs : list Service)
    (variable u : gmap string Value) :
  NoDup (ordmap_keys (variables ctx)) ->
  buildResolver fuel resolvers ctx = Some (Ok ex) ->
  NoDup (map key svcs) ->
  outcome (_resolve ex resolver svcs variable) = Ok u ->
  exists rv batch res,
    resolver = Some rv /\
    invoked (_resolve ex resolver svcs variable) = Some batch /\
    batch = map (buildArgs variable) svcs /\
    callback rv batch = Ok res /\
    (forall i s nm f,
        svcs !! i = Some s ->
        ordmap_get nm (variables ctx) = Some (VariableRef f (key s)) ->
        exists record, res !! i = Some record /\ u !! nm = Some (read record f)) /\
    (forall nm,
        nm ∈ dom u ->
        exists i s f,
          svcs !! i = Some s /\
          ordmap_get nm (variables ctx) = Some (VariableRef f (key s))).
Proof.
  intros Hnd Hb Hkeys Hout.
  destruct (buildResolver_tables _ _ _ _ Hb) as [Hscan _].
  destruct (scanVariables_tables _ Hnd _ _ Hscan) as (_ & H2 & _).
  pose proof Hout as Hout0.
  unfold _resolve in Hout |- *. destruct resolver as [rv|]; [| discriminate].
  destruct (buildBatch (argsModel rv) variable svcs) as [batch|] eqn:Eb;
    [| discriminate].
  simpl in Hout. destruct (callback rv batch) as [res|] eqn:Ec; [| discriminate].
  simpl in Hout. exists rv, batch, res.
  split; [reflexivity |]. split; [reflexivity |].
  split; [now apply buildBatch_ok in Eb |]. split; [exact Ec |]. split.
  - intros i s nm f Hi Hget. apply ordmap_get_in, H2 in Hget as (tos & Hin & Hto).
    destruct (collect_writes _ f nm _ 0 i _ _ _ s tos Hout Hi Hin Hto)
      as (record & Hrec & Hu).
    + intros f' tos' Hin' Hto'.
      assert ((nm, VariableRef f' (key s)) ∈ variables ctx) as H' by (apply H2; eauto).
      assert ((nm, VariableRef f (key s)) ∈ variables ctx) as H by (apply H2; eauto).
      pose proof (NoDup_keys_inj _ _ _ _ Hnd H' H). congruence.
    + intros j' s' Hj' Hl.
      assert (listed (_serviceModels ex) (key s) nm) as Hl0 by (exists f, tos; auto).
      pose proof (listed_unique _ _ _ _ _ _ Hnd Hscan Hl Hl0) as Hk.
      apply (NoDup_lookup (map key svcs) j' i (key s) Hkeys).
      * change (map key svcs) with (key <$> svcs). rewrite list_lookup_fmap, Hj'.
        simpl. now rewrite Hk.
      * change (map key svcs) with (key <$> svcs). now rewrite list_lookup_fmap, Hi.
    + exists record. now rewrite Nat.add_0_l in Hrec.
  - intros nm Hnm.
    destruct (resolve_dom _ _ _ _ _ _ Hout0 Hnm) as (s & Hs & (f & tos & Hin & Hto)).
    apply list_elem_of_lookup in Hs as [i Hi]. exists i, s, f. split; [exact Hi |].
    apply ordmap_in_get; [exact Hnd |]. apply H2. eauto.
Qed.

(** The levels of the trace are levels of the plan. *)
Lemma loop_level (ex : ResolverExecutor) (levels : list QueueResolving) :
  forall (cq : gset string) (variable : gmap string Value) (k : nat)
         (runs : list GroupRun),
    fst (loop ex levels cq variable) !! k = Some runs ->
    exists lvl cq' variable',
      levels !! k = Some lvl /\ runs = runLevel ex lvl cq' variable'.
Proof.
  induction levels as [|lvl rest IH]; intros cq variable k runs; simpl;
    [discriminate |].
  destruct (settle ex (runLevel ex lvl cq variable) variable _)
    as [[variable' nq']|e].
  - destruct (bool_decide (size nq' = 0)).
    + destruct k; simpl; [| discriminate]. intros [= <-]. eauto.
    + destruct (loop ex rest nq' variable') as [later res] eqn:E. simpl.
      destruct k as [|k]; simpl; [intros [= <-]; eauto |].
      intros Hk. apply (IH nq' variable' k). now rewrite E.
  - destruct k; simpl; [| discriminate]. intros [= <-]. eauto.
Qed.

Lemma trace_level (ex : ResolverExecutor) (args : gmap string Value) (k : nat)
    (runs : list GroupRun) :
  trace ex args !! k = Some runs ->
  exists lvl cq variable,
    _queueResolving ex !! k = Some lvl /\ runs = runLevel ex lvl cq variable.
Proof.
  unfold trace, run. destruct (_queueResolving ex) as [|first rest] eqn:E;
    [discriminate |].
  apply loop_level.
Qed.

(** The groups of a built level. *)
Lemma built_run (fuel : nat) (resolvers : ordmap ResolverValue)
    (ctx : ResolverContext) (ex : ResolverExecutor) (lvl : QueueResolving)
    (cq : gset string) (variable : gmap string Value) (r : GroupRun) :
  wfContext ctx ->
  buildResolver fuel resolvers ctx = Some (Ok ex) ->
  lvl ∈ _queueResolving ex ->
  r ∈ runLevel ex lvl cq variable ->
  resolution r =
    _resolve ex (ordmap_get (serviceName r) (_resolvers ex)) (group_services r)
      variable /\
  NoDup (map key (group_services r)) /\
  (forall s, s ∈ group_services r ->
             s ∈ queue lvl /\ name s = serviceName r /\ key s ∈ cq).
Proof.
  intros Hwf Hb Hlvl Hr.
  pose proof (built_levels_NoDup _ _ _ _ Hwf Hb) as Hall.
  rewrite Forall_forall in Hall. destruct (Hall _ Hlvl) as [Hgrp Hnd].
  unfold runLevel in Hr. apply list_elem_of_fmap in Hr as ([nm grp] & -> & Hin).
  simpl. split; [reflexivity |].
  rewrite Hgrp in Hin. simpl in Hin.
  assert (forall s, s ∈ filter (fun s => key s ∈ cq) grp ->
                    s ∈ queue lvl /\ name s = nm /\ key s ∈ cq) as Hmem.
  { intros s [Hcq Hs]%list_elem_of_filter.
    destruct (group_members _ _ _ _ Hin Hs). auto. }
  split; [| exact Hmem].
  pose proof (ordmap_in_get _ _ _ (groupByField_NoDup (queue lvl)) Hin) as Hget.
  rewrite groupByField_get in Hget.
  assert (grp = filter (fun s => name s = nm) (queue lvl)) as ->.
  { destruct (filter (fun s => name s = nm) (queue lvl)); congruence. }
  eapply sublist_NoDup; [exact Hnd |].
  change (map key ?l) with (key <$> l). apply fmap_sublist.
  etransitivity; apply sublist_filter.
Qed.

(** In a built level a service is in one group only. *)
Lemma built_run_unique (fuel : nat) (resolvers : ordmap ResolverValue)
    (ctx : ResolverContext) (ex : ResolverExecutor) (lvl : QueueResolving)
    (cq : gset string) (variable : gmap string Value) (i j : nat)
    (r1 r2 : GroupRun) (s1 s2 : Service) :
  wfContext ctx ->
  buildResolver fuel resolvers ctx = Some (Ok ex) ->
  lvl ∈ _queueResolving ex ->
  runLevel ex lvl cq variable !! i = Some r1 ->
  runLevel ex lvl cq variable !! j = Some r2 ->
  s1 ∈ group_services r1 -> s2 ∈ group_services r2 -> key s1 = key s2 ->
  i = j.
Proof.
  intros Hwf Hb Hlvl H1 H2 Hs1 Hs2 Hk.
  pose proof (built_levels_NoDup _ _ _ _ Hwf Hb) as Hall.
  rewrite Forall_forall in Hall. destruct (Hall _ Hlvl) as [Hgrp Hnd].
  destruct (built_run _ _ _ _ _ _ _ _ Hwf Hb Hlvl (list_elem_of_lookup_2 _ _ _ H1))
    as (_ & _ & Hm1).
  destruct (built_run _ _ _ _ _ _ _ _ Hwf Hb Hlvl (list_elem_of_lookup_2 _ _ _ H2))
    as (_ & _ & Hm2).
  destruct (Hm1 _ Hs1) as (Hq1 & Hn1 & _). destruct (Hm2 _ Hs2) as (Hq2 & Hn2 & _).
  pose proof (NoDup_key_inj _ _ _ Hnd Hq1 Hq2 Hk) as ->.
  unfold runLevel in H1, H2. rewrite Hgrp in H1, H2. simpl in H1, H2.
  rewrite list_lookup_fmap in H1, H2.
  destruct (groupByField (queue lvl) !! i) as [[nm1 grp1]|] eqn:E1; [| discriminate].
  destruct (groupByField (queue lvl) !! j) as [[nm2 grp2]|] eqn:E2; [| discriminate].
  injection H1 as <-. injection H2 as <-. simpl in Hn1, Hn2.
  pose proof (groupByField_NoDup (queue lvl)) as Hkk. unfold ordmap_keys in Hkk.
  apply (NoDup_lookup _ i j nm1 Hkk); rewrite list_lookup_fmap.
  - change (map fst (groupByField (queue lvl)) !! i)
      with (fst <$> groupByField (queue lvl) !! i). now rewrite E1.
  - change (map fst (groupByField (queue lvl)) !! j)
      with (fst <$> groupByField (queue lvl) !! j). rewrite E2. simpl. congruence.
Qed.

End Answers.

Section LastWrite.
Import Executor Resolver Spec.

Lemma pairwiseDisjoint_after (l1 l2 : list (gmap string Value)) (u : gmap string Value) :
  pairwiseDisjoint (l1 ++ u :: l2) -> Forall (fun u' => u ##ₘ u') l2.
Proof.
  induction l1 as [|a l1 IH]; simpl; [now intros [H _] |]. intros [_ H]. auto.
Qed.

Lemma updates_app (runs1 runs2 : list GroupRun) :
  updates (runs1 ++ runs2) = updates runs1 ++ updates runs2.
Proof. unfold updates. apply omap_app. Qed.

Lemma answered_unique (ex : ResolverExecutor) (r : GroupRun) (i : nat)
    (record record' : gmap string Value) :
  answered ex r i record -> answered ex r i record' -> record = record'.
Proof.
  intros (rv & batch & res & H1 & H2 & _ & H3 & H4)
         (rv' & batch' & res' & H1' & H2' & _ & H3' & H4').
  congruence.
Qed.

(** In a built executor an update that writes a reference variable comes
    from a group that held the service of the variable. *)
Lemma update_writer (fuel : nat) (resolvers : ordmap ResolverValue)
    (ctx : ResolverContext) (ex : ResolverExecutor) (args : gmap string Value)
    (k : nat) (runs : list GroupRun) (u : gmap string Value)
    (nm f svc : string) :
  wfContext ctx ->
  buildResolver fuel resolvers ctx = Some (Ok ex) ->
  ordmap_get nm (variables ctx) = Some (VariableRef f svc) ->
  trace ex args !! k = Some runs ->
  u ∈ updates runs ->
  nm ∈ dom u ->
  resolvedAt (trace ex args) svc k.
Proof.
  intros Hwf Hb Hget Hk Hu Hnm.
  destruct (buildResolver_tables _ _ _ _ Hb) as [Hscan _].
  destruct (scanVariables_tables _ (proj1 Hwf) _ _ Hscan) as (_ & H2 & _).
  unfold updates in Hu. apply list_elem_of_omap in Hu as (r & Hr & Hout).
  destruct (outcome (resolution r)) as [u'|] eqn:Eo; [| discriminate].
  injection Hout as ->.
  destruct (trace_level _ _ _ _ Hk) as (lvl & cq & variable & Hlvl & ->).
  apply list_elem_of_lookup_2 in Hlvl.
  destruct (built_run _ _ _ _ _ _ _ _ Hwf Hb Hlvl Hr) as (Hres & _ & _).
  rewrite Hres in Eo.
  destruct (resolve_dom _ _ _ _ _ _ Eo Hnm) as (s & Hs & Hl).
  assert (listed (_serviceModels ex) svc nm) as Hl0.
  { apply ordmap_get_in, H2 in Hget as (tos & Hin & Hto). exists f, tos. auto. }
  pose proof (listed_unique _ _ _ _ _ _ (proj1 Hwf) Hscan Hl Hl0) as Hkey.
  exists (runLevel ex lvl cq variable), r, s, u.
  rewrite Hres. auto.
Qed.

End LastWrite.

(** C1, as the code has it.  An override is in the record when the
    execution starts, whatever the constants are, and the returned record
    holds for an overridden name the value that a resolved group wrote to it
    last, or the override when none wrote to it.  In the executor built of a
    well-formed context, an override of a reference variable does not keep
    the provider of the owning service from being called: whenever the group
    of that service resolves, the provider was called with the batch of the
    group and answered the service with a record, and the update of the
    group holds the fields of that record for all the variables declared on
    the service, the overridden one among them.  So the record that
    [execute] returns holds the override only when the group of the owning
    service resolved at no level; otherwise it holds the field that the
    provider returned where the group resolved last. *)
Theorem C1_override_until_overwritten :
  (forall (ex : ResolverExecutor) (args : gmap string Value) (nm : string)
          (v : Value),
      args !! nm = Some v ->
      Executor.initial ex args !! nm = Some v /\
      forall rec : gmap string Value,
        Executor.execute ex args = Ok rec ->
        let upds := concat (map Spec.updates (Executor.trace ex args)) in
        (Forall (fun u : gmap string Value => u !! nm = None) upds ->
         rec !! nm = Some v) /\
        (forall l1 u l2 x,
            upds = l1 ++ u :: l2 ->
            u !! nm = Some x ->
            Forall (fun u' : gmap string Value => u' !! nm = None) l2 ->
            rec !! nm = Some x)) /\
  (forall (fuel : nat) (resolvers : ordmap ResolverValue) (ctx : ResolverContext)
          (ex : ResolverExecutor) (args : gmap string Value) (nm f svc : string)
          (v : Value),
      Spec.wfContext ctx ->
      Resolver.buildResolver fuel resolvers ctx = Some (Ok ex) ->
      ordmap_get nm (variables ctx) = Some (VariableRef f svc) ->
      args !! nm = Some v ->
      (forall k runs r i s u,
          Executor.trace ex args !! k = Some runs ->
          r ∈ runs ->
          Executor.group_services r !! i = Some s ->
          key s = svc ->
          Executor.outcome (Executor.resolution r) = Ok u ->
          exists record,
            Spec.answered ex r i record /\
            forall nm' f',
              ordmap_get nm' (variables ctx) = Some (VariableRef f' svc) ->
              u !! nm' = Some (read record f')) /\
      (forall rec : gmap string Value,
          Executor.execute ex args = Ok rec ->
          ((forall k, ~ Spec.resolvedAt (Executor.trace ex args) svc k) ->
           rec !! nm = Some v) /\
          (forall k runs r i s u record,
              Executor.trace ex args !! k = Some runs ->
              r ∈ runs ->
              Executor.group_services r !! i = Some s ->
              key s = svc ->
              Executor.outcome (Executor.resolution r) = Ok u ->
              Spec.answered ex r i record ->
              (forall k', k < k' ->
                          ~ Spec.resolvedAt (Executor.trace ex args) svc k') ->
              rec !! nm = Some (read record f)))).
Proof.
  assert (forall (ex : ResolverExecutor) (args : gmap string Value) (nm : string)
                 (v : Value),
             args !! nm = Some v -> Executor.initial ex args !! nm = Some v) as Hstart.
  { intros ex args nm v Hargs. unfold Executor.initial, assign.
    now apply lookup_union_Some_l. }
  split.
  { intros ex args nm v Hargs. split; [now apply Hstart |].
    intros rec Hrec upds. apply run_record in Hrec. fold upds in Hrec. subst rec.
    split.
    - intros Hnone. rewrite written_none by exact Hnone. now apply Hstart.
    - intros l1 u l2 x -> Hu Hl2. now apply written_last. }
  intros fuel resolvers ctx ex args nm f svc v Hwf Hb Hget Hargs.
  pose proof (Hstart ex args nm v Hargs) as Hinit.
  assert (forall k runs r i s u,
             Executor.trace ex args !! k = Some runs ->
             r ∈ runs ->
             Executor.group_services r !! i = Some s ->
             key s = svc ->
             Executor.outcome (Executor.resolution r) = Ok u ->
             exists record,
               Spec.answered ex r i record /\
               forall nm' f',
                 ordmap_get nm' (variables ctx) = Some (VariableRef f' svc) ->
                 u !! nm' = Some (read record f')) as Hstep.
  { intros k runs r i s u Hk Hr Hi Hkey Hout.
    destruct (trace_level _ _ _ _ Hk) as (lvl & cq & variable & Hlvl & ->).
    apply list_elem_of_lookup_2 in Hlvl.
    destruct (built_run _ _ _ _ _ _ _ _ Hwf Hb Hlvl Hr) as (Hres & Hnd & _).
    rewrite Hres in Hout.
    destruct (built_resolve_writes _ _ _ _ _ _ _ _ (proj1 Hwf) Hb Hnd Hout)
      as (rv & batch & res & Hrv & Hinv & Hbatch & Hc & Hw & _).
    subst svc. destruct (Hw _ _ _ _ Hi Hget) as (record & Hrec & _).
    exists record. split.
    - exists rv, batch, res. rewrite Hres, Hinv, <- Hrv.
      split; [reflexivity |]. split; [reflexivity |].
      split; [rewrite Hbatch; apply length_map |]. auto.
    - intros nm' f' Hget'. destruct (Hw _ _ _ _ Hi Hget') as (record' & Hrec' & Hu).
      congruence. }
  split; [exact Hstep |].
  intros rec Hex. pose proof (run_record _ _ _ Hex) as ->. split.
  - intros Hnever. rewrite written_none; [exact Hinit |].
    apply Forall_forall. intros u Hu.
    apply list_elem_of_In, in_concat in Hu as (upds & Hupds & Hu).
    apply in_map_iff in Hupds as (runs & <- & Hruns).
    apply list_elem_of_In in Hu. apply list_elem_of_In, list_elem_of_lookup in Hruns.
    destruct Hruns as [k Hk].
    destruct (u !! nm) eqn:E; [| reflexivity].
    destruct (Hnever k).
    eapply update_writer; eauto. apply elem_of_dom. eauto.
  - intros k runs r i s u record Hk Hr Hi Hkey Hout Hans Hlast.
    destruct (Hstep _ _ _ _ _ _ Hk Hr Hi Hkey Hout) as (record' & Hans' & Hw).
    rewrite (answered_unique _ _ _ _ _ Hans Hans').
    specialize (Hw _ _ Hget).
    rewrite <- (take_drop_middle _ _ _ Hk).
    apply list_elem_of_split in Hr as (r1s & r2s & ->).
    rewrite map_app, concat_app. simpl. rewrite updates_app.
    assert (Spec.updates (r :: r2s) = u :: Spec.updates r2s) as ->.
    { unfold Spec.updates. simpl. now rewrite Hout. }
    rewrite <- !app_assoc. rewrite app_assoc. simpl.
    apply written_last; [exact Hw |].
    apply Forall_app. split.
    + destruct (trace_level _ _ _ _ Hk) as (lvl & cq & variable & Hlvl & Hruns).
      apply list_elem_of_lookup_2 in Hlvl.
      pose proof (built_updates_disjoint _ _ _ _ lvl cq variable Hwf Hb Hlvl) as Hdis.
      rewrite <- Hruns, updates_app in Hdis.
      assert (Spec.updates (r :: r2s) = u :: Spec.updates r2s) as Hcons.
      { unfold Spec.updates. simpl. now rewrite Hout. }
      rewrite Hcons in Hdis. apply pairwiseDisjoint_after in Hdis.
      eapply Forall_impl; [exact Hdis |]. simpl. intros u' Hd.
      destruct (u' !! nm) eqn:E; [| reflexivity].
      exfalso. eapply (map_disjoint_spec u u'); eauto.
    + apply Forall_forall. intros u' Hu'.
      apply list_elem_of_In, in_concat in Hu' as (upds & Hupds & Hu').
      apply in_map_iff in Hupds as (runs' & <- & Hruns').
      apply list_elem_of_In in Hu'.
      apply list_elem_of_In, list_elem_of_lookup in Hruns' as [j Hj].
      rewrite lookup_drop in Hj.
      destruct (u' !! nm) eqn:E; [| reflexivity].
      destruct (Hlast (S k + j) ltac:(lia)).
      eapply update_writer; eauto. apply elem_of_dom. eauto.
Qed.

Section Checks.
Import Executor Spec.

(** A test for [resolvedAt]. *)
Lemma resolvedAt_check (tr : list (list GroupRun)) (svc : string) (k : nat) :
  resolvedAt tr svc k ->
  match tr !! k with
  | Some runs =>
      existsb (fun r => match outcome (resolution r) with
                        | Ok _ => existsb (fun s => String.eqb (key s) svc)
                                          (group_services r)
                        | Throw _ => false
                        end) runs
  | None => false
  end = true.
Proof.
  intros (runs & r & s & u & -> & Hr & Hs & Hkey & Hout).
  apply existsb_exists. exists r. split; [now apply list_elem_of_In |].
  rewrite Hout. apply existsb_exists. exists s.
  split; [now apply list_elem_of_In | now apply String.eqb_eq].
Qed.

End Checks.

(** On the template [Examples.greeter] the variable [s] is the field [world]
    of the service [g], and [u] the field [value] of [args], a service of
    the system provider.  The group of [g] resolves at the first level and
    at no later one: an override of [s] is replaced by what the provider
    returned.  The group of [args] never resolves: an override of [u] is in
    the returned record. *)
Lemma C1_override_witness :
  let ex := Examples.executor 5 Examples.registry Examples.greeter in
  (exists rec,
      Executor.execute ex {["s" := VString "OVR"]} = Ok rec /\
      rec !! "s" = Some (VString "Al")) /\
  (exists rec,
      Executor.execute ex {["u" := VString "kept"]} = Ok rec /\
      rec !! "u" = Some (VString "kept")).
Proof.
  cbv zeta.
  destruct (Parser.parse Examples.greeter) as [p|] eqn:Ep;
    [| vm_compute in Ep; discriminate].
  pose proof (parse_wf _ _ Ep) as Hwf.
  assert (Parser.resolverContext p = Examples.context Examples.greeter) as Hctx.
  { unfold Examples.context. now rewrite Ep. }
  rewrite Hctx in Hwf. clear Ep Hctx p.
  assert (Resolver.buildResolver 5 Examples.registry
            (Examples.context Examples.greeter) =
          Some (Ok (Examples.executor 5 Examples.registry Examples.greeter))) as Hb
    by (vm_compute; reflexivity).
  set (ex := Examples.executor 5 Examples.registry Examples.greeter) in *.
  split.
  - set (args := {["s" := VString "OVR"]} : gmap string Value).
    destruct (proj2 C1_override_until_overwritten _ _ _ ex args "s" "world" "g"
                (VString "OVR") Hwf Hb eq_refl eq_refl) as (_ & Hfinal).
    destruct (Executor.execute ex args) as [rec|] eqn:E;
      [| vm_compute in E; discriminate].
    exists rec. split; [reflexivity |].
    destruct (Hfinal rec eq_refl) as [_ Hlast].
    set (runs := default [] (Executor.trace ex args !! 0)).
    set (r := default (Executor.mkGroupRun "" [] (Executor.mkResolution None (Ok ∅)))
                      (runs !! 0)).
    replace (VString "Al") with (read {["world" := VString "Al"]} "world")
      by (vm_compute; reflexivity).
    apply (Hlast 0 runs r 0 (mkService "g" "Greeter" [mkDependency "d" "d" "hello"])
             {["s" := VString "Al"]} {["world" := VString "Al"]}).
    + vm_compute. reflexivity.
    + apply (list_elem_of_lookup_2 _ 0). vm_compute. reflexivity.
    + vm_compute. reflexivity.
    + reflexivity.
    + vm_compute. reflexivity.
    + exists (mkResolverValue [] (Examples.constant {["world" := VString "Al"]})),
             [{["d" := VString "hi"]}], [{["world" := VString "Al"]}].
      repeat split; vm_compute; reflexivity.
    + intros k' Hk' H%resolvedAt_check.
      destruct k' as [|[|[|k']]]; [lia | | |]; vm_compute in H; discriminate.
  - set (args := {["u" := VString "kept"]} : gmap string Value).
    destruct (proj2 C1_override_until_overwritten _ _ _ ex args "u" "value" "args"
                (VString "kept") Hwf Hb eq_refl eq_refl) as (_ & Hfinal).
    destruct (Executor.execute ex args) as [rec|] eqn:E;
      [| vm_compute in E; discriminate].
    exists rec. split; [reflexivity |].
    destruct (Hfinal rec eq_refl) as [Hnever _]. apply Hnever.
    intros k H%resolvedAt_check.
    destruct k as [|[|[|k]]]; vm_compute in H; discriminate.
Defined.

(** C1 as stated fails.  On the template [Examples.greeter] the variable
    [s] is a reference to the field [world] of the service [g]; with the
    override [OVR] for [s], the group of [g] resolves and the returned
    record maps [s] to the output of the provider, not to the override. *)
Lemma C1_counterexample :
  let ex := Examples.executor 5 Examples.registry Examples.greeter in
  ordmap_get "s" (variables (_context ex)) = Some (VariableRef "world" "g") /\
  Executor.execute ex {["s" := VString "OVR"]} =
    Ok {["hello" := VString "hi"; "s" := VString "Al"; "z" := VUndefined]} /\
  (forall rec, Executor.execute ex {["s" := VString "OVR"]} = Ok rec ->
               rec !! "s" <> Some (VString "OVR")).
Proof.
  intros ex. split; [vm_compute; reflexivity |].
  assert (Executor.execute ex {["s" := VString "OVR"]} =
          Ok {["hello" := VString "hi"; "s" := VString "Al"; "z" := VUndefined]})
    as H by (vm_compute; reflexivity).
  split; [exact H |].
  intros rec Hrec. rewrite H in Hrec. injection Hrec as <-.
  vm_compute. discriminate.
Qed.

Section NextLevel.
Import Executor Resolver Spec.

Lemma iter_shift (ch : gmap string (ordmap Service)) (n : nat) (svcs : ordmap Service) :
  Nat.iter n (nextServices ch) (nextServices ch svcs) =
  Nat.iter (S n) (nextServices ch) svcs.
Proof. induction n as [|n IH]; simpl; [reflexivity |]. now rewrite IH. Qed.

Lemma queue_levels (ch : gmap string (ordmap Service)) (fuel : nat) :
  forall (svcs : ordmap Service) (qr : list (list Service)),
    _calculateQueueResolving fuel ch svcs = Some qr ->
    length qr <= fuel /\
    Nat.iter (length qr) (nextServices ch) svcs = [] /\
    forall i, i < length qr ->
              Nat.iter i (nextServices ch) svcs <> [] /\
              qr !! i = Some (ordmap_values (Nat.iter i (nextServices ch) svcs)).
Proof.
  induction fuel as [|fuel IH]; intros svcs qr.
  - destruct svcs; simpl; [| discriminate]. intros [= <-]. simpl.
    split; [lia |]. split; [reflexivity |]. intros i Hi. lia.
  - destruct svcs as [|kv svcs].
    + simpl. intros [= <-]. simpl. split; [lia |]. split; [reflexivity |].
      intros i Hi. lia.
    + set (cur := kv :: svcs).
      change (_calculateQueueResolving (S fuel) ch cur)
        with (cons (ordmap_values cur) <$>
                _calculateQueueResolving fuel ch (nextServices ch cur)).
      destruct (_calculateQueueResolving fuel ch (nextServices ch cur))
        as [rest|] eqn:E; [| discriminate].
      intros [= <-]. destruct (IH _ _ E) as (Hlen & Hend & Hlv).
      cbn [length]. split; [lia |]. split.
      * rewrite <- iter_shift. exact Hend.
      * intros [|i] Hi; [split; [discriminate | reflexivity] |].
        rewrite <- iter_shift. apply Hlv. lia.
Qed.

Lemma iter_keyed (ch : gmap string (ordmap Service)) (svcs : ordmap Service) (n : nat) :
  childrenKeyed ch -> keyed svcs -> keyed (Nat.iter n (nextServices ch) svcs).
Proof.
  intros Hch Hs. destruct n as [|n]; [exact Hs |]. simpl.
  now apply nextServices_keyed.
Qed.

Lemma keyed_keys (m : ordmap Service) :
  keyed m -> ordmap_keys m = map key (ordmap_values m).
Proof.
  intros [_ Hall]. unfold ordmap_keys, ordmap_values.
  induction Hall as [|[k s] m Hk _ IH]; [reflexivity |].
  simpl in *. now rewrite IH, Hk.
Qed.

Lemma insert_keys (childs next : ordmap Service) :
  ordmap_keys (fold_left (fun next '(k, s) => ordmap_set k s next) childs next) =
  fold_left (fun acc k => if bool_decide (k ∈ acc) then acc else acc ++ [k])
            (ordmap_keys childs) (ordmap_keys next).
Proof.
  revert next. induction childs as [|[k s] childs IH]; intros next; simpl;
    [reflexivity |].
  rewrite IH, ordmap_set_keys. f_equal.
  destruct (ordmap_has k next) eqn:E.
  - apply ordmap_has_keys in E. now rewrite bool_decide_eq_true_2.
  - rewrite bool_decide_eq_false_2; [reflexivity |].
    intros H%ordmap_has_keys. congruence.
Qed.

Lemma nextServices_keys (ch : gmap string (ordmap Service)) (svcs : ordmap Service) :
  ordmap_keys (nextServices ch svcs) =
  firstOccurrences
    (ordmap_keys svcs ≫= fun p => ordmap_keys (default [] (ch !! p))).
Proof.
  unfold nextServices, firstOccurrences.
  assert (forall (ps : list string) (next : ordmap Service),
             ordmap_keys
               (fold_left
                  (fun next serviceName =>
                     match ch !! serviceName with
                     | None => next
                     | Some childs =>
                         fold_left (fun next '(k, s) => ordmap_set k s next) childs next
                     end) ps next) =
             fold_left (fun acc k => if bool_decide (k ∈ acc) then acc else acc ++ [k])
                       (ps ≫= fun p => ordmap_keys (default [] (ch !! p)))
                       (ordmap_keys next)) as H.
  { induction ps as [|p ps IH]; intros next; [reflexivity |].
    simpl. rewrite fold_left_app, IH. f_equal.
    destruct (ch !! p) as [childs|]; simpl; [apply insert_keys | reflexivity]. }
  apply H.
Qed.

(** The queue of a level below the first, in a built plan. *)
Lemma built_next_level (fuel : nat) (resolvers : ordmap ResolverValue)
    (ctx : ResolverContext) (ex : ResolverExecutor) (k : nat)
    (lvl lvl' : QueueResolving) :
  wfContext ctx ->
  buildResolver fuel resolvers ctx = Some (Ok ex) ->
  _queueResolving ex !! k = Some lvl ->
  _queueResolving ex !! S k = Some lvl' ->
  map key (queue lvl') = firstOccurrences (map key (queue lvl) ≫= childKeys ex).
Proof.
  intros [_ Hs] Hb Hk Hk'.
  pose proof Hb as (ch & qr & Hch & Hqr & Hlevels & Hex & _)%buildResolver_plan.
  assert (childrenKeyed ch) as Hck.
  { unfold _calculateChildrenServices in Hch.
    eapply (childrenFrom_keyed ctx (variables ctx) Hs ∅); [| exact Hch].
    intros p m H. now rewrite lookup_empty in H. }
  assert (keyed (_calculateRootServices ctx)) as Hroots
    by (unfold _calculateRootServices; now apply keyed_filter).
  destruct (queue_levels _ _ _ _ Hqr) as (_ & _ & Hlv).
  rewrite Hlevels in Hk, Hk'. rewrite list_lookup_fmap in Hk, Hk'.
  destruct (qr !! k) as [q|] eqn:Eq; [| discriminate].
  destruct (qr !! S k) as [q'|] eqn:Eq'; [| discriminate].
  injection Hk as <-. injection Hk' as <-. simpl.
  destruct (Hlv k) as [_ Hq]; [apply lookup_lt_Some in Eq; lia |].
  destruct (Hlv (S k)) as [_ Hq']; [apply lookup_lt_Some in Eq'; lia |].
  rewrite Eq in Hq. rewrite Eq' in Hq'. injection Hq as ->. injection Hq' as ->.
  simpl Nat.iter.
  rewrite <- !keyed_keys by (try apply nextServices_keyed; try apply iter_keyed; auto).
  rewrite nextServices_keys. unfold childKeys. now rewrite Hex.
Qed.

End NextLevel.

(** C5.  At a level none of whose groups rejects with a [TypingError], the
    level settles: every group that resolved has its updates assigned to the
    record, whatever happened to its siblings; the candidate set of the next
    level loses the direct children of the services of the groups that
    failed with another error (not a [SystemError]) and nothing else, so
    that descendants further down stay candidates of their own levels; the
    loop goes on from there when the candidate set is not empty and stops
    when it is; and the next level resolves no service outside that
    candidate set.  In an executor built of a well-formed context the groups
    of that level then write none of the variables declared on a service
    outside the candidate set.  [execute] fails only with a [TypingError]
    that some group raised. *)
Theorem C5_isolated_failure :
  (forall (ex : ResolverExecutor) (lvl : QueueResolving)
          (rest : list QueueResolving) (cq : gset string)
          (variable : gmap string Value),
      let runs := Executor.runLevel ex lvl cq variable in
      let candidates :=
        Executor.toSet (match rest with [] => [] | nxt :: _ => queue nxt end) in
      let variable' := Spec.written (Spec.updates runs) variable in
      let nextQueue := candidates ∖ Spec.pruned ex runs in
      forallb (fun r => negb (Spec.fatal r)) runs = true ->
      Executor.settle ex runs variable candidates = Ok (variable', nextQueue) /\
      (forall c : string,
          c ∈ nextQueue <->
          c ∈ candidates /\
          ~ exists r s childServices child,
              r ∈ runs /\ Spec.isolated r = true /\
              s ∈ Executor.group_services r /\
              _childrenServices ex !! key s = Some childServices /\
              child ∈ ordmap_values childServices /\ key child = c) /\
      (forall l1 u l2 k x,
          Spec.updates runs = l1 ++ u :: l2 ->
          u !! k = Some x ->
          Forall (fun u' : gmap string Value => u' !! k = None) l2 ->
          variable' !! k = Some x) /\
      Executor.loop ex (lvl :: rest) cq variable =
        (if bool_decide (size nextQueue = 0) then ([runs], Ok variable')
         else (runs :: fst (Executor.loop ex rest nextQueue variable'),
               snd (Executor.loop ex rest nextQueue variable'))) /\
      (forall (lvl' : QueueResolving) (r : Executor.GroupRun) (s : Service),
          r ∈ Executor.runLevel ex lvl' nextQueue variable' ->
          s ∈ Executor.group_services r ->
          key s ∈ nextQueue)) /\
  (forall (fuel : nat) (resolvers : ordmap ResolverValue) (ctx : ResolverContext)
          (ex : ResolverExecutor) (lvl' : QueueResolving) (nextQueue : gset string)
          (variable' u : gmap string Value) (r : Executor.GroupRun)
          (c nm f : string),
      Spec.wfContext ctx ->
      Resolver.buildResolver fuel resolvers ctx = Some (Ok ex) ->
      lvl' ∈ _queueResolving ex ->
      r ∈ Executor.runLevel ex lvl' nextQueue variable' ->
      Executor.outcome (Executor.resolution r) = Ok u ->
      c ∉ nextQueue ->
      ordmap_get nm (variables ctx) = Some (VariableRef f c) ->
      u !! nm = None) /\
  (forall (ex : ResolverExecutor) (args : gmap string Value) (e : JsError),
      Executor.execute ex args = Throw e ->
      e = TypingError /\ exists k, Spec.fatalAt (Executor.trace ex args) k = true).
Proof.
  split; [| split].
  - intros ex lvl rest cq variable runs candidates variable' nextQueue Hok.
    split; [| split; [| split; [| split]]].
    + rewrite settle_spec. fold runs. now rewrite Hok.
    + intros c. unfold nextQueue. rewrite elem_of_difference, elem_of_pruned.
      reflexivity.
    + intros l1 u l2 k x Hu Hk Hl2. unfold variable'. rewrite Hu.
      now apply written_last.
    + rewrite loop_cons. cbv zeta. fold runs candidates. now rewrite Hok.
    + intros lvl' r s. apply runLevel_services.
  - intros fuel resolvers ctx ex lvl' nextQueue variable' u r c nm f
           Hwf Hb Hlvl Hr Hout Hc Hget.
    destruct (u !! nm) as [x|] eqn:E; [| reflexivity]. exfalso.
    destruct (built_run _ _ _ _ _ _ _ _ Hwf Hb Hlvl Hr) as (Hres & Hnd & Hmem).
    rewrite Hres in Hout.
    destruct (built_resolve_writes _ _ _ _ _ _ _ _ (proj1 Hwf) Hb Hnd Hout)
      as (rv & batch & res & _ & _ & _ & _ & _ & Honly).
    destruct (Honly nm) as (i & s & f' & Hi & Hget'); [apply elem_of_dom; eauto |].
    assert (key s = c) as Hkey by congruence.
    apply Hc. rewrite <- Hkey. apply (Hmem s). now apply list_elem_of_lookup_2 in Hi.
  - intros ex args e. apply run_throws.
Qed.

(** On the template [Examples.branches] the root [a] fails with a plain
    error: its child [b] leaves the candidates of the next level, the
    sibling [c] and its child [e] are resolved, and the grandchild [d] of
    [a] is resolved at the third level. *)
Lemma C5_isolated_failure_witness :
  let ex := Examples.executor 5 Examples.registry Examples.branches in
  let runs :=
    Executor.runLevel ex (default (Resolver.group []) (_queueResolving ex !! 0))
      {["a"; "c"]} (Executor.initial ex ∅) in
  forallb (fun r => negb (Spec.fatal r)) runs = true /\
  Executor.settle ex runs (Executor.initial ex ∅) {["b"; "e"]} =
    Ok ({["k" := VString "k"; "vc" := VString "ok"]}, {["e"]}) /\
  map (map Executor.serviceName) (Executor.trace ex ∅) =
    [["Fail"; "Good"]; ["Good"]; ["Good"]] /\
  map (map (fun r => map key (Executor.group_services r))) (Executor.trace ex ∅) =
    [[["a"]; ["c"]]; [["e"]]; [["d"]]] /\
  Executor.execute ex ∅ =
    Ok {["k" := VString "k"; "vc" := VString "ok"; "ve" := VString "ok";
         "vd" := VString "ok"]}.
Proof.
  intros ex runs.
  assert (forallb (fun r => negb (Spec.fatal r)) runs = true) as Hok
    by (vm_compute; reflexivity).
  split; [exact Hok |]. split.
  - pose proof (proj1 C5_isolated_failure ex
                  (default (Resolver.group []) (_queueResolving ex !! 0))
                  (tail (_queueResolving ex))
                  {["a"; "c"]} (Executor.initial ex ∅) Hok) as (Hs & _).
    etransitivity; [| etransitivity; [exact Hs |]]; vm_compute; reflexivity.
  - repeat split; vm_compute; reflexivity.
Defined.

(** C5 as stated fails.  On the template [Examples.hidden] the only provider
    that throws is [Fail], with a plain error; its child [b] is not run, so
    the variable [vb] is never written, and at the third level the argument
    model of [Strict] rejects the grandchild [d] before its provider is
    called: [execute] fails with a [TypingError].  On the template
    [Examples.rejoined] the child [b] of the failing root [a] is removed
    from the candidates of the second level, but it is queued again at the
    third level, as a child of [e], where it runs and writes [vb]. *)
Lemma C5_counterexample :
  let shape (ex : ResolverExecutor) :=
    map (map (fun r =>
                (Executor.serviceName r, map key (Executor.group_services r),
                 match Executor.invoked (Executor.resolution r) with
                 | Some _ => true
                 | None => false
                 end,
                 match Executor.outcome (Executor.resolution r) with
                 | Ok _ => None
                 | Throw e => Some e
                 end)))
        (Executor.trace ex ∅) in
  (let ex := Examples.executor 5 Examples.registryStrict Examples.hidden in
   shape ex =
     [[("Fail", ["a"], true, Some OtherError); ("Good", ["c"], true, None)];
      [("Good", ["e"], true, None)];
      [("Strict", ["d"], false, Some TypingError)]] /\
   Executor.execute ex ∅ = Throw TypingError) /\
  (let ex := Examples.executor 5 Examples.registry Examples.rejoined in
   map (fun lvl => map key (queue lvl)) (_queueResolving ex) =
     [["a"; "c"]; ["b"; "e"]; ["b"]] /\
   Spec.pruned ex (default [] (Executor.trace ex ∅ !! 0)) = {["b"]} /\
   shape ex =
     [[("Fail", ["a"], true, Some OtherError); ("Good", ["c"], true, None)];
      [("Echo", [], true, None); ("Good", ["e"], true, None)];
      [("Echo", ["b"], true, None)]] /\
   Executor.execute ex ∅ =
     Ok {["k" := VString "k"; "vc" := VString "ok"; "ve" := VString "ok";
          "vb" := VString "ok"]}).
Proof.
  cbv zeta. repeat split; vm_compute; reflexivity.
Qed.

(** C7, as the code has it.  At a level from which nothing was pruned, a
    provider with at least one instance in the level whose argument records
    pass validation is run as exactly one group: the callback receives one
    batch with one argument record per instance, in the order the instances
    have in the queue of the level, and when it returns as many records as
    it was given and every instance has a model, the call resolves.  In an
    executor built of a well-formed context a group that resolves has
    written, for every instance, the fields of the record at the position of
    that instance to the variables declared on that instance, and nothing
    else.  In the first level the order of the queue is that of the service
    table; the queue of a deeper level lists the children of the services of
    the level before it, parent after parent in the order of that level and
    under each parent in the order of its child map, every service once,
    where it is met first.  In the service table a service that is declared
    again keeps its place. *)
Theorem C7_one_batch_per_provider :
  (forall (ex : ResolverExecutor) (q : list Service)
          (variable : gmap string Value) (nm : string) (rv : ResolverValue)
          (batch : list (gmap string Value)),
      let grp := filter (fun s => name s = nm) q in
      let runs :=
        Executor.runLevel ex (Resolver.group q) (Executor.toSet q) variable in
      0 < length grp ->
      ordmap_get nm (_resolvers ex) = Some rv ->
      Executor.buildBatch (argsModel rv) variable grp = Ok batch ->
      exists r,
        filter (fun r => Executor.serviceName r = nm) runs = [r] /\
        Executor.group_services r = grp /\
        batch = map (Executor.buildArgs variable) grp /\
        Executor.invoked (Executor.resolution r) = Some batch /\
        forall res : list (gmap string Value),
          callback rv batch = Ok res ->
          length res = length grp ->
          Spec.modelled (_serviceModels ex) grp = true ->
          Executor.outcome (Executor.resolution r) =
            Ok (fold_left
                  (fun upd '(s, record) =>
                     Executor.copyFields
                       (default [] (_serviceModels ex !! key s)) record upd)
                  (zip grp res) ∅)) /\
  (forall (fuel : nat) (resolvers : ordmap ResolverValue) (ctx : ResolverContext)
          (ex : ResolverExecutor) (lvl : QueueResolving) (cq : gset string)
          (variable u : gmap string Value) (r : Executor.GroupRun),
      Spec.wfContext ctx ->
      Resolver.buildResolver fuel resolvers ctx = Some (Ok ex) ->
      lvl ∈ _queueResolving ex ->
      r ∈ Executor.runLevel ex lvl cq variable ->
      Executor.outcome (Executor.resolution r) = Ok u ->
      exists rv batch res,
        ordmap_get (Executor.serviceName r) (_resolvers ex) = Some rv /\
        Executor.invoked (Executor.resolution r) = Some batch /\
        batch = map (Executor.buildArgs variable) (Executor.group_services r) /\
        callback rv batch = Ok res /\
        (forall i s nm f,
            Executor.group_services r !! i = Some s ->
            ordmap_get nm (variables ctx) = Some (VariableRef f (key s)) ->
            exists record,
              res !! i = Some record /\ u !! nm = Some (read record f)) /\
        (forall nm,
            nm ∈ dom u ->
            exists i s f,
              Executor.group_services r !! i = Some s /\
              ordmap_get nm (variables ctx) = Some (VariableRef f (key s)))) /\
  (forall (fuel : nat) (resolvers : ordmap ResolverValue) (ctx : ResolverContext)
          (ex : ResolverExecutor) (lvl : QueueResolving) (nm : string),
      Resolver.buildResolver fuel resolvers ctx = Some (Ok ex) ->
      _queueResolving ex !! 0 = Some lvl ->
      filter (fun s => name s = nm) (queue lvl) =
        filter (fun s => Resolver.dependenciesCount (variables ctx) s = 0)
               (Spec.declarationOrder ctx nm)) /\
  (forall (fuel : nat) (resolvers : ordmap ResolverValue) (ctx : ResolverContext)
          (ex : ResolverExecutor) (k : nat) (lvl lvl' : QueueResolving),
      Spec.wfContext ctx ->
      Resolver.buildResolver fuel resolvers ctx = Some (Ok ex) ->
      _queueResolving ex !! k = Some lvl ->
      _queueResolving ex !! S k = Some lvl' ->
      map key (queue lvl') =
        Spec.firstOccurrences (map key (queue lvl) ≫= Spec.childKeys ex)) /\
  (forall (ctx : ResolverContext) (k providerName : string) (deps : list Dependency),
      ordmap_keys (services (Context.registService k providerName deps ctx)) =
        if ordmap_has k (services ctx) then ordmap_keys (services ctx)
        else ordmap_keys (services ctx) ++ [k]).
Proof.
  split; [| split; [| split; [| split]]].
  - intros ex q variable nm rv batch grp runs Hlen Hrv Hbatch.
    assert (ordmap_get nm (Resolver.groupByField q) = Some grp) as Hget.
    { rewrite groupByField_get. fold grp. destruct grp; [simpl in Hlen; lia | reflexivity]. }
    assert (filter (fun s => key s ∈ Executor.toSet q) grp = grp) as Hkeep.
    { apply filter_in_toSet. intros s Hs. unfold grp in Hs.
      now apply list_elem_of_filter in Hs as [_ Hs]. }
    pose proof (buildBatch_ok _ _ _ _ Hbatch) as Hb.
    eexists. split; [| split; [| split; [| split]]].
    + unfold runs, Executor.runLevel. simpl queueGrouped.
      rewrite (filter_map_key _ Executor.serviceName) by (now intros [k g]).
      rewrite (ordmap_filter_key _ nm grp (groupByField_NoDup q) Hget).
      simpl. rewrite Hkeep, Hrv. reflexivity.
    + reflexivity.
    + exact Hb.
    + simpl. unfold Executor._resolve. now rewrite Hbatch.
    + intros res Hres Hn Hm. simpl. unfold Executor._resolve.
      rewrite Hbatch. simpl. rewrite Hres. simpl.
      rewrite collect_zip by (auto || lia). now rewrite drop_0.
  - intros fuel resolvers ctx ex lvl cq variable u r Hwf Hb Hlvl Hr Hout.
    destruct (built_run _ _ _ _ _ _ _ _ Hwf Hb Hlvl Hr) as (Hres & Hnd & _).
    rewrite Hres in Hout |- *.
    destruct (built_resolve_writes _ _ _ _ _ _ _ _ (proj1 Hwf) Hb Hnd Hout)
      as (rv & batch & res & Hrv & Hinv & Hbatch & Hc & Hw & Honly).
    exists rv, batch, res. auto 10.
  - intros fuel resolvers ctx ex lvl nm Hbuild Hlvl.
    apply buildResolver_plan in Hbuild as (ch & qr & _ & Hqr & Hlevels & _).
    rewrite Hlevels in Hlvl. rewrite list_lookup_fmap in Hlvl.
    destruct (qr !! 0) as [l|] eqn:El; [| discriminate].
    injection Hlvl as <-. simpl.
    rewrite (queue_head _ _ _ _ _ Hqr El), roots_values.
    unfold Spec.declarationOrder. apply filter_comm.
  - intros fuel resolvers ctx ex k lvl lvl'. apply built_next_level.
  - intros ctx k providerName deps. apply ordmap_set_keys.
Qed.

(** On the template [Examples.twins] the two root instances of [Echo] are
    handed to the callback as one batch of two records, [x] before [y].  On
    the template [Examples.crossed] the services [p] and [q] make the first
    level; the edge from [q] to [cq] is found before the edge from [p] to
    [cp], and the second level is [cp] before [cq]. *)
Lemma C7_one_batch_witness :
  (let ex := Examples.executor 5 Examples.registry Examples.twins in
   let q := default [] (queue <$> _queueResolving ex !! 0) in
   exists r,
     filter (fun r => Executor.serviceName r = "Echo")
            (Executor.runLevel ex (Resolver.group q) (Executor.toSet q)
               (Executor.initial ex ∅)) = [r] /\
     map key (Executor.group_services r) = ["x"; "y"] /\
     Executor.invoked (Executor.resolution r) =
       Some [{["a" := VString "one"]}; {["a" := VString "one"]}]) /\
  (let ex := Examples.executor 5 Examples.registry Examples.crossed in
   let l0 := default (Resolver.group []) (_queueResolving ex !! 0) in
   let l1 := default (Resolver.group []) (_queueResolving ex !! 1) in
   ordmap_keys (variables (_context ex)) = ["k"; "vp"; "vq"; "oq"; "op"] /\
   map key (queue l0) = ["p"; "q"] /\
   map key (queue l1) = ["cp"; "cq"]).
Proof.
  split.
  - intros ex q.
    destruct (proj1 C7_one_batch_per_provider ex q (Executor.initial ex ∅) "Echo"
                (mkResolverValue [] Examples.echo)
                [{["a" := VString "one"]}; {["a" := VString "one"]}])
      as (r & Hr & Hgrp & _ & Hinv & _).
    + vm_compute. lia.
    + vm_compute. reflexivity.
    + vm_compute. reflexivity.
    + exists r. split; [exact Hr |]. split; [| exact Hinv].
      rewrite Hgrp. vm_compute. reflexivity.
  - intros ex l0 l1. split; [vm_compute; reflexivity |].
    split; [vm_compute; reflexivity |].
    destruct (Parser.parse Examples.crossed) as [p|] eqn:Ep;
      [| vm_compute in Ep; discriminate].
    pose proof (parse_wf _ _ Ep) as Hwf.
    assert (Parser.resolverContext p = Examples.context Examples.crossed) as Hctx.
    { unfold Examples.context. now rewrite Ep. }
    rewrite Hctx in Hwf. clear Ep Hctx p.
    assert (Resolver.buildResolver 5 Examples.registry
              (Examples.context Examples.crossed) = Some (Ok ex)) as Hb
      by (vm_compute; reflexivity).
    destruct C7_one_batch_per_provider as (_ & _ & _ & Hnext & _).
    assert (_queueResolving ex !! 0 = Some l0) as H0 by (vm_compute; reflexivity).
    assert (_queueResolving ex !! 1 = Some l1) as H1 by (vm_compute; reflexivity).
    rewrite (Hnext _ _ _ ex 0 l0 l1 Hwf Hb H0 H1).
    vm_compute. reflexivity.
Defined.

(** C7 as stated fails below the first level.  On the template
    [Examples.fanout], where every group resolves, the instances [x] and
    [y] of [Echo] are declared in this order, but in the child map of their
    parent [y] stands before [x], and the callback receives the record of
    [y] before that of [x]. *)
Lemma C7_counterexample :
  let ex := Examples.executor 5 Examples.registry Examples.fanout in
  forallb (forallb (fun r => match Executor.outcome (Executor.resolution r) with
                             | Ok _ => true
                             | Throw _ => false
                             end)) (Executor.trace ex ∅) = true /\
  map key (Spec.declarationOrder (_context ex) "Echo") = ["x"; "y"] /\
  map (fun r => (Executor.serviceName r, map key (Executor.group_services r),
                 Executor.invoked (Executor.resolution r)))
      (default [] (Executor.trace ex ∅ !! 1)) =
    [("Echo", ["y"; "x"],
      Some [{["a" := VString "2"]}; {["a" := VString "1"]}])] /\
  (runs ← Executor.trace ex ∅ !! 1;
   r ← (runs : list Executor.GroupRun) !! 0;
   Executor.invoked (Executor.resolution r)) <>
  Some (map (Executor.buildArgs {["v" := VString "1"; "w" := VString "2"]})
            (Spec.declarationOrder (_context ex) "Echo")).
Proof.
  intros ex. repeat split; try (vm_compute; reflexivity).
  vm_compute. discriminate.
Qed.
